(** * Enhanced-dependency graph repair: [scripts/connect_graph.py]

    A shallow embedding of the per-sentence repair pipeline of [_read]
    (head-set extraction, root reachability, fragment building and
    collapsing, reattachment of fragment heads to ROOT) together with the
    properties the specification states about it.

    Python values are modelled as follows.
    - [str] is [string]; a list is a [list]; a [dict] is an association list
      in insertion order with unique keys (iteration order matters here).
    - A parsed token is the dict built by [zip(FIELDS, line)]; it is modelled
      as a record with the ten CoNLL-U fields, so every line is taken to
      have at least ten tab-separated values (on a shorter line the lookup
      [x["deps"]] is a [KeyError] before any of the code below runs).
    - A raised exception is the [Raise] outcome of the [Result] monad.
    - The local variable [root_index] of [_read] is assigned inside the loop
      over sentences and is never reset: it is threaded from one sentence to
      the next as an [option string] ([None] while it is unassigned). *)

From Stdlib Require Import String Ascii Bool Arith Lia Permutation List.
Import ListNotations.
Local Open Scope string_scope.
Local Open Scope list_scope.

Set Implicit Arguments.

(** ** Exceptions and the error monad *)

Inductive PyError : Type :=
| AssertionError   (* [assert len(ids) == len(enhanced_heads)] *)
| IndexError       (* [del inputs[i]] with [i] out of range *)
| NameError        (* [UnboundLocalError]: read of the unassigned [root_index] *)
| KeyError         (* [ids_to_heads[k]] with [k] absent *)
| ValueError.      (* "could not find head for token" *)

Inductive Result (A : Type) : Type :=
| Ok (a : A)
| Raise (e : PyError).

Arguments Ok {A} a.
Arguments Raise {A} e.

Definition bind {A B : Type} (r : Result A) (k : A -> Result B) : Result B :=
  match r with
  | Ok a => k a
  | Raise e => Raise e
  end.

Notation "x <- r ;; k" := (bind r (fun x => k))
  (at level 61, r at next level, right associativity).

(** [for x in xs: st = body(st, x)], stopping at the first exception. *)
Fixpoint foldM {A S : Type} (body : S -> A -> Result S) (xs : list A) (st : S)
  : Result S :=
  match xs with
  | [] => Ok st
  | x :: xs' => st' <- body st x ;; foldM body xs' st'
  end.

(** ** Strings *)

(** [x in l] for a list of strings. *)
Definition mem (x : string) (l : list string) : bool :=
  existsb (String.eqb x) l.

(** ["-" in x]: the one-character needle occurs in [x]. *)
Fixpoint contains_char (c : ascii) (x : string) : bool :=
  match x with
  | EmptyString => false
  | String a rest => Ascii.eqb a c || contains_char c rest
  end.

(** [s.split(sep)] for a one-character separator: never empty. *)
Fixpoint split (sep : ascii) (s : string) : list string :=
  match s with
  | EmptyString => [EmptyString]
  | String a rest =>
      if Ascii.eqb a sep then EmptyString :: split sep rest
      else match split sep rest with
           | [] => [String a EmptyString]
           | w :: ws => String a w :: ws
           end
  end.

(** [s.split(":")[0]] *)
Definition split_colon_0 (s : string) : string :=
  match split ":"%char s with
  | [] => EmptyString
  | h :: _ => h
  end.

(** ** Tokens and sentences *)

Module Token.
Record t : Type := mk {
  id : string; form : string; lemma : string; upos : string; xpos : string;
  feats : string; head : string; deprel : string; deps : string;
  misc : string
}.

(** [tok["deps"] = v] *)
Definition set_deps (tok : t) (v : string) : t :=
  mk (id tok) (form tok) (lemma tok) (upos tok) (xpos tok) (feats tok)
     (head tok) (deprel tok) v (misc tok).
End Token.

Definition Sentence : Type := list Token.t.

(** ** Insertion-ordered dictionaries *)

Section Dict.
Variable V : Type.

Definition dict : Type := list (string * V).

Definition keys (d : dict) : list string := map fst d.

Fixpoint dict_get (d : dict) (k : string) : option V :=
  match d with
  | [] => None
  | (k', v) :: d' => if String.eqb k k' then Some v else dict_get d' k
  end.

(** [d[k] = v]: an existing key keeps its position. *)
Fixpoint dict_set (d : dict) (k : string) (v : V) : dict :=
  match d with
  | [] => [(k, v)]
  | (k', v') :: d' =>
      if String.eqb k k' then (k', v) :: d'
      else (k', v') :: dict_set d' k v
  end.
End Dict.

Arguments keys {V} d.
Arguments dict_get {V} d k.
Arguments dict_set {V} d k v.

(** [d[k].append(x)] *)
Definition dict_append (d : dict (list string)) (k x : string)
  : Result (dict (list string)) :=
  match dict_get d k with
  | None => Raise KeyError
  | Some v => Ok (dict_set d k (v ++ [x]))
  end.

(** The (token, head) pairs in the order the nested loops
    [for token_id, heads in d.items(): for head in heads] visit them. *)
Definition pairs (d : dict (list string)) : list (string * string) :=
  flat_map (fun e => map (pair (fst e)) (snd e)) d.

(** ** Deleting from a list while iterating over it *)

(** [del inputs[i]] *)
Definition del_at {A : Type} (i : nat) (inputs : list A) : Result (list A) :=
  if Nat.ltb i (length inputs)
  then Ok (firstn i inputs ++ skipn (S i) inputs)
  else Raise IndexError.

(** [for i, x in enumerate(inputs): inputs = body(i, x, inputs)].  The list
    iterator holds an index into the live list, so after a deletion at [i]
    the element that slides into position [i] is never visited.  No body
    used here lengthens the list, so [length inputs] rounds of [fuel]
    always reach the end of the iteration (see [enumerate_loop_fuel]). *)
Fixpoint enumerate_loop {A : Type}
    (body : nat -> A -> list A -> Result (list A))
    (fuel i : nat) (inputs : list A) : Result (list A) :=
  match fuel with
  | O => Ok inputs
  | S fuel' =>
      match nth_error inputs i with
      | None => Ok inputs
      | Some x =>
          inputs' <- body i x inputs ;;
          enumerate_loop body fuel' (S i) inputs'
      end
  end.

Definition for_enumerate {A : Type}
    (body : nat -> A -> list A -> Result (list A)) (inputs : list A)
  : Result (list A) :=
  enumerate_loop body (length inputs) 0 inputs.

(** ** Head-set extraction *)

Definition clean_ids (inputs : list string) : Result (list string) :=
  for_enumerate
    (fun i x inputs => if contains_char "-"%char x then del_at i inputs
                       else Ok inputs)
    inputs.

Definition clean_eheads (inputs : list (list string))
  : Result (list (list string)) :=
  for_enumerate
    (fun i x_list inputs =>
       foldM (fun inputs x => if String.eqb x "_" then del_at i inputs
                              else Ok inputs)
             x_list inputs)
    inputs.

Definition convert_deps_to_nested_list (deps : list string)
  : list (list string) :=
  map (fun enhanced_dependency =>
         match split "|"%char enhanced_dependency with
         | [] => []
         | [split_deps] => [split_colon_0 split_deps]
         | split_deps => map split_colon_0 split_deps
         end)
      deps.

(** [{conllu_id: [] for conllu_id in ids}] *)
Definition empty_heads (ids : list string) : dict (list string) :=
  fold_left (fun d conllu_id => dict_set d conllu_id []) ids [].

(** [for conllu_id, head_list in zip(ids, enhanced_heads): ...append(head)] *)
Definition fill_heads (ids : list string) (enhanced_heads : list (list string))
    (d : dict (list string)) : Result (dict (list string)) :=
  foldM (fun d entry =>
           foldM (fun d head => dict_append d (fst entry) head) (snd entry) d)
        (combine ids enhanced_heads) d.

(** Lines 126-143 of [_read]: the HeadMap [ids_to_heads] of a sentence. *)
Definition extract_heads (annotated_sentence : Sentence)
  : Result (dict (list string)) :=
  ids <- clean_ids (map Token.id annotated_sentence) ;;
  enhanced_heads <-
    clean_eheads
      (convert_deps_to_nested_list (map Token.deps annotated_sentence)) ;;
  if Nat.eqb (length ids) (length enhanced_heads)
  then fill_heads ids enhanced_heads (empty_heads ids)
  else Raise AssertionError.

(** ** Reachability from ROOT *)

(** Pass 1, "find root": every token with a head ["0"] is appended and
    becomes [root_index]; the last one wins. *)
Definition find_root (ids_to_heads : dict (list string))
    (root_index : option string) (nodes : list string)
  : option string * list string :=
  fold_left
    (fun st entry =>
       fold_left
         (fun st head =>
            if String.eqb head "0"
            then (Some (fst entry), snd st ++ [fst entry])
            else st)
         (snd entry) st)
    ids_to_heads (root_index, nodes).

(** Pass 2, "find root's immediate children": [head == root_index] reads
    the variable, which raises [NameError] while it is unassigned. *)
Definition find_root_children (ids_to_heads : dict (list string))
    (root_index : option string) (nodes : list string)
  : Result (list string) :=
  foldM
    (fun nodes entry =>
       foldM
         (fun nodes head =>
            match root_index with
            | None => Raise NameError
            | Some r =>
                if String.eqb head r then Ok (nodes ++ [fst entry])
                else Ok nodes
            end)
         (snd entry) nodes)
    ids_to_heads nodes.

(** The loop body of one sweep, for one (token, head) pair. *)
Definition visit (nodes : list string) (token_id head : string)
  : list string :=
  if mem head nodes
  then if negb (mem token_id nodes) then nodes ++ [token_id] else nodes
  else nodes.

Definition traverse_root_children (ids_to_heads : dict (list string))
    (nodes_reachable_from_root : list string)
    (keep_searching_for_dependents : bool) : list string * bool :=
  let num_offspring_before := length nodes_reachable_from_root in
  let nodes :=
    fold_left
      (fun nodes entry =>
         fold_left (fun nodes head => visit nodes (fst entry) head)
                   (snd entry) nodes)
      ids_to_heads nodes_reachable_from_root in
  let num_offspring_after := length nodes in
  (nodes,
   if Nat.eqb num_offspring_before num_offspring_after then false
   else keep_searching_for_dependents).

(** [while keep_searching_for_dependents: ...], unrolled at most [fuel]
    times.  The result carries the number of sweeps that were run; [None]
    means the loop was still running when the fuel ran out. *)
Fixpoint search_loop (fuel : nat) (ids_to_heads : dict (list string))
    (nodes : list string) : option (list string * nat) :=
  match fuel with
  | O => None
  | S fuel' =>
      let (nodes', keep_searching_for_dependents) :=
        traverse_root_children ids_to_heads nodes true in
      if keep_searching_for_dependents
      then match search_loop fuel' ids_to_heads nodes' with
           | Some (final, sweeps) => Some (final, S sweeps)
           | None => None
           end
      else Some (nodes', 1)
  end.

(** The list the loop leaves in [nodes_reachable_from_root].  One more
    round of fuel than there are HeadMap entries is always enough
    ([search_loop_terminates]), so the [None] branch is never taken. *)
Definition search_dependents (ids_to_heads : dict (list string))
    (nodes : list string) : list string :=
  match search_loop (S (length ids_to_heads)) ids_to_heads nodes with
  | Some (final, _) => final
  | None => nodes
  end.

(** ** Fragments *)

(** Step 3, "find remaining tokens". *)
Definition find_unreachable (ids_to_heads : dict (list string))
    (nodes_reachable_from_root : list string) : list string :=
  fold_left
    (fun unreachable_nodes entry =>
       fold_left
         (fun unreachable_nodes head =>
            if negb (String.eqb head "0")
               && negb (mem head nodes_reachable_from_root)
            then unreachable_nodes ++ [fst entry]
            else unreachable_nodes)
         (snd entry) unreachable_nodes)
    ids_to_heads [].

(** Step 4, first loop: a bucket for every head of an unreachable node. *)
Definition init_fragments (ids_to_heads : dict (list string))
    (unreachable_nodes : list string) : Result (dict (list string)) :=
  foldM
    (fun fragments unreachable_node =>
       match dict_get ids_to_heads unreachable_node with
       | None => Raise KeyError
       | Some unreachable_heads =>
           Ok (fold_left
                 (fun fragments unreachable_head =>
                    dict_set fragments unreachable_head [])
                 unreachable_heads fragments)
       end)
    unreachable_nodes [].

(** Step 4, second loop: every unreachable node joins the bucket of each of
    its heads. *)
Definition fill_fragments (ids_to_heads : dict (list string))
    (unreachable_nodes : list string) (fragments : dict (list string))
  : Result (dict (list string)) :=
  foldM
    (fun fragments unreachable_node =>
       match dict_get ids_to_heads unreachable_node with
       | None => Raise KeyError
       | Some unreachable_heads =>
           foldM
             (fun fragments unreachable_head =>
                match dict_get fragments unreachable_head with
                | Some children =>
                    Ok (dict_set fragments unreachable_head
                                 (children ++ [unreachable_node]))
                | None => Raise ValueError
                end)
             unreachable_heads fragments
       end)
    unreachable_nodes fragments.

(** Step 5: the keys of the fragments are pruned by deleting from the list
    that is being enumerated. *)
Definition collapse_body (unreachable_head_fragments : dict (list string))
    (i : nat) (head_of_fragment : string) (heads_of_fragments : list string)
  : Result (list string) :=
  foldM
    (fun heads_of_fragments fragment =>
       if mem head_of_fragment (snd fragment)
       then del_at i heads_of_fragments
       else Ok heads_of_fragments)
    unreachable_head_fragments heads_of_fragments.

Definition collapse (unreachable_head_fragments : dict (list string))
    (heads_of_fragments : list string) : Result (list string) :=
  for_enumerate (collapse_body unreachable_head_fragments) heads_of_fragments.

(** "populate the pruned tree" *)
Definition populate_pruned (unreachable_head_fragments : dict (list string))
    (heads_of_fragments : list string) : dict (list string) :=
  fold_left
    (fun pruned_tree head_of_fragment =>
       fold_left
         (fun pruned_tree fragment =>
            if String.eqb head_of_fragment (fst fragment)
            then dict_set pruned_tree head_of_fragment (snd fragment)
            else pruned_tree)
         unreachable_head_fragments pruned_tree)
    heads_of_fragments [].

(** ** Reattachment *)

Definition root_edge : string := "0:root".

(** "NAIVE SOLUTION: add 0:root to the head of the pruned tree." *)
Definition add_root_edges (pruned_tree : dict (list string))
    (annotated_sentence : Sentence) : Sentence :=
  map (fun tok =>
         let conllu_id := Token.id tok in
         if mem conllu_id (keys pruned_tree)
         then let deps_object := Token.deps tok in
              Token.set_deps tok (deps_object ++ "|" ++ root_edge)
         else tok)
      annotated_sentence.

(** ** The pipeline *)

(** The values of the locals of [_read] once a sentence is analysed. *)
Record Analysis : Type := mkAnalysis {
  ids_to_heads : dict (list string);
  new_root_index : option string;
  initial_nodes : list string;
  nodes_reachable_from_root : list string;
  unreachable_nodes : list string;
  unreachable_head_fragments : dict (list string);
  heads_of_fragments : list string;
  pruned_tree : dict (list string)
}.

(** The two initialisation passes. *)
Definition root_and_children (m : dict (list string))
    (root_index : option string) : Result (option string * list string) :=
  let (root_index', nodes) := find_root m root_index [] in
  nodes' <- find_root_children m root_index' nodes ;;
  Ok (root_index', nodes').

(** Lines 148-168: the Reachability Engine. *)
Definition reachability (m : dict (list string)) (root_index : option string)
  : Result (option string * list string) :=
  init <- root_and_children m root_index ;;
  Ok (fst init, search_dependents m (snd init)).

Definition analyse (root_index : option string) (annotated_sentence : Sentence)
  : Result Analysis :=
  m <- extract_heads annotated_sentence ;;
  init <- root_and_children m root_index ;;
  let nodes := search_dependents m (snd init) in
  let unreachable := find_unreachable m nodes in
  empty_fragments <- init_fragments m unreachable ;;
  fragments <- fill_fragments m unreachable empty_fragments ;;
  survivors <- collapse fragments (keys fragments) ;;
  Ok (mkAnalysis m (fst init) (snd init) nodes unreachable fragments survivors
                 (populate_pruned fragments survivors)).

(** The body of the loop over sentences: the new [root_index] and the
    sentence that is appended to [conllu_annotations]. *)
Definition repair_sentence (root_index : option string)
    (annotated_sentence : Sentence) : Result (option string * Sentence) :=
  a <- analyse root_index annotated_sentence ;;
  Ok (a.(new_root_index), add_root_edges a.(pruned_tree) annotated_sentence).

Fixpoint read_from (root_index : option string) (sentences : list Sentence)
  : Result (list Sentence) :=
  match sentences with
  | [] => Ok []
  | annotated_sentence :: rest =>
      r <- repair_sentence root_index annotated_sentence ;;
      conllu_annotations <- read_from (fst r) rest ;;
      Ok (snd r :: conllu_annotations)
  end.

(** [_read], on the sentences [lazy_parse] yields for the file. *)
Definition _read (sentences : list Sentence) : Result (list Sentence) :=
  read_from None sentences.

(** ** Test sentences *)

(** A token with the given id and enhanced-dependencies field. *)
Definition tok (id deps : string) : Token.t :=
  Token.mk id "w" "w" "X" "_" "_" "0" "dep" deps "_".

Definition ex_chain : Sentence :=
  [tok "1" "0:root"; tok "2" "1:nsubj"; tok "3" "2:obj"].

(** Example 2 of the specification: head "5" names no token. *)
Definition ex_dangling : Sentence :=
  [tok "1" "0:root"; tok "2" "1:nsubj"; tok "3" "5:obj"; tok "4" "3:det"].

(** A two-token cycle next to a rooted token. *)
Definition ex_cycle : Sentence :=
  [tok "1" "0:root"; tok "2" "3:conj"; tok "3" "2:conj"].

(** Token 1 hangs from the root token 4 and also from the cycle 2 <-> 3. *)
Definition ex_mixed : Sentence :=
  [tok "1" "2:nsubj|4:obj"; tok "2" "3:conj"; tok "3" "2:conj";
   tok "4" "0:root"].

(** [ex_mixed] after one and after two runs. *)
Definition ex_mixed_once : Sentence :=
  [tok "1" "2:nsubj|4:obj"; tok "2" "3:conj"; tok "3" "2:conj";
   tok "4" "0:root|0:root"].

Definition ex_mixed_twice : Sentence :=
  [tok "1" "2:nsubj|4:obj"; tok "2" "3:conj"; tok "3" "2:conj";
   tok "4" "0:root|0:root|0:root"].

(** A second sentence for a file: a cycle and no token headed by ROOT. *)
Definition ex_rootless : Sentence :=
  [tok "1" "2:conj"; tok "2" "1:conj"].

(** A multi-word token line followed by a token without enhanced
    dependencies. *)
Definition ex_placeholders : Sentence :=
  [tok "1-2" "_"; tok "1" "_"; tok "2" "0:root"].

(** ** Notions used by the statements *)

(** The closure of [init] under "the token of a pair whose head is in". *)
Inductive reach (ps : list (string * string)) (init : list string)
  : string -> Prop :=
| reach_init : forall x, In x init -> reach ps init x
| reach_step : forall token_id head,
    In (token_id, head) ps -> reach ps init head -> reach ps init token_id.

(** One sweep, as a fold over the (token, head) pairs. *)
Definition sweep_pairs (ps : list (string * string)) (nodes : list string)
  : list string :=
  fold_left (fun nodes p => visit nodes (fst p) (snd p)) ps nodes.

(** The HeadMap entries whose token is not yet in [nodes]. *)
Definition unreached (m : dict (list string)) (nodes : list string) : nat :=
  length (filter (fun e => negb (mem (fst e) nodes)) m).

(** In how many fragments [k] occurs as a child. *)
Definition hits (fragments : dict (list string)) (k : string) : nat :=
  length (filter (fun fragment => mem k (snd fragment)) fragments).

(** [k] occurs in the children list of some fragment. *)
Definition is_child (fragments : dict (list string)) (k : string) : bool :=
  existsb (fun fragment => mem k (snd fragment)) fragments.

(** What is left of a list by an enumeration that deletes the element it
    stands on when [p] holds of it: the element behind a deleted one
    takes its place and the enumeration moves past it. *)
Fixpoint keep_after_deleted {A : Type} (p : A -> bool) (l : list A)
  : list A :=
  match l with
  | [] => []
  | x :: rest =>
      if p x
      then match rest with
           | [] => []
           | y :: rest' => y :: keep_after_deleted p rest'
           end
      else x :: keep_after_deleted p rest
  end.

(** [c] is a key of the HeadMap [m] with [k] among its heads. *)
Definition child_of (m : dict (list string)) (k c : string) : Prop :=
  exists hs, dict_get m c = Some hs /\ In k hs.

(** No two neighbours of the list both satisfy [p]. *)
Fixpoint no_adjacent {A : Type} (p : A -> bool) (l : list A) : bool :=
  match l with
  | [] => true
  | x :: rest =>
      match rest with
      | [] => true
      | y :: _ => negb (p x && p y) && no_adjacent p rest
      end
  end.

(** ["_"] occurs in a head list, and how often. *)
Definition has_placeholder (x_list : list string) : bool := mem "_" x_list.

Definition placeholders (x_list : list string) : nat :=
  length (filter (fun x => String.eqb x "_") x_list).

(** Two tokens that agree on every field but the enhanced dependencies. *)
Definition same_but_deps (t t' : Token.t) : Prop :=
  Token.id t' = Token.id t /\ Token.form t' = Token.form t
  /\ Token.lemma t' = Token.lemma t /\ Token.upos t' = Token.upos t
  /\ Token.xpos t' = Token.xpos t /\ Token.feats t' = Token.feats t
  /\ Token.head t' = Token.head t /\ Token.deprel t' = Token.deprel t
  /\ Token.misc t' = Token.misc t.

(** The value pass 1 leaves in [root_index]: the token of the last pair
    whose head is ["0"], or the incoming value when there is none. *)
Definition new_root (ps : list (string * string)) (root_index : option string)
  : option string :=
  fold_left (fun r p => if String.eqb (snd p) "0" then Some (fst p) else r)
            ps root_index.

(** The tokens that pass 1 appends, and the children of [r] that pass 2
    appends. *)
Definition tokens_with_head (h : string) (ps : list (string * string))
  : list string :=
  map fst (filter (fun p => String.eqb (snd p) h) ps).

(** ** The text of a file: parsing, decoding, writing

    From here on a token is the dict [parse_sentence] builds, so that lines
    with fewer than ten fields and the [KeyError] of a missing field are
    covered.  A [str] is read as its sequence of characters, each a code
    point that [ascii] can hold. *)

Definition FIELDS : list string :=
  ["id"; "form"; "lemma"; "upos"; "xpos"; "feats"; "head"; "deprel"; "deps";
   "misc"].

Definition newline : ascii := "010"%char.
Definition tab : ascii := "009"%char.

(** [sep.join(l)] *)
Fixpoint join (sep : string) (l : list string) : string :=
  match l with
  | [] => ""
  | x :: rest =>
      match rest with
      | [] => x
      | _ :: _ => (x ++ sep ++ join sep rest)%string
      end
  end.

(** [c.isspace()] for the code points below 256. *)
Definition isspace (c : ascii) : bool :=
  let n := nat_of_ascii c in
  (Nat.leb 9 n && Nat.leb n 13) || (Nat.leb 28 n && Nat.leb n 32)
  || Nat.eqb n 133 || Nat.eqb n 160.

Fixpoint lstrip (s : string) : string :=
  match s with
  | EmptyString => EmptyString
  | String c rest => if isspace c then lstrip rest else s
  end.

Fixpoint rstrip (s : string) : string :=
  match s with
  | EmptyString => EmptyString
  | String c rest =>
      match rstrip rest with
      | EmptyString => if isspace c then EmptyString else String c EmptyString
      | kept => String c kept
      end
  end.

(** [s.strip()] *)
Definition strip (s : string) : string := rstrip (lstrip s).

(** [s.startswith(p)] *)
Definition startswith (p s : string) : bool := String.prefix p s.

(** The test of the list comprehension of [parse_sentence]:
    [line and not line.strip().startswith("#")]. *)
Definition is_token_line (line : string) : bool :=
  negb (String.eqb line "") && negb (startswith "#" (strip line)).

(** [{k: v for k, v in pairs}] *)
Definition dict_of_pairs (kvs : list (string * string)) : dict string :=
  fold_left (fun d kv => dict_set d (fst kv) (snd kv)) kvs [].

Definition parse_sentence (sentence_blob : string) : list (dict string) :=
  let lines :=
    map (split tab) (filter is_token_line (split newline sentence_blob)) in
  map (fun line => dict_of_pairs (combine FIELDS line)) lines.

(** [text.split("\n\n")]: the separators are found from left to right and
    do not overlap. *)
Fixpoint split_blank (text : string) : list string :=
  match text with
  | EmptyString => [EmptyString]
  | String a rest =>
      let plain :=
        match split_blank rest with
        | [] => [String a EmptyString]
        | w :: ws => String a w :: ws
        end in
      match rest with
      | String b rest' =>
          if Ascii.eqb a newline && Ascii.eqb b newline
          then EmptyString :: split_blank rest'
          else plain
      | EmptyString => plain
      end
  end.

(** The sentences the generator yields, in order. *)
Definition lazy_parse (text : string) : list (list (dict string)) :=
  map parse_sentence
      (filter (fun sentence => negb (String.eqb sentence ""))
              (split_blank text)).

(** [row[k]] *)
Definition lookup (row : dict string) (k : string) : Result string :=
  match dict_get row k with
  | Some v => Ok v
  | None => Raise KeyError
  end.

(** [[f(x) for x in xs]], stopping at the first exception. *)
Fixpoint mapM {A B : Type} (f : A -> Result B) (xs : list A)
  : Result (list B) :=
  match xs with
  | [] => Ok []
  | x :: xs' => y <- f x ;; ys <- mapM f xs' ;; Ok (y :: ys)
  end.

(** Lines 126-143 of [_read] on parsed rows, with the four list
    comprehensions in the order of the source. *)
Definition extract_heads_rows (annotated_sentence : list (dict string))
  : Result (dict (list string)) :=
  full_ids <- mapM (fun x => lookup x "id") annotated_sentence ;;
  ids <- clean_ids full_ids ;;
  heads <- mapM (fun x => lookup x "head") annotated_sentence ;;
  deprels <- mapM (fun x => lookup x "deprel") annotated_sentence ;;
  deps <- mapM (fun x => lookup x "deps") annotated_sentence ;;
  enhanced_heads <- clean_eheads (convert_deps_to_nested_list deps) ;;
  if Nat.eqb (length ids) (length enhanced_heads)
  then fill_heads ids enhanced_heads (empty_heads ids)
  else Raise AssertionError.

(** Lines 147-234 of [_read]: everything between the HeadMap and the
    pruned tree. *)
Definition analyse_heads (root_index : option string)
    (m : dict (list string)) : Result Analysis :=
  init <- root_and_children m root_index ;;
  let nodes := search_dependents m (snd init) in
  let unreachable := find_unreachable m nodes in
  empty_fragments <- init_fragments m unreachable ;;
  fragments <- fill_fragments m unreachable empty_fragments ;;
  survivors <- collapse fragments (keys fragments) ;;
  Ok (mkAnalysis m (fst init) (snd init) nodes unreachable fragments survivors
                 (populate_pruned fragments survivors)).

(** Lines 236-243 on parsed rows. *)
Definition add_root_edges_rows (pruned_tree : dict (list string))
    (annotated_sentence : list (dict string)) : Result (list (dict string)) :=
  mapM (fun row =>
          conllu_id <- lookup row "id" ;;
          if mem conllu_id (keys pruned_tree)
          then deps_object <- lookup row "deps" ;;
               Ok (dict_set row "deps" (deps_object ++ "|" ++ root_edge)%string)
          else Ok row)
       annotated_sentence.

Definition repair_rows (root_index : option string)
    (annotated_sentence : list (dict string))
  : Result (option string * list (dict string)) :=
  m <- extract_heads_rows annotated_sentence ;;
  a <- analyse_heads root_index m ;;
  repaired <- add_root_edges_rows a.(pruned_tree) annotated_sentence ;;
  Ok (a.(new_root_index), repaired).

Fixpoint read_rows_from (root_index : option string)
    (sentences : list (list (dict string)))
  : Result (list (list (dict string))) :=
  match sentences with
  | [] => Ok []
  | annotated_sentence :: rest =>
      r <- repair_rows root_index annotated_sentence ;;
      conllu_annotations <- read_rows_from (fst r) rest ;;
      Ok (snd r :: conllu_annotations)
  end.

(** [_read] on the text [sdp_file.read()] returns. *)
Definition read_text (text : string) : Result (list (list (dict string))) :=
  read_rows_from None (lazy_parse text).

Definition decode_conllu_output
    (conllu_annotations : list (list (dict string)))
  : Result (list (list string)) :=
  mapM (fun sentence_blob =>
          mapM (fun conllu_row =>
                  lines <- mapM (lookup conllu_row) FIELDS ;;
                  Ok (join (String tab "") lines))
               sentence_blob)
       conllu_annotations.

(** What [write_conllu_output] writes to the output file. *)
Definition written (decoded_conllu_annotations : list (list string))
  : string :=
  String.concat ""
    (map (fun sentence_blob =>
            (String.concat ""
               (map (fun sentence => (sentence ++ String newline "")%string)
                    sentence_blob)
             ++ String newline "")%string)
         decoded_conllu_annotations).

(** The name [write_conllu_output] gives the output file, from the base
    name of the input file. *)
Definition out_file_string (in_name : string) : string :=
  let file_string := hd "" (split "."%char in_name) in
  let tbid := hd "" (split "-"%char file_string) in
  let file_type := last (split "-"%char file_string) "" in
  (tbid ++ "-ud-" ++ file_type ++ ".conllu")%string.

Definition carriage_return : ascii := "013"%char.

(** [open(file_path)] opens the input in text mode with universal
    newlines: of the characters of the file, a carriage return followed
    by a newline and a carriage return alone both come out of [read()] as
    one newline.  ([codecs.open] writes the output in binary mode, so
    [written] is the output character by character.) *)
Fixpoint universal_newlines (content : string) : string :=
  match content with
  | EmptyString => EmptyString
  | String a rest =>
      if Ascii.eqb a carriage_return
      then match rest with
           | String b rest' =>
               if Ascii.eqb b newline
               then String newline (universal_newlines rest')
               else String newline (universal_newlines rest)
           | EmptyString => String newline EmptyString
           end
      else String a (universal_newlines rest)
  end.

(** The script: read and repair, decode, write.  [content] is the
    characters of the input file as they are decoded, before the
    translation of line ends; the result is the content of the output
    file.  Nothing is written when an exception is raised, since the file
    is opened after decoding. *)
Definition main (content : string) : Result string :=
  conllu_annotations <- read_text (universal_newlines content) ;;
  decoded_conllu_annotations <- decode_conllu_output conllu_annotations ;;
  Ok (written decoded_conllu_annotations).

(** The dict a line with the ten fields of [t] parses to. *)
Definition token_dict (t : Token.t) : dict string :=
  [("id", Token.id t); ("form", Token.form t); ("lemma", Token.lemma t);
   ("upos", Token.upos t); ("xpos", Token.xpos t); ("feats", Token.feats t);
   ("head", Token.head t); ("deprel", Token.deprel t);
   ("deps", Token.deps t); ("misc", Token.misc t)].

(** The ten fields of [t], and the line they are written as. *)
Definition token_fields (t : Token.t) : list string :=
  [Token.id t; Token.form t; Token.lemma t; Token.upos t; Token.xpos t;
   Token.feats t; Token.head t; Token.deprel t; Token.deps t; Token.misc t].

Definition token_line (t : Token.t) : string :=
  join (String tab "") (token_fields t).

(** [w] in front of the first block. *)
Definition prepend (w : string) (blocks : list string) : list string :=
  match blocks with
  | [] => [w]
  | b :: bs => (w ++ b)%string :: bs
  end.

(** A token whose fields hold no tab and no newline and whose line is a
    token line: it is written and read back as it is. *)
Definition plain_token (t : Token.t) : Prop :=
  Forall (fun field => contains_char tab field = false
                       /\ contains_char newline field = false)
         (token_fields t)
  /\ is_token_line (token_line t) = true.

(** A file of one sentence whose only token line lacks the last field. *)
Definition ex_nine_fields : string :=
  written [[join (String tab "")
                 ["1"; "w"; "w"; "X"; "_"; "_"; "0"; "root"; "0:root"]]].

(** Two tokens headed by ROOT, each with a child. *)
Definition ex_two_roots : Sentence :=
  [tok "1" "0:root"; tok "2" "1:nsubj"; tok "3" "0:root"; tok "4" "3:obj"].

(** * Proofs *)

Unset Implicit Arguments.

(** ** The definitions on concrete values *)

(** The example of the docstring of [convert_deps_to_nested_list]. *)
Example convert_deps_docstring :
  convert_deps_to_nested_list ["13:nsubj|19:nsubj:enh|20:nsubj:enh"; "_"]
  = [["13"; "19"; "20"]; ["_"]].
Proof. reflexivity. Qed.

Example split_empty : split "|" "" = [""].
Proof. reflexivity. Qed.

(** Deleting while enumerating steps over the element after a deleted
    one. *)
Example clean_ids_adjacent :
  clean_ids ["1-2"; "3-4"; "1"] = Ok ["3-4"; "1"].
Proof. reflexivity. Qed.

Example clean_eheads_adjacent :
  clean_eheads [["_"]; ["_"]; ["0"]] = Ok [["_"]; ["0"]].
Proof. reflexivity. Qed.

(** Example 1 of the specification: nothing to repair. *)
Example read_ex_chain : _read [ex_chain] = Ok [ex_chain].
Proof. reflexivity. Qed.

(** A key that is a child in two fragments deletes past the end of the
    list of keys. *)
Example collapse_index_error :
  analyse None [tok "1" "0:root"; tok "2" "1:a"; tok "3" "5:b|6:c";
                tok "4" "3:d"]
  = Raise IndexError.
Proof. reflexivity. Qed.

(** ** Lists, strings and folds *)

Lemma mem_In : forall x l, mem x l = true <-> In x l.
Proof.
  intros x l. unfold mem. rewrite existsb_exists. split.
  - intros [y [Hy Heq]]. apply String.eqb_eq in Heq. now subst.
  - intros H. exists x. split; [assumption | apply String.eqb_refl].
Qed.

Lemma mem_false : forall x l, mem x l = false <-> ~ In x l.
Proof.
  intros x l. rewrite <- mem_In. destruct (mem x l); split; congruence.
Qed.

Lemma fold_left_pairs :
  forall (S : Type) (f : S -> string -> string -> S)
         (d : dict (list string)) (st : S),
    fold_left (fun st e => fold_left (fun st h => f st (fst e) h) (snd e) st)
              d st
    = fold_left (fun st p => f st (fst p) (snd p)) (pairs d) st.
Proof.
  intros S f d. induction d as [| [k hs] d IH]; intros st; simpl.
  - reflexivity.
  - unfold pairs in *. simpl. rewrite fold_left_app, IH. f_equal.
    clear IH. revert st. induction hs as [| h hs IHh]; intros st; simpl.
    + reflexivity.
    + apply IHh.
Qed.

Lemma foldM_app :
  forall (A S : Type) (body : S -> A -> Result S) (xs ys : list A) (st : S),
    foldM body (xs ++ ys) st = st' <- foldM body xs st ;; foldM body ys st'.
Proof.
  intros A S body xs. induction xs as [| x xs IH]; intros ys st; simpl.
  - reflexivity.
  - destruct (body st x); simpl; [apply IH | reflexivity].
Qed.

Lemma foldM_pairs :
  forall (S : Type) (f : S -> string -> string -> Result S)
         (d : dict (list string)) (st : S),
    foldM (fun st e => foldM (fun st h => f st (fst e) h) (snd e) st) d st
    = foldM (fun st p => f st (fst p) (snd p)) (pairs d) st.
Proof.
  intros S f d. induction d as [| [k hs] d IH]; intros st; simpl.
  - reflexivity.
  - unfold pairs in *. simpl. rewrite foldM_app.
    assert (E : forall st0,
               foldM (fun st1 h => f st1 k h) hs st0
               = foldM (fun st1 p => f st1 (fst p) (snd p))
                       (map (pair k) hs) st0).
    { clear. induction hs as [| h hs IHh]; intros st0; simpl.
      - reflexivity.
      - destruct (f st0 k h); simpl; [apply IHh | reflexivity]. }
    rewrite E. destruct (foldM _ (map (pair k) hs) st); simpl.
    + apply IH.
    + reflexivity.
Qed.

(** An exception of a loop is an exception of its body. *)
Lemma foldM_raise :
  forall (A S : Type) (body : S -> A -> Result S) (P : PyError -> Prop),
    (forall st x e, body st x = Raise e -> P e) ->
    forall xs st e, foldM body xs st = Raise e -> P e.
Proof.
  intros A S body P Hbody xs. induction xs as [| x xs IH]; intros st e; simpl.
  - discriminate.
  - destruct (body st x) eqn:Hb; simpl.
    + apply IH.
    + intros H. inversion H; subst. eapply Hbody; eassumption.
Qed.

Lemma in_pairs : forall (d : dict (list string)) t h,
    In (t, h) (pairs d) <-> exists hs, In (t, hs) d /\ In h hs.
Proof.
  intros d t h. unfold pairs. rewrite in_flat_map. split.
  - intros [[k hs] [Hin Hp]]. simpl in Hp. apply in_map_iff in Hp.
    destruct Hp as [h' [Heq Hh]]. inversion Heq; subst. now exists hs.
  - intros [hs [Hin Hh]]. exists (t, hs). split; [assumption |].
    simpl. now apply in_map.
Qed.

(** ** One sweep of [traverse_root_children] *)

Lemma traverse_root_children_pairs : forall m nodes keep,
    fst (traverse_root_children m nodes keep) = sweep_pairs (pairs m) nodes.
Proof.
  intros m nodes keep. unfold traverse_root_children, sweep_pairs. simpl.
  apply (fold_left_pairs _ (fun nodes t h => visit nodes t h)).
Qed.

Lemma traverse_root_children_flag : forall m nodes,
    snd (traverse_root_children m nodes true)
    = negb (Nat.eqb (length nodes) (length (sweep_pairs (pairs m) nodes))).
Proof.
  intros m nodes. rewrite <- (traverse_root_children_pairs m nodes true).
  unfold traverse_root_children. simpl.
  destruct (Nat.eqb _ _); reflexivity.
Qed.

Lemma visit_cases : forall nodes t h,
    (visit nodes t h = nodes /\ (In h nodes -> In t nodes))
    \/ (visit nodes t h = nodes ++ [t] /\ In h nodes /\ ~ In t nodes).
Proof.
  intros nodes t h. unfold visit.
  destruct (mem h nodes) eqn:Hh.
  - destruct (mem t nodes) eqn:Ht; simpl.
    + left. split; [reflexivity |]. intros _. now apply mem_In.
    + right. repeat split.
      * now apply mem_In.
      * now apply mem_false.
  - left. split; [reflexivity |]. intros H. apply mem_In in H. congruence.
Qed.


(** A sweep appends: members keep their positions. *)
Lemma sweep_pairs_extends : forall qs nodes,
    exists added, sweep_pairs qs nodes = nodes ++ added.
Proof.
  induction qs as [| [t h] qs IH]; intros nodes; simpl.
  - exists []. now rewrite app_nil_r.
  - destruct (visit_cases nodes t h) as [[E _] | [E _]];
      unfold sweep_pairs in *; simpl; rewrite E.
    + apply IH.
    + destruct (IH (nodes ++ [t])) as [added Ha]. exists (t :: added).
      rewrite Ha, <- app_assoc. reflexivity.
Qed.

Lemma sweep_pairs_length : forall qs nodes,
    length nodes <= length (sweep_pairs qs nodes).
Proof.
  intros qs nodes. destruct (sweep_pairs_extends qs nodes) as [added E].
  rewrite E, length_app. lia.
Qed.

Lemma sweep_pairs_incl : forall qs nodes x,
    In x nodes -> In x (sweep_pairs qs nodes).
Proof.
  intros qs nodes x H. destruct (sweep_pairs_extends qs nodes) as [added E].
  rewrite E. apply in_or_app. now left.
Qed.

(** A sweep that leaves the length alone has appended nothing, and then
    no pair has its head inside and its token outside. *)
Lemma sweep_pairs_stable : forall qs nodes,
    length (sweep_pairs qs nodes) = length nodes ->
    sweep_pairs qs nodes = nodes
    /\ forall t h, In (t, h) qs -> In h nodes -> In t nodes.
Proof.
  induction qs as [| [t h] qs IH]; intros nodes Hlen.
  - split; [reflexivity | intros t h []].
  - unfold sweep_pairs in *. simpl in *.
    destruct (visit_cases nodes t h) as [[E Hcl] | [E _]]; rewrite E in *.
    + destruct (IH nodes Hlen) as [Hfix Hqs]. split; [assumption |].
      intros t' h' [Heq | Hin].
      * inversion Heq; subst. assumption.
      * now apply Hqs.
    + pose proof (sweep_pairs_length qs (nodes ++ [t])) as Hle.
      unfold sweep_pairs in Hle. rewrite length_app in Hle. simpl in Hle.
      lia.
Qed.

(** A sweep that changes the length has appended a token of some pair
    that was not a member before. *)
Lemma sweep_pairs_progress : forall qs nodes,
    length (sweep_pairs qs nodes) <> length nodes ->
    exists t h, In (t, h) qs /\ ~ In t nodes /\ In t (sweep_pairs qs nodes).
Proof.
  induction qs as [| [t h] qs IH]; intros nodes Hlen.
  - now contradiction Hlen.
  - unfold sweep_pairs in *. simpl in *.
    destruct (visit_cases nodes t h) as [[E _] | [E [_ Hnot]]];
      rewrite E in *.
    + destruct (IH nodes Hlen) as [t' [h' [Hin [Hn Hm]]]].
      exists t', h'. repeat split; auto.
    + exists t, h. repeat split; auto.
      apply (sweep_pairs_incl qs). apply in_or_app. right. now left.
Qed.

(** Every member after a sweep satisfies any property of the members
    before it that passes from the head of a pair to its token. *)
Lemma sweep_pairs_preserves : forall (P : string -> Prop) qs nodes,
    (forall t h, In (t, h) qs -> P h -> P t) ->
    (forall x, In x nodes -> P x) ->
    forall x, In x (sweep_pairs qs nodes) -> P x.
Proof.
  intros P. induction qs as [| [t h] qs IH]; intros nodes Hstep Hnodes x.
  - simpl. apply Hnodes.
  - unfold sweep_pairs in *. simpl.
    apply IH.
    + intros t' h' Hin. apply Hstep. now right.
    + intros y Hy.
      destruct (visit_cases nodes t h) as [[E _] | [E [Hh _]]];
        rewrite E in Hy.
      * now apply Hnodes.
      * apply in_app_or in Hy. destruct Hy as [Hy | [Hy | []]].
        -- now apply Hnodes.
        -- subst y. apply (Hstep t h); [now left | now apply Hnodes].
Qed.

(** ** The measure of the [while] loop *)

Lemma unreached_le_length : forall m nodes, unreached m nodes <= length m.
Proof. intros m nodes. unfold unreached. apply filter_length_le. Qed.

Lemma unreached_mono : forall m nodes nodes',
    (forall x, In x nodes -> In x nodes') ->
    unreached m nodes' <= unreached m nodes.
Proof.
  intros m nodes nodes' Hincl. unfold unreached.
  induction m as [| [k hs] m IH]; simpl; [lia |].
  destruct (mem k nodes') eqn:H'; destruct (mem k nodes) eqn:H; simpl;
    try lia.
  apply mem_In in H. apply Hincl in H. apply mem_In in H. congruence.
Qed.

Lemma unreached_decreases : forall m nodes nodes' t hs,
    (forall x, In x nodes -> In x nodes') ->
    In (t, hs) m -> ~ In t nodes -> In t nodes' ->
    unreached m nodes' < unreached m nodes.
Proof.
  intros m nodes nodes' t hs Hincl. unfold unreached.
  induction m as [| [k hs'] m IH]; simpl; intros Hin Hn Hy; [contradiction |].
  pose proof (unreached_mono m nodes nodes' Hincl) as Hmono.
  unfold unreached in Hmono.
  destruct Hin as [Heq | Hin].
  - inversion Heq; subst.
    apply mem_In in Hy. apply mem_false in Hn. rewrite Hy, Hn. simpl. lia.
  - specialize (IH Hin Hn Hy).
    destruct (mem k nodes') eqn:H'; destruct (mem k nodes) eqn:H; simpl;
      try lia.
    apply mem_In in H. apply Hincl in H. apply mem_In in H. congruence.
Qed.

Lemma unreached_nonempty : forall m nodes t hs,
    In (t, hs) m -> In t nodes -> unreached m nodes < length m.
Proof.
  intros m nodes t hs. unfold unreached.
  induction m as [| [k hs'] m IH]; simpl; intros Hin Ht; [contradiction |].
  pose proof (filter_length_le (fun e => negb (mem (fst e) nodes)) m) as Hle.
  destruct Hin as [Heq | Hin].
  - inversion Heq; subst. apply mem_In in Ht. rewrite Ht. simpl. lia.
  - specialize (IH Hin Ht). destruct (mem k nodes); simpl; lia.
Qed.

(** ** The [while] loop *)

Lemma search_loop_unfold : forall fuel m nodes,
    search_loop (S fuel) m nodes
    = let nodes' := sweep_pairs (pairs m) nodes in
      if Nat.eqb (length nodes) (length nodes')
      then Some (nodes', 1)
      else match search_loop fuel m nodes' with
           | Some (final, sweeps) => Some (final, S sweeps)
           | None => None
           end.
Proof.
  intros fuel m nodes. cbn [search_loop].
  pose proof (traverse_root_children_pairs m nodes true) as Hfst.
  pose proof (traverse_root_children_flag m nodes) as Hsnd.
  destruct (traverse_root_children m nodes true) as [nodes' keep].
  cbn [fst snd] in Hfst, Hsnd. subst nodes' keep. cbv zeta.
  destruct (Nat.eqb _ _); reflexivity.
Qed.

(** With more fuel than unreached entries the loop ends, after at most one
    sweep more than there were unreached entries. *)
Lemma search_loop_bounded : forall fuel m nodes,
    unreached m nodes < fuel ->
    exists final sweeps,
      search_loop fuel m nodes = Some (final, sweeps)
      /\ 1 <= sweeps <= S (unreached m nodes).
Proof.
  induction fuel as [| fuel IH]; intros m nodes Hfuel; [lia |].
  rewrite search_loop_unfold. cbv zeta.
  destruct (Nat.eqb _ _) eqn:Hlen.
  - eexists. exists 1. split; [reflexivity | lia].
  - apply Nat.eqb_neq in Hlen.
    destruct (sweep_pairs_progress (pairs m) nodes) as [t [h [Hin [Hn Hy]]]];
      [congruence |].
    apply in_pairs in Hin. destruct Hin as [hs [Hin _]].
    pose proof (unreached_decreases m nodes (sweep_pairs (pairs m) nodes) t
                  hs (sweep_pairs_incl (pairs m) nodes) Hin Hn Hy) as Hdec.
    destruct (IH m (sweep_pairs (pairs m) nodes)) as [final [k [E Hk]]];
      [lia |].
    rewrite E. exists final, (S k). split; [reflexivity | lia].
Qed.

Lemma search_loop_fuel : forall fuel m nodes r,
    search_loop fuel m nodes = Some r ->
    forall extra, search_loop (fuel + extra) m nodes = Some r.
Proof.
  induction fuel as [| fuel IH]; intros m nodes r H extra; [discriminate |].
  replace (S fuel + extra) with (S (fuel + extra)) by lia.
  rewrite search_loop_unfold in *. cbv zeta in *.
  destruct (Nat.eqb _ _); [assumption |].
  destruct (search_loop fuel m _) as [[final k] |] eqn:E; [| discriminate].
  now rewrite (IH _ _ _ E extra).
Qed.

(** What the loop leaves behind: an extension of the list it started from
    that one more sweep does not change. *)
Lemma search_loop_result : forall fuel m nodes final sweeps,
    search_loop fuel m nodes = Some (final, sweeps) ->
    (exists added, final = nodes ++ added)
    /\ sweep_pairs (pairs m) final = final
    /\ (forall P : string -> Prop,
           (forall t h, In (t, h) (pairs m) -> P h -> P t) ->
           (forall x, In x nodes -> P x) ->
           forall x, In x final -> P x).
Proof.
  induction fuel as [| fuel IH]; intros m nodes final sweeps H;
    [discriminate |].
  rewrite search_loop_unfold in H. cbv zeta in H.
  destruct (Nat.eqb _ _) eqn:Hlen.
  - inversion H; subst. apply Nat.eqb_eq in Hlen.
    destruct (sweep_pairs_stable (pairs m) nodes) as [Hfix _];
      [congruence |].
    rewrite Hfix. repeat split.
    + exists []. now rewrite app_nil_r.
    + assumption.
    + auto.
  - destruct (search_loop fuel m _) as [[final' k] |] eqn:E;
      [| discriminate].
    inversion H; subst.
    destruct (IH _ _ _ _ E) as [[added Hadd] [Hfix Hpres]].
    destruct (sweep_pairs_extends (pairs m) nodes) as [added0 Hadd0].
    repeat split.
    + exists (added0 ++ added). rewrite Hadd, Hadd0, app_assoc. reflexivity.
    + assumption.
    + intros P Hstep Hnodes. apply Hpres; [assumption |].
      now apply sweep_pairs_preserves.
Qed.

Lemma search_loop_terminates : forall m nodes,
    exists sweeps,
      search_loop (S (length m)) m nodes
      = Some (search_dependents m nodes, sweeps)
      /\ 1 <= sweeps <= S (unreached m nodes).
Proof.
  intros m nodes. pose proof (unreached_le_length m nodes) as Hle.
  destruct (search_loop_bounded (S (length m)) m nodes) as [final [k [E Hk]]];
    [lia |].
  exists k. unfold search_dependents. rewrite E. now split.
Qed.

(** The final list is closed: a token with a head in it is in it. *)
Lemma search_dependents_closed : forall m nodes t h,
    In (t, h) (pairs m) ->
    In h (search_dependents m nodes) -> In t (search_dependents m nodes).
Proof.
  intros m nodes t h. destruct (search_loop_terminates m nodes) as [k [E _]].
  destruct (search_loop_result _ _ _ _ _ E) as [_ [Hfix _]].
  destruct (sweep_pairs_stable (pairs m) (search_dependents m nodes))
    as [_ Hcl]; [now rewrite Hfix |].
  apply Hcl.
Qed.

Lemma search_dependents_reach : forall m nodes x,
    In x (search_dependents m nodes) <-> reach (pairs m) nodes x.
Proof.
  intros m nodes x. destruct (search_loop_terminates m nodes) as [k [E _]].
  destruct (search_loop_result _ _ _ _ _ E) as [[added Hadd] [_ Hpres]].
  split.
  - apply Hpres.
    + intros t h Hin Hh. now apply reach_step with h.
    + intros y Hy. now apply reach_init.
  - induction 1 as [y Hy | t h Hin _ IH].
    + rewrite Hadd. apply in_or_app. now left.
    + now apply search_dependents_closed with h.
Qed.

(** ** The two initialisation passes *)

Lemma in_tokens_with_head : forall h ps x,
    In x (tokens_with_head h ps) <-> In (x, h) ps.
Proof.
  intros h ps x. unfold tokens_with_head. rewrite in_map_iff. split.
  - intros [[t h'] [Heq Hin]]. apply filter_In in Hin. simpl in *.
    destruct Hin as [Hin Hh]. apply String.eqb_eq in Hh. now subst.
  - intros Hin. exists (x, h). split; [reflexivity |].
    apply filter_In. split; [assumption | apply String.eqb_refl].
Qed.

Lemma find_root_spec : forall m root_index nodes,
    find_root m root_index nodes
    = (new_root (pairs m) root_index,
       nodes ++ tokens_with_head "0" (pairs m)).
Proof.
  intros m root_index nodes. unfold find_root.
  rewrite (fold_left_pairs _
             (fun st t h => if String.eqb h "0"
                            then (Some t, snd st ++ [t]) else st)).
  unfold new_root, tokens_with_head.
  generalize (pairs m) as ps. intros ps. revert root_index nodes.
  induction ps as [| [t h] ps IH]; intros root_index nodes; simpl.
  - now rewrite app_nil_r.
  - destruct (String.eqb h "0"); simpl.
    + rewrite IH, <- app_assoc. reflexivity.
    + apply IH.
Qed.

Lemma find_root_children_some : forall m r nodes,
    find_root_children m (Some r) nodes
    = Ok (nodes ++ tokens_with_head r (pairs m)).
Proof.
  intros m r nodes. unfold find_root_children.
  rewrite (foldM_pairs _
             (fun nodes t h => if String.eqb h r then Ok (nodes ++ [t])
                               else Ok nodes)).
  unfold tokens_with_head. generalize (pairs m) as ps. intros ps.
  revert nodes. induction ps as [| [t h] ps IH]; intros nodes; simpl.
  - now rewrite app_nil_r.
  - destruct (String.eqb h r); simpl.
    + rewrite IH, <- app_assoc. reflexivity.
    + apply IH.
Qed.

Lemma find_root_children_none : forall m nodes,
    find_root_children m None nodes
    = match pairs m with
      | [] => Ok nodes
      | _ :: _ => Raise NameError
      end.
Proof.
  intros m nodes. unfold find_root_children.
  rewrite (foldM_pairs _ (fun _ _ _ => Raise NameError)).
  destruct (pairs m); reflexivity.
Qed.

Lemma new_root_without_root : forall ps root_index,
    (forall t, ~ In (t, "0") ps) -> new_root ps root_index = root_index.
Proof.
  unfold new_root. induction ps as [| [t h] ps IH]; intros root_index Hno;
    simpl; [reflexivity |].
  destruct (String.eqb h "0") eqn:Hh.
  - apply String.eqb_eq in Hh. subst h. exfalso. apply (Hno t). now left.
  - apply IH. intros t' Hin. apply (Hno t'). now right.
Qed.

Lemma new_root_cases : forall ps root_index,
    new_root ps root_index = root_index
    \/ exists r, new_root ps root_index = Some r /\ In (r, "0") ps.
Proof.
  unfold new_root. induction ps as [| [t h] ps IH]; intros root_index; simpl.
  - now left.
  - destruct (String.eqb h "0") eqn:Hh.
    + right. apply String.eqb_eq in Hh. subst h.
      destruct (IH (Some t)) as [E | [r [E Hin]]].
      * exists t. split; [assumption | now left].
      * exists r. split; [assumption | now right].
    + destruct (IH root_index) as [E | [r [E Hin]]].
      * now left.
      * right. exists r. split; [assumption | now right].
Qed.

Lemma new_root_with_root : forall ps root_index t,
    In (t, "0") ps ->
    exists r, new_root ps root_index = Some r /\ In (r, "0") ps.
Proof.
  unfold new_root. induction ps as [| [t' h] ps IH]; intros root_index t Hin;
    simpl; [contradiction |].
  destruct Hin as [Heq | Hin].
  - inversion Heq; subst. simpl.
    destruct (new_root_cases ps (Some t)) as [E | [r [E Hr]]];
      unfold new_root in E.
    + exists t. split; [assumption | now left].
    + exists r. split; [assumption | now right].
  - destruct (IH (if String.eqb h "0" then Some t' else root_index) t Hin)
      as [r [E Hr]].
    exists r. split; [assumption | now right].
Qed.

(** The outcome of the two passes, by the value pass 1 leaves in
    [root_index]. *)
Lemma root_and_children_spec : forall m root_index,
    root_and_children m root_index
    = match new_root (pairs m) root_index with
      | Some r =>
          Ok (Some r,
              tokens_with_head "0" (pairs m) ++ tokens_with_head r (pairs m))
      | None =>
          match pairs m with
          | [] => Ok (None, [])
          | _ :: _ => Raise NameError
          end
      end.
Proof.
  intros m root_index. unfold root_and_children.
  rewrite find_root_spec. simpl.
  destruct (new_root (pairs m) root_index) as [r |] eqn:Hr.
  - rewrite find_root_children_some. reflexivity.
  - rewrite find_root_children_none.
    destruct (pairs m) eqn:Hps; reflexivity.
Qed.

(** Every initial member is the token of some HeadMap entry. *)
Lemma root_and_children_keys : forall m root_index init x,
    root_and_children m root_index = Ok init ->
    In x (snd init) -> exists hs, In (x, hs) m.
Proof.
  intros m root_index init x. rewrite root_and_children_spec.
  destruct (new_root (pairs m) root_index) as [r |].
  - intros H Hx. inversion H; subst. simpl in Hx.
    apply in_app_or in Hx.
    destruct Hx as [Hx | Hx]; apply in_tokens_with_head, in_pairs in Hx;
      destruct Hx as [hs [Hin _]]; now exists hs.
  - destruct (pairs m); [| discriminate].
    intros H Hx. inversion H; subst. contradiction.
Qed.

Lemma sweep_pairs_nil : forall ps, sweep_pairs ps [] = [].
Proof.
  unfold sweep_pairs. induction ps as [| [t h] ps IH]; simpl;
    [reflexivity | assumption].
Qed.

(** ** Reachability as a closure *)

Lemma reach_mono : forall ps ps' init init' x,
    (forall p, In p ps -> In p ps') ->
    (forall y, In y init -> reach ps' init' y) ->
    reach ps init x -> reach ps' init' x.
Proof.
  intros ps ps' init init' x Hps Hinit. induction 1 as [y Hy | t h Hin _ IH].
  - now apply Hinit.
  - apply reach_step with h; [now apply Hps | assumption].
Qed.

(** The children of a token headed by ROOT add nothing to the closure of
    the tokens headed by ROOT. *)
Lemma reach_root_children : forall ps r x,
    In (r, "0") ps ->
    reach ps (tokens_with_head "0" ps ++ tokens_with_head r ps) x
    <-> reach ps (tokens_with_head "0" ps) x.
Proof.
  intros ps r x Hr. split; apply reach_mono; auto.
  - intros y Hy. apply in_app_or in Hy. destruct Hy as [Hy | Hy].
    + now apply reach_init.
    + apply in_tokens_with_head in Hy. apply reach_step with r; [assumption |].
      apply reach_init. now apply in_tokens_with_head.
  - intros y Hy. apply reach_init. apply in_or_app. now left.
Qed.

Lemma reach_permutation : forall ps ps' h x,
    Permutation ps ps' ->
    reach ps (tokens_with_head h ps) x -> reach ps' (tokens_with_head h ps') x.
Proof.
  intros ps ps' h x Hperm. apply reach_mono.
  - intros p. now apply Permutation_in.
  - intros y Hy. apply reach_init. apply in_tokens_with_head.
    apply in_tokens_with_head in Hy. now apply Permutation_in with ps.
Qed.

(** The members of the final list when some token is headed by ROOT. *)
Lemma reachability_with_root : forall m root_index t,
    In (t, "0") (pairs m) ->
    exists r,
      reachability m root_index
      = Ok (Some r,
            search_dependents m
              (tokens_with_head "0" (pairs m) ++ tokens_with_head r (pairs m)))
      /\ In (r, "0") (pairs m)
      /\ forall x,
          In x (search_dependents m
                  (tokens_with_head "0" (pairs m)
                   ++ tokens_with_head r (pairs m)))
          <-> reach (pairs m) (tokens_with_head "0" (pairs m)) x.
Proof.
  intros m root_index t Ht.
  destruct (new_root_with_root (pairs m) root_index t Ht) as [r [E Hr]].
  exists r. unfold reachability. rewrite root_and_children_spec, E. simpl.
  repeat split; try assumption.
  - intros Hx. apply search_dependents_reach in Hx.
    now apply reach_root_children in Hx.
  - intros Hx. apply search_dependents_reach.
    now apply reach_root_children.
Qed.

(** The outcome when no token is headed by ROOT: the incoming
    [root_index] decides. *)
Lemma reachability_without_root : forall m root_index,
    (forall t, ~ In (t, "0") (pairs m)) ->
    reachability m root_index
    = match root_index with
      | Some r =>
          Ok (Some r, search_dependents m ([] ++ tokens_with_head r (pairs m)))
      | None =>
          match pairs m with
          | [] => Ok (None, search_dependents m [])
          | _ :: _ => Raise NameError
          end
      end.
Proof.
  intros m root_index Hno. unfold reachability.
  rewrite root_and_children_spec, (new_root_without_root _ _ Hno).
  assert (E : tokens_with_head "0" (pairs m) = []).
  { destruct (tokens_with_head "0" (pairs m)) as [| y l] eqn:Hy;
      [reflexivity |].
    exfalso. apply (Hno y). apply in_tokens_with_head. rewrite Hy. now left. }
  rewrite E. destruct root_index as [r |]; [reflexivity |].
  destruct (pairs m); reflexivity.
Qed.

(** C7. The members of the final [nodes_reachable_from_root] do not depend
    on the order in which the (token, head) pairs of the HeadMap are
    visited: two HeadMaps whose pairs are permutations of each other,
    processed from the same incoming [root_index], either both raise the
    same exception or both end with lists that have the same members, even
    though pass 1 may leave different values in [root_index]. *)
Theorem reachable_set_order_independent : forall m m' root_index,
    Permutation (pairs m) (pairs m') ->
    match reachability m root_index, reachability m' root_index with
    | Ok r, Ok r' => forall x, In x (snd r) <-> In x (snd r')
    | Raise e, Raise e' => e = e'
    | _, _ => False
    end.
Proof.
  intros m m' root_index Hperm.
  assert (Hperm' : Permutation (pairs m') (pairs m))
    by now apply Permutation_sym.
  destruct (tokens_with_head "0" (pairs m)) as [| t l] eqn:Hroots.
  - assert (Hno : forall t, ~ In (t, "0") (pairs m)).
    { intros t Ht. apply in_tokens_with_head in Ht. rewrite Hroots in Ht.
      contradiction. }
    assert (Hno' : forall t, ~ In (t, "0") (pairs m')).
    { intros t Ht. apply (Hno t). now apply Permutation_in with (pairs m'). }
    rewrite (reachability_without_root m root_index Hno),
      (reachability_without_root m' root_index Hno').
    destruct root_index as [r |].
    + simpl. intros x. rewrite !search_dependents_reach.
      split; now apply reach_permutation.
    + destruct (pairs m) as [| p ps] eqn:Hps;
        destruct (pairs m') as [| p' ps'] eqn:Hps'.
      * simpl. intros x. rewrite !search_dependents_reach, Hps, Hps'.
        tauto.
      * now apply Permutation_nil_cons in Hperm.
      * now apply Permutation_nil_cons in Hperm'.
      * reflexivity.
  - assert (Ht : In (t, "0") (pairs m)).
    { apply in_tokens_with_head. rewrite Hroots. now left. }
    assert (Ht' : In (t, "0") (pairs m'))
      by now apply Permutation_in with (pairs m).
    destruct (reachability_with_root m root_index t Ht) as [r [E [_ H]]].
    destruct (reachability_with_root m' root_index t Ht') as [r' [E' [_ H']]].
    rewrite E, E'. simpl. intros x. rewrite H, H'.
    split; now apply reach_permutation.
Qed.

(** Two roots visited in opposite orders: [root_index] ends as "2" in one
    run and as "1" in the other, the members agree. *)
Lemma reachable_set_order_independent_witness :
  reachability [("1", ["0"]); ("2", ["0"]); ("3", ["1"])] None
  = Ok (Some "2", ["1"; "2"; "3"])
  /\ reachability [("3", ["1"]); ("2", ["0"]); ("1", ["0"])] None
     = Ok (Some "1", ["2"; "1"; "3"])
  /\ forall x, In x ["1"; "2"; "3"] <-> In x ["2"; "1"; "3"].
Proof.
  split; [reflexivity |]. split; [reflexivity |].
  exact (reachable_set_order_independent
           [("1", ["0"]); ("2", ["0"]); ("3", ["1"])]
           [("3", ["1"]); ("2", ["0"]); ("1", ["0"])]
           None
           (Permutation_rev [("1", "0"); ("2", "0"); ("3", "1")])).
Defined.

(** C5. A sweep of [traverse_root_children] only appends to
    [nodes_reachable_from_root], so through the [while] loop the list
    keeps every member at its position; the loop ends with the first sweep
    that appends nothing, and in the list it leaves every token of the
    HeadMap that has a head in the list is itself in the list. *)
Theorem reachable_set_grows_to_closure : forall m nodes,
    (exists added,
        fst (traverse_root_children m nodes true) = nodes ++ added)
    /\ (exists added sweeps,
           search_loop (S (length m)) m nodes = Some (nodes ++ added, sweeps)
           /\ search_dependents m nodes = nodes ++ added)
    /\ traverse_root_children m (search_dependents m nodes) true
       = (search_dependents m nodes, false)
    /\ (forall token_id heads head,
           In (token_id, heads) m -> In head heads ->
           In head (search_dependents m nodes) ->
           In token_id (search_dependents m nodes)).
Proof.
  intros m nodes.
  destruct (search_loop_terminates m nodes) as [k [E _]].
  destruct (search_loop_result _ _ _ _ _ E) as [[added Hadd] [Hfix _]].
  repeat split.
  - rewrite traverse_root_children_pairs. apply sweep_pairs_extends.
  - exists added, k. rewrite <- Hadd. now split.
  - pose proof (traverse_root_children_pairs m (search_dependents m nodes)
                  true) as Hfst.
    pose proof (traverse_root_children_flag m (search_dependents m nodes))
      as Hsnd.
    destruct (traverse_root_children m (search_dependents m nodes) true)
      as [nodes' keep].
    cbn [fst snd] in Hfst, Hsnd. rewrite Hfix in *.
    rewrite Nat.eqb_refl in Hsnd. simpl in Hsnd. congruence.
  - intros token_id heads head Hin Hhead.
    apply search_dependents_closed. apply in_pairs. now exists heads.
Qed.

(** A sweep over an empty list of members appends nothing: the loop runs
    this one sweep and stops. *)
Lemma search_loop_nil : forall fuel m,
    search_loop (S fuel) m [] = Some ([], 1).
Proof.
  intros fuel m. rewrite search_loop_unfold. cbv zeta.
  rewrite sweep_pairs_nil. reflexivity.
Qed.

(** C6, amended. From the list the two initialisation passes build, the
    [while] loop always ends, after at least one and at most [max 1 N]
    sweeps for a HeadMap of [N] entries (an empty HeadMap still takes the
    one sweep that finds nothing); a sweep ends the loop exactly when it
    left the length unchanged, and a sweep that continues the loop has
    appended a token that was not a member. *)
Theorem search_ends_within_max_1_N : forall m root_index init,
    root_and_children m root_index = Ok init ->
    (exists final sweeps,
        (forall fuel, Nat.max 1 (length m) <= fuel ->
                      search_loop fuel m (snd init) = Some (final, sweeps))
        /\ 1 <= sweeps <= Nat.max 1 (length m))
    /\ (forall nodes,
           snd (traverse_root_children m nodes true) = false
           <-> length (fst (traverse_root_children m nodes true))
               = length nodes)
    /\ (forall nodes,
           snd (traverse_root_children m nodes true) = true ->
           exists token_id,
             ~ In token_id nodes
             /\ In token_id (fst (traverse_root_children m nodes true))).
Proof.
  intros m root_index init Hinit. repeat split.
  - destruct (snd init) as [| x nodes] eqn:Hnodes.
    + exists [], 1. split; [| lia].
      intros fuel Hfuel. destruct fuel as [| fuel]; [lia |].
      apply search_loop_nil.
    + destruct (root_and_children_keys m root_index init x Hinit)
        as [hs Hx]; [rewrite Hnodes; now left |].
      pose proof (unreached_nonempty m (x :: nodes) x hs Hx
                    (or_introl eq_refl)) as Hlt.
      destruct (search_loop_bounded (length m) m (x :: nodes) Hlt)
        as [final [k [E Hk]]].
      exists final, k. split; [| lia].
      intros fuel Hfuel.
      replace fuel with (length m + (fuel - length m)) by lia.
      now apply search_loop_fuel.
  - rewrite traverse_root_children_flag, traverse_root_children_pairs.
    intros H. apply negb_false_iff, Nat.eqb_eq in H. congruence.
  - rewrite traverse_root_children_flag, traverse_root_children_pairs.
    intros H. apply negb_false_iff, Nat.eqb_eq. congruence.
  - intros nodes.
    rewrite traverse_root_children_flag, traverse_root_children_pairs.
    intros H. apply negb_true_iff, Nat.eqb_neq in H.
    destruct (sweep_pairs_progress (pairs m) nodes) as [t [h [_ [Hn Hy]]]];
      [congruence |].
    now exists t.
Qed.

(** The HeadMap of [ex_chain]: three entries, two sweeps. *)
Lemma search_ends_within_max_1_N_witness :
  root_and_children [("1", ["0"]); ("2", ["1"]); ("3", ["2"])] None
  = Ok (Some "1", ["1"; "2"])
  /\ exists final sweeps,
      (forall fuel, 3 <= fuel ->
                    search_loop fuel [("1", ["0"]); ("2", ["1"]); ("3", ["2"])]
                                ["1"; "2"]
                    = Some (final, sweeps))
      /\ 1 <= sweeps <= 3.
Proof.
  split; [reflexivity |].
  exact (proj1 (search_ends_within_max_1_N
                  [("1", ["0"]); ("2", ["1"]); ("3", ["2"])] None
                  (Some "1", ["1"; "2"]) eq_refl)).
Defined.

(** C6 as stated fails on a sentence without tokens (a block of comment
    lines, or a stray blank line): its HeadMap has no entry and the loop
    still runs one sweep. *)
Lemma sweeps_exceed_entries_of_empty_sentence :
  ~ (forall (annotated_sentence : Sentence) m root_index init final sweeps
            fuel,
        extract_heads annotated_sentence = Ok m ->
        root_and_children m root_index = Ok init ->
        search_loop fuel m (snd init) = Some (final, sweeps) ->
        sweeps <= length m).
Proof.
  intros H.
  specialize (H [] [] None (None, []) [] 1 1 eq_refl eq_refl eq_refl).
  simpl in H. lia.
Qed.

(** ** Enumerating a list that shrinks *)

Lemma del_at_ok : forall (A : Type) i (l l' : list A),
    del_at i l = Ok l' ->
    i < length l /\ l' = firstn i l ++ skipn (S i) l.
Proof.
  intros A i l l'. unfold del_at.
  destruct (Nat.ltb i (length l)) eqn:Hlt; [| discriminate].
  apply Nat.ltb_lt in Hlt. intros H. inversion H. now split.
Qed.

Lemma del_at_in_range : forall (A : Type) i (l : list A) x,
    nth_error l i = Some x -> exists l', del_at i l = Ok l'.
Proof.
  intros A i l x Hx. unfold del_at.
  assert (Hlt : i < length l) by (apply nth_error_Some; congruence).
  apply Nat.ltb_lt in Hlt. rewrite Hlt. eauto.
Qed.

Lemma del_at_raise : forall (A : Type) i (l : list A) e,
    del_at i l = Raise e -> e = IndexError.
Proof.
  intros A i l e. unfold del_at. destruct (Nat.ltb i (length l));
    [discriminate | congruence].
Qed.

Section EnumerateLoop.
Variable A : Type.
Variable body : nat -> A -> list A -> Result (list A).

Lemma enumerate_loop_past_end : forall fuel i l,
    length l <= i -> enumerate_loop body fuel i l = Ok l.
Proof.
  intros fuel i l Hle. destruct fuel as [| fuel]; simpl; [reflexivity |].
  apply nth_error_None in Hle. now rewrite Hle.
Qed.

(** The fuel [for_enumerate] starts with is never what stops the
    iteration when the body does not lengthen the list: more fuel gives
    the same outcome. *)
Lemma enumerate_loop_fuel :
  (forall i x l l', body i x l = Ok l' -> length l' <= length l) ->
  forall fuel i l extra,
    length l <= fuel + i ->
    enumerate_loop body (fuel + extra) i l = enumerate_loop body fuel i l.
Proof.
  intros Hbody. induction fuel as [| fuel IH]; intros i l extra Hlen.
  - rewrite enumerate_loop_past_end by lia. reflexivity.
  - simpl. destruct (nth_error l i) as [x |] eqn:Hx; [| reflexivity].
    destruct (body i x l) as [l' | e] eqn:Hb; simpl; [| reflexivity].
    apply IH. apply Hbody in Hb. lia.
Qed.

Lemma enumerate_loop_total :
  (forall i x l, nth_error l i = Some x -> exists l', body i x l = Ok l') ->
  forall fuel i l, exists l', enumerate_loop body fuel i l = Ok l'.
Proof.
  intros Hbody. induction fuel as [| fuel IH]; intros i l; simpl.
  - eauto.
  - destruct (nth_error l i) as [x |] eqn:Hx; [| eauto].
    destruct (Hbody i x l Hx) as [l' Hb]. rewrite Hb. simpl. apply IH.
Qed.

Lemma enumerate_loop_raise : forall P : PyError -> Prop,
    (forall i x l e, body i x l = Raise e -> P e) ->
    forall fuel i l e, enumerate_loop body fuel i l = Raise e -> P e.
Proof.
  intros P Hbody. induction fuel as [| fuel IH]; intros i l e; simpl.
  - discriminate.
  - destruct (nth_error l i) as [x |]; [| discriminate].
    destruct (body i x l) as [l' | e'] eqn:Hb; simpl.
    + apply IH.
    + intros H. inversion H; subst. eapply Hbody; eassumption.
Qed.
End EnumerateLoop.

(** [clean_ids] deletes only at the index it has just read. *)
Lemma clean_ids_total : forall inputs, exists ids, clean_ids inputs = Ok ids.
Proof.
  intros inputs. unfold clean_ids, for_enumerate.
  apply enumerate_loop_total. intros i x l Hx.
  destruct (contains_char "-" x); [| eauto].
  now apply del_at_in_range with x.
Qed.

(** [clean_eheads] can only fail in a [del]. *)
Lemma clean_eheads_raise : forall inputs e,
    clean_eheads inputs = Raise e -> e = IndexError.
Proof.
  intros inputs e. unfold clean_eheads, for_enumerate.
  apply (enumerate_loop_raise _ _ (fun e => e = IndexError)).
  intros i x_list l e'.
  apply (foldM_raise _ _ _ (fun e => e = IndexError)). intros st x e''.
  destruct (String.eqb x "_"); [apply del_at_raise | discriminate].
Qed.

(** *** The fuel of [for_enumerate] *)

Lemma del_at_length : forall (A : Type) i (l l' : list A),
    del_at i l = Ok l' -> length l' <= length l.
Proof.
  intros A i l l' H. apply del_at_ok in H. destruct H as [Hlt E].
  subst l'. rewrite length_app, length_firstn, length_skipn. lia.
Qed.

Lemma foldM_del_at_length :
  forall (A B : Type) (cond : B -> bool) i (xs : list B) (l l' : list A),
    foldM (fun l x => if cond x then del_at i l else Ok l) xs l = Ok l' ->
    length l' <= length l.
Proof.
  intros A B cond i xs. induction xs as [| x xs IH]; intros l l' H;
    simpl in H.
  - inversion H. lia.
  - destruct (cond x).
    + destruct (del_at i l) as [l1 |] eqn:Hd; simpl in H; [| discriminate].
      apply del_at_length in Hd. apply IH in H. lia.
    + simpl in H. now apply IH.
Qed.

Lemma clean_ids_fuel : forall inputs extra,
    enumerate_loop
      (fun i x inputs => if contains_char "-" x then del_at i inputs
                         else Ok inputs)
      (length inputs + extra) 0 inputs
    = clean_ids inputs.
Proof.
  intros inputs extra. unfold clean_ids, for_enumerate.
  apply enumerate_loop_fuel; [| lia].
  intros i x l l' H. destruct (contains_char "-" x).
  - now apply del_at_length in H.
  - inversion H. lia.
Qed.

Lemma clean_eheads_fuel : forall inputs extra,
    enumerate_loop
      (fun i x_list inputs =>
         foldM (fun inputs x => if String.eqb x "_" then del_at i inputs
                                else Ok inputs)
               x_list inputs)
      (length inputs + extra) 0 inputs
    = clean_eheads inputs.
Proof.
  intros inputs extra. unfold clean_eheads, for_enumerate.
  apply enumerate_loop_fuel; [| lia].
  intros i x l l'.
  apply (foldM_del_at_length _ _ (fun x => String.eqb x "_")).
Qed.

Lemma collapse_fuel : forall fragments heads extra,
    enumerate_loop (collapse_body fragments) (length heads + extra) 0 heads
    = collapse fragments heads.
Proof.
  intros fragments heads extra. unfold collapse, for_enumerate.
  apply enumerate_loop_fuel; [| lia].
  intros i x l l'. unfold collapse_body.
  apply (foldM_del_at_length _ _ (fun f => mem x (snd f))).
Qed.

(** *** When deleting while enumerating is filtering *)

Lemma del_at_middle : forall (A : Type) (passed : list A) x rest,
    del_at (length passed) (passed ++ x :: rest) = Ok (passed ++ rest).
Proof.
  intros A passed x rest. unfold del_at.
  assert (Hlt : Nat.ltb (length passed) (length (passed ++ x :: rest)) = true).
  { apply Nat.ltb_lt. rewrite length_app. simpl. lia. }
  rewrite Hlt. f_equal.
  assert (F : firstn (length passed) (passed ++ x :: rest) = passed).
  { rewrite firstn_app, Nat.sub_diag, firstn_all. simpl.
    apply app_nil_r. }
  assert (K : skipn (S (length passed)) (passed ++ x :: rest) = rest).
  { change (S (length passed)) with (1 + length passed).
    rewrite <- skipn_skipn, skipn_app, Nat.sub_diag, skipn_all.
    reflexivity. }
  now rewrite F, K.
Qed.

Lemma no_adjacent_tail : forall (A : Type) (p : A -> bool) x rest,
    no_adjacent p (x :: rest) = true -> no_adjacent p rest = true.
Proof.
  intros A p x rest H. destruct rest as [| y rest]; [reflexivity |].
  cbn [no_adjacent] in H. apply andb_true_iff in H. apply H.
Qed.

Lemma no_adjacent_head : forall (A : Type) (p : A -> bool) x y rest,
    no_adjacent p (x :: y :: rest) = true -> p x = true -> p y = false.
Proof.
  intros A p x y rest H Hx. cbn [no_adjacent] in H.
  apply andb_true_iff in H. destruct H as [H _]. rewrite Hx in H.
  destruct (p y); [discriminate | reflexivity].
Qed.

Section EnumerateFilter.
Variable A : Type.
Variable body : nat -> A -> list A -> Result (list A).
Variable p : A -> bool.

(** If the body deletes the element it stands on exactly when [p] holds of
    it, and no two neighbours satisfy [p], the element skipped after a
    deletion is one that would have been kept: the loop filters. *)
Lemma enumerate_loop_filter : forall fuel rest passed,
    length rest <= fuel ->
    Forall (fun x => forall i l,
                body i x l = if p x then del_at i l else Ok l) rest ->
    no_adjacent p rest = true ->
    enumerate_loop body fuel (length passed) (passed ++ rest)
    = Ok (passed ++ filter (fun x => negb (p x)) rest).
Proof.
  induction fuel as [| fuel IH]; intros rest passed Hfuel Hbody Hadj.
  - destruct rest; [reflexivity | simpl in Hfuel; lia].
  - destruct rest as [| x rest].
    + simpl. rewrite app_nil_r.
      assert (E : nth_error passed (length passed) = None)
        by (apply nth_error_None; lia).
      now rewrite E.
    + cbn [enumerate_loop].
      rewrite nth_error_app2, Nat.sub_diag by lia. cbn [nth_error].
      inversion Hbody as [| x' rest' Hx Hrest]; subst.
      rewrite Hx. simpl in Hfuel.
      destruct (p x) eqn:Hpx.
      * rewrite del_at_middle. cbn [bind filter]. rewrite Hpx. cbn [negb].
        destruct rest as [| y rest].
        -- cbn [filter]. rewrite app_nil_r.
           apply enumerate_loop_past_end. lia.
        -- pose proof (no_adjacent_head _ _ _ _ _ Hadj Hpx) as Hpy.
           cbn [filter]. rewrite Hpy. cbn [negb].
           inversion Hrest as [| y' rest' Hy Hrest']; subst.
           replace (passed ++ y :: rest) with ((passed ++ [y]) ++ rest)
             by (rewrite <- app_assoc; reflexivity).
           replace (passed ++ y :: filter (fun x => negb (p x)) rest)
             with ((passed ++ [y]) ++ filter (fun x => negb (p x)) rest)
             by (rewrite <- app_assoc; reflexivity).
           replace (S (length passed)) with (length (passed ++ [y]))
             by (rewrite length_app; simpl; lia).
           apply IH.
           ++ simpl in Hfuel. lia.
           ++ assumption.
           ++ now apply no_adjacent_tail in Hadj; apply no_adjacent_tail in Hadj.
      * cbn [bind filter]. rewrite Hpx. cbn [negb].
        replace (passed ++ x :: rest) with ((passed ++ [x]) ++ rest)
          by (rewrite <- app_assoc; reflexivity).
        replace (passed ++ x :: filter (fun x => negb (p x)) rest)
          with ((passed ++ [x]) ++ filter (fun x => negb (p x)) rest)
          by (rewrite <- app_assoc; reflexivity).
        replace (S (length passed)) with (length (passed ++ [x]))
          by (rewrite length_app; simpl; lia).
        apply IH.
        -- lia.
        -- assumption.
        -- now apply no_adjacent_tail in Hadj.
Qed.
End EnumerateFilter.

(** On ids without two adjacent multi-word ids, [clean_ids] keeps exactly
    the ids without a hyphen. *)
Lemma clean_ids_filter : forall inputs,
    no_adjacent (contains_char "-") inputs = true ->
    clean_ids inputs
    = Ok (filter (fun x => negb (contains_char "-" x)) inputs).
Proof.
  intros inputs Hadj. unfold clean_ids, for_enumerate.
  apply (enumerate_loop_filter _ _ (contains_char "-") (length inputs)
           inputs []); [lia | | assumption].
  apply Forall_forall. intros x _ i l. reflexivity.
Qed.

Lemma clean_eheads_body : forall x_list i (l : list (list string)),
    placeholders x_list <= 1 ->
    foldM (fun inputs x => if String.eqb x "_" then del_at i inputs
                           else Ok inputs)
          x_list l
    = if has_placeholder x_list then del_at i l else Ok l.
Proof.
  unfold placeholders, has_placeholder, mem.
  induction x_list as [| x xs IH]; intros i l Hle;
    cbn [foldM existsb filter] in *.
  - reflexivity.
  - rewrite (String.eqb_sym "_" x).
    destruct (String.eqb x "_") eqn:Hx; cbn [orb length] in *.
    + assert (Hz : length (filter (fun x => String.eqb x "_") xs) = 0)
        by lia.
      assert (Hno : forall l0 : list (list string),
                 foldM (fun inputs x => if String.eqb x "_"
                                        then del_at i inputs else Ok inputs)
                       xs l0 = Ok l0).
      { clear IH Hle.
        induction xs as [| y ys IHy]; intros l0; cbn [foldM filter] in *.
        - reflexivity.
        - destruct (String.eqb y "_"); [discriminate |]. cbn [bind].
          now apply IHy. }
      destruct (del_at i l); cbn [bind]; [apply Hno | reflexivity].
    + cbn [bind]. now apply IH.
Qed.

(** On head lists with at most one placeholder each and no two adjacent
    lists with a placeholder, [clean_eheads] keeps exactly the lists
    without placeholder. *)
Lemma clean_eheads_filter : forall inputs,
    Forall (fun x_list => placeholders x_list <= 1) inputs ->
    no_adjacent has_placeholder inputs = true ->
    clean_eheads inputs
    = Ok (filter (fun x_list => negb (has_placeholder x_list)) inputs).
Proof.
  intros inputs Hone Hadj. unfold clean_eheads, for_enumerate.
  apply (enumerate_loop_filter _ _ has_placeholder (length inputs)
           inputs []); [lia | | assumption].
  apply Forall_forall. intros x Hx i l.
  rewrite Forall_forall in Hone. now apply clean_eheads_body, Hone.
Qed.

(** ** Dictionaries *)

Lemma dict_get_keys : forall (V : Type) (d : dict V) k,
    In k (keys d) <-> exists v, dict_get d k = Some v.
Proof.
  intros V d k. induction d as [| [k' v'] d IH]; simpl.
  - split; [contradiction | intros [v H]; discriminate].
  - destruct (String.eqb k k') eqn:Hk.
    + apply String.eqb_eq in Hk. subst. split; eauto.
    + apply String.eqb_neq in Hk. rewrite <- IH. split.
      * intros [H | H]; [congruence | assumption].
      * auto.
Qed.

Lemma keys_dict_set : forall (V : Type) (d : dict V) k v k',
    In k' (keys (dict_set d k v)) <-> k' = k \/ In k' (keys d).
Proof.
  intros V d k v k'. induction d as [| [k0 v0] d IH]; simpl.
  - split; intros [H | H]; auto.
  - destruct (String.eqb k k0) eqn:Hk; simpl.
    + apply String.eqb_eq in Hk. subst. split; [auto |].
      intros [H | H]; auto.
    + rewrite IH. tauto.
Qed.

Lemma keys_dict_set_present : forall (V : Type) (d : dict V) k v,
    In k (keys d) -> keys (dict_set d k v) = keys d.
Proof.
  intros V d k v. induction d as [| [k0 v0] d IH]; simpl; [contradiction |].
  destruct (String.eqb k k0) eqn:Hk; simpl; [reflexivity |].
  apply String.eqb_neq in Hk. intros [H | H]; [congruence |].
  now rewrite IH.
Qed.

Lemma keys_empty_heads : forall ids id,
    In id ids -> In id (keys (empty_heads ids)).
Proof.
  intros ids id. unfold empty_heads.
  assert (G : forall d, In id ids \/ In id (keys d) ->
                        In id (keys (fold_left
                                       (fun (d : dict (list string))
                                            conllu_id =>
                                          dict_set d conllu_id []) ids d))).
  { induction ids as [| i ids IH]; intros d; simpl.
    - intros [[] | H]; assumption.
    - intros H. apply IH. rewrite keys_dict_set.
      destruct H as [[H | H] | H]; auto. }
  intros H. apply G. now left.
Qed.

(** Appending the heads never misses its key once every id has a bucket. *)
Lemma fill_heads_total : forall ids enhanced_heads d,
    (forall id, In id ids -> In id (keys d)) ->
    exists d', fill_heads ids enhanced_heads d = Ok d' /\ keys d' = keys d.
Proof.
  unfold fill_heads. induction ids as [| id ids IH];
    intros enhanced_heads d Hkeys; simpl.
  - exists d. now split.
  - destruct enhanced_heads as [| head_list enhanced_heads]; simpl.
    + exists d. now split.
    + assert (G : forall hs d0,
                 keys d0 = keys d ->
                 exists d1,
                   foldM (fun d head => dict_append d id head) hs d0 = Ok d1
                   /\ keys d1 = keys d).
      { induction hs as [| h hs IHh]; intros d0 Hd0; simpl.
        - exists d0. now split.
        - unfold dict_append at 1.
          assert (Hin : In id (keys d0))
            by (rewrite Hd0; apply Hkeys; now left).
          destruct (proj1 (dict_get_keys _ d0 id) Hin) as [v Hv].
          rewrite Hv. simpl. apply IHh.
          now rewrite keys_dict_set_present. }
      destruct (G head_list d eq_refl) as [d1 [E1 K1]]. rewrite E1. simpl.
      destruct (IH enhanced_heads d1) as [d2 [E2 K2]].
      * intros id' Hid'. rewrite K1. apply Hkeys. now right.
      * exists d2. split; [assumption | congruence].
Qed.

(** The assertion compares the two lists the cleaners return: extraction
    raises the assertion error exactly when [clean_eheads] returns a
    number of head lists that differs from the number of ids [clean_ids]
    returns; when the two numbers agree it succeeds, and every returned id
    is a key of the HeadMap.  [clean_ids] itself never fails;
    [clean_eheads] can fail before the assertion is reached, and then
    extraction fails with an index error. *)
Lemma assertion_compares_cleaned_lists : forall annotated_sentence : Sentence,
    exists ids,
      clean_ids (map Token.id annotated_sentence) = Ok ids
      /\ (extract_heads annotated_sentence = Raise AssertionError
          <-> exists enhanced_heads,
              clean_eheads
                (convert_deps_to_nested_list
                   (map Token.deps annotated_sentence))
              = Ok enhanced_heads
              /\ length ids <> length enhanced_heads)
      /\ (forall enhanced_heads,
             clean_eheads
               (convert_deps_to_nested_list
                  (map Token.deps annotated_sentence))
             = Ok enhanced_heads ->
             length ids = length enhanced_heads ->
             exists m,
               extract_heads annotated_sentence = Ok m
               /\ forall id, In id ids -> In id (keys m))
      /\ (forall e,
             clean_eheads
               (convert_deps_to_nested_list
                  (map Token.deps annotated_sentence))
             = Raise e ->
             e = IndexError
             /\ extract_heads annotated_sentence = Raise IndexError).
Proof.
  intros annotated_sentence.
  destruct (clean_ids_total (map Token.id annotated_sentence)) as [ids Hids].
  exists ids. split; [assumption |].
  unfold extract_heads. rewrite Hids. simpl.
  destruct (clean_eheads _) as [hs | e] eqn:Hhs; simpl.
  - destruct (Nat.eqb (length ids) (length hs)) eqn:Hlen.
    + apply Nat.eqb_eq in Hlen.
      destruct (fill_heads_total ids hs (empty_heads ids)
                  (keys_empty_heads ids)) as [m [Hm Hk]].
      rewrite Hm. split; [| split].
      * split; [discriminate |].
        intros [hs' [E Hne]]. inversion E; subst. contradiction.
      * intros hs' E _. inversion E; subst. exists m.
        split; [reflexivity |].
        intros id Hid. rewrite Hk. now apply keys_empty_heads.
      * discriminate.
    + apply Nat.eqb_neq in Hlen. split; [| split].
      * split; [| reflexivity]. intros _. now exists hs.
      * intros hs' E Heq. inversion E; subst. contradiction.
      * discriminate.
  - apply clean_eheads_raise in Hhs. subst e. split; [| split].
    + split.
      * discriminate.
      * intros [hs' [E _]]. discriminate.
    + intros hs' E. discriminate.
    + intros e E. inversion E; subst. now split.
Qed.

(** On a sentence whose multi-word ids and placeholder fields stand apart
    (no two in a row, one placeholder per field), the retained ids are the
    ids without a hyphen and the retained head lists are those without
    placeholder, and the assertion compares their numbers. *)
Lemma extraction_mismatch_by_filter : forall annotated_sentence : Sentence,
    let ids := map Token.id annotated_sentence in
    let enhanced_heads :=
      convert_deps_to_nested_list (map Token.deps annotated_sentence) in
    no_adjacent (contains_char "-") ids = true ->
    Forall (fun x_list => placeholders x_list <= 1) enhanced_heads ->
    no_adjacent has_placeholder enhanced_heads = true ->
    (extract_heads annotated_sentence = Raise AssertionError
     <-> length (filter (fun x => negb (contains_char "-" x)) ids)
         <> length (filter (fun x_list => negb (has_placeholder x_list))
                           enhanced_heads)).
Proof.
  intros annotated_sentence ids enhanced_heads Hids Hone Hadj.
  unfold extract_heads. fold ids. fold enhanced_heads.
  rewrite (clean_ids_filter ids Hids),
    (clean_eheads_filter enhanced_heads Hone Hadj).
  cbn [bind].
  destruct (Nat.eqb _ _) eqn:Hlen.
  - apply Nat.eqb_eq in Hlen.
    destruct (fill_heads_total
                (filter (fun x => negb (contains_char "-" x)) ids)
                (filter (fun x_list => negb (has_placeholder x_list))
                        enhanced_heads)
                (empty_heads
                   (filter (fun x => negb (contains_char "-" x)) ids))
                (keys_empty_heads _)) as [m [Hm _]].
    rewrite Hm. split; [discriminate | congruence].
  - apply Nat.eqb_neq in Hlen. split; [auto | reflexivity].
Qed.

(** Two sentences the assertion cannot accept, for different reasons: after
    two adjacent placeholder tokens one ["_"] list is left behind, and a
    field with two placeholders deletes past the end of the list. *)
Example extract_heads_mismatch :
  extract_heads [tok "1" "_"; tok "2" "_"; tok "3" "0:root"]
  = Raise AssertionError.
Proof. reflexivity. Qed.

Example extract_heads_index_error :
  extract_heads [tok "1" "_|_"] = Raise IndexError.
Proof. reflexivity. Qed.

Example extract_heads_multiword :
  extract_heads [tok "1-2" "_"; tok "1" "0:root"; tok "2" "1:obj"]
  = Ok [("1", ["0"]); ("2", ["1"])].
Proof. reflexivity. Qed.

(** The cleaners do not always remove what their docstrings say ("Remove
    MWT ids.", "Remove null heads."), so the number of ids without a
    hyphen and the number of head lists without placeholder can agree
    where the assertion fails. *)
Example extract_heads_false_alarm :
  let s := [tok "1-2" "_"; tok "3-4" "0:root"; tok "1" "_"; tok "2" "1:x"] in
  length (filter (fun x => negb (contains_char "-" x)) (map Token.id s))
  = length (filter (fun x_list => negb (has_placeholder x_list))
                   (convert_deps_to_nested_list (map Token.deps s)))
  /\ extract_heads s = Raise AssertionError.
Proof. split; reflexivity. Qed.

(** C8 on [ex_placeholders].  Two ids are left after the multi-word id is
    discarded and one head list is left after the placeholder lists are
    dropped, so the numbers differ; yet no error is raised.  [clean_eheads]
    deletes the first placeholder list and, deleting from the list it
    enumerates, steps over the second, so it returns two lists, the
    assertion compares 2 with 2, and the HeadMap gives token "1" the
    head ["_"]. *)
Theorem placeholder_list_passes_assertion :
  filter (fun x => negb (contains_char "-" x)) (map Token.id ex_placeholders)
  = ["1"; "2"]
  /\ filter (fun x_list => negb (has_placeholder x_list))
            (convert_deps_to_nested_list (map Token.deps ex_placeholders))
     = [["0"]]
  /\ clean_ids (map Token.id ex_placeholders) = Ok ["1"; "2"]
  /\ clean_eheads
       (convert_deps_to_nested_list (map Token.deps ex_placeholders))
     = Ok [["_"]; ["0"]]
  /\ extract_heads ex_placeholders = Ok [("1", ["_"]); ("2", ["0"])]
  /\ _read [ex_placeholders] = Ok [ex_placeholders].
Proof. repeat split. Qed.

(** ** The collapse pass *)

Section Collapse.
Variable fragments : dict (list string).

(** The body deletes, at the index it stands on, as many keys as there
    are fragments with [k] among their children. *)
Lemma collapse_body_ok : forall i k l l',
    collapse_body fragments i k l = Ok l' ->
    length (firstn i l) = i ->
    l' = firstn i l ++ skipn (hits fragments k) (skipn i l).
Proof.
  unfold collapse_body, hits. intros i k.
  induction fragments as [| f fs IH];
    intros l l' H Hi; simpl in *.
  - inversion H; subst. now rewrite firstn_skipn.
  - destruct (mem k (snd f)) eqn:Hm; simpl in *.
    + destruct (del_at i l) as [l1 | e] eqn:Hd; simpl in H;
        [| discriminate].
      apply del_at_ok in Hd. destruct Hd as [Hlt Hl1].
      assert (F : firstn i l1 = firstn i l).
      { rewrite Hl1, firstn_app, Hi, Nat.sub_diag. simpl.
        rewrite app_nil_r. apply firstn_all2. lia. }
      assert (S1 : skipn i l1 = skipn 1 (skipn i l)).
      { rewrite Hl1, skipn_app, Hi, Nat.sub_diag.
        rewrite (skipn_all2 (firstn i l)) by lia.
        rewrite !skipn_skipn. reflexivity. }
      rewrite (IH l1 l' H) by (rewrite F; assumption).
      rewrite F, S1, skipn_skipn, Nat.add_1_r. reflexivity.
    + now apply IH.
Qed.

Lemma hits_zero : forall k,
    hits fragments k = 0 ->
    forall parent children, In (parent, children) fragments ->
                            ~ In k children.
Proof.
  unfold hits. intros k Hz parent children Hin Hk.
  assert (Hf : In (parent, children)
                  (filter (fun fragment => mem k (snd fragment))
                          fragments)).
  { apply filter_In. split; [assumption |]. simpl. now apply mem_In. }
  destruct (filter _ fragments); [contradiction | discriminate].
Qed.
End Collapse.

(** ** The analysis of a sentence, step by step *)

Lemma analyse_ok : forall root_index annotated_sentence a,
    analyse root_index annotated_sentence = Ok a ->
    extract_heads annotated_sentence = Ok (ids_to_heads a)
    /\ root_and_children (ids_to_heads a) root_index
       = Ok (new_root_index a, initial_nodes a)
    /\ nodes_reachable_from_root a
       = search_dependents (ids_to_heads a) (initial_nodes a)
    /\ unreachable_nodes a
       = find_unreachable (ids_to_heads a) (nodes_reachable_from_root a)
    /\ (exists empty_fragments,
           init_fragments (ids_to_heads a) (unreachable_nodes a)
           = Ok empty_fragments
           /\ fill_fragments (ids_to_heads a) (unreachable_nodes a)
                             empty_fragments
              = Ok (unreachable_head_fragments a))
    /\ collapse (unreachable_head_fragments a)
                (keys (unreachable_head_fragments a))
       = Ok (heads_of_fragments a)
    /\ pruned_tree a
       = populate_pruned (unreachable_head_fragments a)
                         (heads_of_fragments a).
Proof.
  intros root_index annotated_sentence a. unfold analyse.
  destruct (extract_heads annotated_sentence) as [m |] eqn:Hm; simpl;
    [| discriminate].
  destruct (root_and_children m root_index) as [[r nodes] |] eqn:Hr; simpl;
    [| discriminate].
  destruct (init_fragments m _) as [ef |] eqn:Hef; simpl; [| discriminate].
  destruct (fill_fragments m _ ef) as [fragments |] eqn:Hf; simpl;
    [| discriminate].
  destruct (collapse fragments _) as [survivors |] eqn:Hc; simpl;
    [| discriminate].
  intros H. inversion H; subst; simpl.
  repeat split; try reflexivity; try assumption.
  exists ef. now split.
Qed.

(** The reachable list of an analysis is what the Reachability Engine
    computes on its HeadMap. *)
Lemma analyse_reachability : forall root_index annotated_sentence a,
    analyse root_index annotated_sentence = Ok a ->
    reachability (ids_to_heads a) root_index
    = Ok (new_root_index a, nodes_reachable_from_root a).
Proof.
  intros root_index annotated_sentence a Ha.
  destruct (analyse_ok _ _ _ Ha) as [_ [Hr [Hn _]]].
  unfold reachability. rewrite Hr, Hn. reflexivity.
Qed.

Lemma keys_populate_pruned : forall fragments survivors k,
    In k (keys (populate_pruned fragments survivors)) -> In k survivors.
Proof.
  intros fragments survivors k. unfold populate_pruned.
  assert (Inner : forall head fs pruned,
             In k (keys (fold_left
                           (fun (pruned_tree : dict (list string)) fragment =>
                              if String.eqb head (fst fragment)
                              then dict_set pruned_tree head (snd fragment)
                              else pruned_tree)
                           fs pruned)) ->
             k = head \/ In k (keys pruned)).
  { intros head. induction fs as [| f fs IH]; intros pruned; simpl.
    - auto.
    - intros H. apply IH in H.
      destruct (String.eqb head (fst f)); [| assumption].
      destruct H as [H | H]; [now left |].
      now apply keys_dict_set in H. }
  assert (Outer : forall heads pruned,
             In k (keys (fold_left
                           (fun pruned_tree head_of_fragment =>
                              fold_left
                                (fun (pruned_tree : dict (list string))
                                     fragment =>
                                   if String.eqb head_of_fragment
                                                 (fst fragment)
                                   then dict_set pruned_tree head_of_fragment
                                                 (snd fragment)
                                   else pruned_tree)
                                fragments pruned_tree)
                           heads pruned)) ->
             In k heads \/ In k (keys pruned)).
  { induction heads as [| head heads IH]; intros pruned; simpl.
    - auto.
    - intros H. apply IH in H. destruct H as [H | H]; [auto |].
      apply Inner in H. destruct H as [H | H]; auto. }
  intros H. apply Outer in H. destruct H as [H | []]. assumption.
Qed.

(** C2 as stated fails on [ex_cycle]: the surviving key "2" is a child in
    the fragment of "3". *)
Lemma surviving_key_is_a_child :
  ~ (forall root_index annotated_sentence a,
        analyse root_index annotated_sentence = Ok a ->
        forall k, In k (keys (pruned_tree a)) ->
                  forall parent children,
                    In (parent, children) (unreachable_head_fragments a) ->
                    ~ In k children).
Proof.
  intros H.
  apply (H None ex_cycle
           (mkAnalysis [("1", ["0"]); ("2", ["3"]); ("3", ["2"])] (Some "1")
                       ["1"] ["1"] ["2"; "3"] [("3", ["2"]); ("2", ["3"])]
                       ["2"] [("2", ["3"])])
           eq_refl "2" (or_introl eq_refl) "3" ["2"]).
  - simpl. now left.
  - simpl. now left.
Qed.

(** ** Reattachment *)

(** C9. Repairing a sentence keeps the number and the order of its tokens
    and every field of every token except the enhanced dependencies; that
    field is changed only for the tokens whose id is a key of the pruned
    tree, and for those the text ["|0:root"] is appended to it. *)
Theorem reattachment_changes_only_deps :
  forall root_index annotated_sentence root_index' repaired,
    repair_sentence root_index annotated_sentence
    = Ok (root_index', repaired) ->
    exists a,
      analyse root_index annotated_sentence = Ok a
      /\ length repaired = length annotated_sentence
      /\ forall i t,
          nth_error annotated_sentence i = Some t ->
          exists t',
            nth_error repaired i = Some t'
            /\ same_but_deps t t'
            /\ (In (Token.id t) (keys (pruned_tree a)) ->
                Token.deps t' = (Token.deps t ++ "|0:root")%string)
            /\ (~ In (Token.id t) (keys (pruned_tree a)) -> t' = t).
Proof.
  intros root_index annotated_sentence root_index' repaired.
  unfold repair_sentence.
  destruct (analyse root_index annotated_sentence) as [a |]; simpl;
    [| discriminate].
  intros H. inversion H; subst. exists a. split; [reflexivity |].
  unfold add_root_edges. split; [apply length_map |].
  intros i t Ht. rewrite nth_error_map, Ht. simpl.
  eexists. split; [reflexivity |].
  destruct (mem (Token.id t) (keys (pruned_tree a))) eqn:Hm.
  - split; [| split].
    + unfold same_but_deps. destruct t; simpl. tauto.
    + intros _. destruct t; reflexivity.
    + intros Hn. apply mem_In in Hm. contradiction.
  - split; [| split].
    + unfold same_but_deps. tauto.
    + intros Hin. apply mem_In in Hin. congruence.
    + reflexivity.
Qed.

(** [ex_cycle]: token "2" heads the surviving fragment. *)
Lemma reattachment_changes_only_deps_witness :
  exists a,
    analyse None ex_cycle = Ok a
    /\ length [tok "1" "0:root"; tok "2" "3:conj|0:root"; tok "3" "2:conj"]
       = length ex_cycle
    /\ forall i t,
        nth_error ex_cycle i = Some t ->
        exists t',
          nth_error
            [tok "1" "0:root"; tok "2" "3:conj|0:root"; tok "3" "2:conj"] i
          = Some t'
          /\ same_but_deps t t'
          /\ (In (Token.id t) (keys (pruned_tree a)) ->
              Token.deps t' = (Token.deps t ++ "|0:root")%string)
          /\ (~ In (Token.id t) (keys (pruned_tree a)) -> t' = t).
Proof.
  exact (reattachment_changes_only_deps None ex_cycle (Some "1")
           [tok "1" "0:root"; tok "2" "3:conj|0:root"; tok "3" "2:conj"]
           eq_refl).
Defined.

(** ** A sentence without a token headed by ROOT *)

Lemma init_fragments_raise : forall m unreachable e,
    init_fragments m unreachable = Raise e -> e <> NameError.
Proof.
  intros m unreachable e. unfold init_fragments.
  apply (foldM_raise _ _ _ (fun e => e <> NameError)).
  intros st x e'. destruct (dict_get m x); intros H; inversion H.
  discriminate.
Qed.

Lemma fill_fragments_raise : forall m unreachable fragments e,
    fill_fragments m unreachable fragments = Raise e -> e <> NameError.
Proof.
  intros m unreachable fragments e. unfold fill_fragments.
  apply (foldM_raise _ _ _ (fun e => e <> NameError)).
  intros st x e'. destruct (dict_get m x) as [hs |].
  - apply (foldM_raise _ _ _ (fun e => e <> NameError)).
    intros st' h e''. destruct (dict_get st' h); intros H; inversion H.
    discriminate.
  - intros H. inversion H. discriminate.
Qed.

Lemma collapse_raise : forall fragments heads e,
    collapse fragments heads = Raise e -> e <> NameError.
Proof.
  intros fragments heads e. unfold collapse, for_enumerate.
  apply (enumerate_loop_raise _ _ (fun e => e <> NameError)).
  intros i x l e'. unfold collapse_body.
  apply (foldM_raise _ _ _ (fun e => e <> NameError)).
  intros st f e''. destruct (mem x (snd f)); [| discriminate].
  intros H. apply del_at_raise in H. subst. discriminate.
Qed.

(** C10, amended. A sentence whose HeadMap has at least one (token, head)
    pair and no head ["0"] raises [NameError] when [root_index] is still
    unassigned on reaching it, as it is for the first sentence of a file;
    once an earlier sentence of the file has assigned [root_index], pass 2
    compares against that stale value and no [NameError] is raised. *)
Theorem rootless_sentence_name_error : forall annotated_sentence m,
    extract_heads annotated_sentence = Ok m ->
    pairs m <> [] ->
    (forall token_id, ~ In (token_id, "0") (pairs m)) ->
    repair_sentence None annotated_sentence = Raise NameError
    /\ (forall rest, _read (annotated_sentence :: rest) = Raise NameError)
    /\ (forall r,
           repair_sentence (Some r) annotated_sentence <> Raise NameError).
Proof.
  intros annotated_sentence m Hm Hpairs Hno.
  assert (Hnone : repair_sentence None annotated_sentence = Raise NameError).
  { unfold repair_sentence, analyse. rewrite Hm. simpl.
    rewrite root_and_children_spec, (new_root_without_root _ _ Hno).
    destruct (pairs m); [contradiction | reflexivity]. }
  split; [assumption |]. split.
  - intros rest. unfold _read. simpl. now rewrite Hnone.
  - intros r. unfold repair_sentence, analyse. rewrite Hm. simpl.
    rewrite root_and_children_spec, (new_root_without_root _ _ Hno). simpl.
    destruct (init_fragments m _) as [ef | e] eqn:Hef; simpl.
    + destruct (fill_fragments m _ ef) as [fragments | e] eqn:Hf; simpl.
      * destruct (collapse fragments _) as [survivors | e] eqn:Hc; simpl.
        -- discriminate.
        -- intros H. inversion H; subst. now apply collapse_raise in Hc.
      * intros H. inversion H; subst. now apply fill_fragments_raise in Hf.
    + intros H. inversion H; subst. now apply init_fragments_raise in Hef.
Qed.

Lemma rootless_sentence_name_error_witness :
  repair_sentence None ex_rootless = Raise NameError
  /\ (forall rest, _read (ex_rootless :: rest) = Raise NameError)
  /\ (forall r, repair_sentence (Some r) ex_rootless <> Raise NameError).
Proof.
  apply (rootless_sentence_name_error ex_rootless
           [("1", ["2"]); ("2", ["1"])]).
  - reflexivity.
  - simpl. discriminate.
  - simpl. intros token_id [H | [H | []]]; discriminate.
Defined.

(** C10 as stated fails for a sentence that is not the first of its file:
    after [ex_chain] has set [root_index] to "1", the rootless cycle of
    [ex_rootless] is processed without any exception (and is left as it
    is). *)
Lemma rootless_sentence_after_rooted_one :
  ~ (forall before annotated_sentence m,
        extract_heads annotated_sentence = Ok m ->
        pairs m <> [] ->
        (forall token_id, ~ In (token_id, "0") (pairs m)) ->
        exists e, _read (before ++ [annotated_sentence]) = Raise e).
Proof.
  intros H.
  destruct (H [ex_chain] ex_rootless [("1", ["2"]); ("2", ["1"])])
    as [e He].
  - reflexivity.
  - simpl. discriminate.
  - simpl. intros token_id [E | [E | []]]; discriminate.
  - vm_compute in He. discriminate.
Qed.

(** ** The repair on the test sentences *)

(** A sentence in which no token has an unreachable head is returned as it
    is. *)
Lemma repair_without_unreachable : forall root_index annotated_sentence a,
    analyse root_index annotated_sentence = Ok a ->
    unreachable_nodes a = [] ->
    repair_sentence root_index annotated_sentence
    = Ok (new_root_index a, annotated_sentence).
Proof.
  intros root_index annotated_sentence a Ha Hu.
  destruct (analyse_ok _ _ _ Ha) as [_ [_ [_ [_ [[ef [Hef Hf]] [Hc Hp]]]]]].
  unfold repair_sentence. rewrite Ha. simpl.
  rewrite Hu in Hef, Hf. simpl in Hef. injection Hef as Hef. subst ef.
  simpl in Hf. injection Hf as Hfr. rewrite <- Hfr in Hc, Hp.
  simpl in Hc. injection Hc as Hs. rewrite <- Hs in Hp. simpl in Hp.
  rewrite Hp. unfold add_root_edges. simpl.
  rewrite map_id. reflexivity.
Qed.

(** The pairs of [ex_dangling] lead from ROOT to "1" and "2" only. *)
Lemma ex_dangling_reach : forall x,
    reach [("1", "0"); ("2", "1"); ("3", "5"); ("4", "3")] ["0"] x ->
    In x ["0"; "1"; "2"].
Proof.
  intros x. induction 1 as [y Hy | t h Hin _ IH].
  - destruct Hy as [Hy | []]. subst. now left.
  - simpl in Hin, IH.
    destruct Hin as [E | [E | [E | [E | []]]]]; inversion E; subst;
      simpl; auto;
      destruct IH as [IH | [IH | [IH | []]]]; discriminate.
Qed.

(** C1 on Example 2 of the specification.  The fragments are keyed "5" and
    "3"; "3" is a child of "5" and is deleted, "5" survives but is the id
    of no token, so no field is changed: the sentence comes back as it
    went in, and token "3" (and with it "4") is still not connected to
    ROOT "0". *)
Theorem dangling_head_left_unreachable :
  _read [ex_dangling] = Ok [ex_dangling]
  /\ (exists a,
         analyse None ex_dangling = Ok a
         /\ nodes_reachable_from_root a = ["1"; "2"]
         /\ unreachable_head_fragments a = [("5", ["3"]); ("3", ["4"])]
         /\ keys (pruned_tree a) = ["5"])
  /\ (exists m,
         extract_heads ex_dangling = Ok m
         /\ ~ reach (pairs m) ["0"] "3").
Proof.
  split; [reflexivity |]. split.
  - eexists. split; [reflexivity |]. simpl. auto.
  - eexists. split; [reflexivity |]. simpl.
    intros H. apply ex_dangling_reach in H.
    destruct H as [H | [H | [H | []]]]; discriminate.
Qed.

(** C3 on [ex_mixed].  Token "4" is headed by ROOT and is in the final
    [nodes_reachable_from_root]; token "1" has the heads "2" (not
    reachable) and "4", so it is collected as unreachable and both its
    heads become fragment keys; "4" survives the collapse and receives a
    second ["0:root"] edge. *)
Theorem reachable_token_gets_root_edge :
  exists a,
    analyse None ex_mixed = Ok a
    /\ nodes_reachable_from_root a = ["4"; "1"]
    /\ unreachable_nodes a = ["1"; "2"; "3"]
    /\ unreachable_head_fragments a
       = [("2", ["1"; "3"]); ("4", ["1"]); ("3", ["2"])]
    /\ keys (pruned_tree a) = ["4"]
    /\ repair_sentence None ex_mixed = Ok (Some "4", ex_mixed_once).
Proof.
  eexists. split; [reflexivity |]. simpl. repeat split.
Qed.

(** C4 on [ex_mixed].  The first run leaves the cycle of "2" and "3"
    disconnected, so the second run finds the same fragments and appends a
    further ["0:root"] edge to token "4". *)
Theorem second_run_appends_again :
  _read [ex_mixed] = Ok [ex_mixed_once]
  /\ _read [ex_mixed_once] = Ok [ex_mixed_twice]
  /\ ex_mixed_twice <> ex_mixed_once.
Proof.
  split; [reflexivity |]. split; [reflexivity |]. discriminate.
Qed.

(** The same sentence shows the failure of C1 for well-formed heads: after
    the repair the tokens "2" and "3" are still not connected to ROOT. *)
Lemma ex_mixed_cycle_left_unreachable :
  exists m,
    extract_heads ex_mixed_once = Ok m
    /\ forall x, reach (pairs m) ["0"] x -> In x ["0"; "4"; "1"].
Proof.
  eexists. split; [reflexivity |]. simpl.
  intros x. induction 1 as [y Hy | t h Hin _ IH].
  - destruct Hy as [Hy | []]. subst. now left.
  - simpl in Hin, IH.
    destruct Hin as [E | [E | [E | [E | [E | [E | []]]]]]];
      inversion E; subst; simpl; auto;
      destruct IH as [IH | [IH | [IH | []]]]; discriminate.
Qed.

(** * The rest of the script *)

Example main_ex_cycle :
  main (written [map token_line ex_cycle])
  = Ok (written [map token_line
                     [tok "1" "0:root"; tok "2" "3:conj|0:root";
                      tok "3" "2:conj"]]).
Proof. vm_compute. reflexivity. Qed.

(** ** Splitting and joining *)

Lemma split_not_nil : forall sep s, split sep s <> [].
Proof.
  intros sep s. destruct s as [| a rest]; simpl; [discriminate |].
  destruct (Ascii.eqb a sep); [discriminate |].
  destruct (split sep rest); discriminate.
Qed.

Lemma split_cons : forall sep a rest,
    split sep (String a rest)
    = if Ascii.eqb a sep then EmptyString :: split sep rest
      else String a (hd EmptyString (split sep rest))
                  :: tl (split sep rest).
Proof.
  intros sep a rest. simpl. destruct (Ascii.eqb a sep); [reflexivity |].
  pose proof (split_not_nil sep rest) as Hn.
  destruct (split sep rest); [contradiction | reflexivity].
Qed.

(** No piece contains the separator. *)
Lemma split_no_sep : forall sep s,
    Forall (fun w => contains_char sep w = false) (split sep s).
Proof.
  intros sep s. induction s as [| a rest IH].
  - simpl. constructor; [reflexivity | constructor].
  - rewrite split_cons. destruct (Ascii.eqb a sep) eqn:Ha.
    + constructor; [reflexivity | assumption].
    + pose proof (split_not_nil sep rest) as Hn.
      destruct (split sep rest) as [| w ws]; [contradiction |].
      inversion IH; subst. simpl. constructor; [| assumption].
      simpl. rewrite Ha. assumption.
Qed.

(** A character of a piece is a character of the string. *)
Lemma split_contains : forall c sep s w,
    In w (split sep s) -> contains_char c w = true ->
    contains_char c s = true.
Proof.
  intros c sep s. induction s as [| a rest IH]; intros w Hin Hc.
  - simpl in Hin. destruct Hin as [E | []]. subst. discriminate.
  - rewrite split_cons in Hin. simpl. apply orb_true_iff.
    destruct (Ascii.eqb a sep).
    + destruct Hin as [E | Hin]; [subst; discriminate |].
      right. now apply IH with w.
    + pose proof (split_not_nil sep rest) as Hn.
      destruct (split sep rest) as [| w0 ws]; [contradiction |].
      simpl in Hin. destruct Hin as [E | Hin].
      * subst w. simpl in Hc. apply orb_true_iff in Hc.
        destruct Hc as [Hc | Hc]; [now left |].
        right. apply IH with w0; [now left | assumption].
      * right. apply IH with w; [now right | assumption].
Qed.

Lemma split_without_sep : forall sep s,
    contains_char sep s = false -> split sep s = [s].
Proof.
  intros sep s. induction s as [| a rest IH]; intros H; [reflexivity |].
  simpl in H. apply orb_false_iff in H. destruct H as [Ha Hrest].
  simpl. rewrite Ha, (IH Hrest). reflexivity.
Qed.

Lemma split_app_sep : forall sep w rest,
    contains_char sep w = false ->
    split sep (w ++ String sep rest) = w :: split sep rest.
Proof.
  intros sep w rest. induction w as [| a w IH]; intros H.
  - simpl. now rewrite Ascii.eqb_refl.
  - simpl in H. apply orb_false_iff in H. destruct H as [Ha Hw].
    simpl. rewrite Ha, (IH Hw). reflexivity.
Qed.

Lemma join_cons : forall sep x y rest,
    join (String sep "") (x :: y :: rest)
    = (x ++ String sep (join (String sep "") (y :: rest)))%string.
Proof. reflexivity. Qed.

(** Splitting what was joined gives the pieces back, when no piece holds
    the separator (the empty list joins to [""], which splits to one
    empty piece). *)
Lemma split_join : forall sep l,
    l <> [] ->
    Forall (fun w => contains_char sep w = false) l ->
    split sep (join (String sep "") l) = l.
Proof.
  intros sep l Hne Hl. induction l as [| x rest IH]; [contradiction |].
  inversion Hl as [| x' rest' Hx Hrest]; subst.
  destruct rest as [| y rest].
  - simpl. now apply split_without_sep.
  - rewrite join_cons.
    rewrite split_app_sep by assumption.
    rewrite IH; [reflexivity | discriminate | assumption].
Qed.

(** Joining what was split gives the string back. *)
Lemma join_split : forall sep s, join (String sep "") (split sep s) = s.
Proof.
  intros sep s. induction s as [| a rest IH]; [reflexivity |].
  rewrite split_cons. pose proof (split_not_nil sep rest) as Hn.
  destruct (Ascii.eqb a sep) eqn:Ha.
  - apply Ascii.eqb_eq in Ha. subst a.
    destruct (split sep rest) as [| w ws]; [contradiction |].
    rewrite join_cons, IH. reflexivity.
  - destruct (split sep rest) as [| w ws]; [contradiction |]. simpl hd.
    simpl tl. destruct ws as [| w' ws].
    + simpl in *. now rewrite IH.
    + rewrite join_cons. rewrite join_cons in IH. rewrite <- IH.
      reflexivity.
Qed.

(** ** Head lists *)

Lemma split_colon_0_in : forall s, In (split_colon_0 s) (split ":" s).
Proof.
  intros s. unfold split_colon_0. pose proof (split_not_nil ":" s) as Hn.
  destruct (split ":" s); [contradiction | now left].
Qed.

Lemma convert_deps_map : forall deps,
    convert_deps_to_nested_list deps
    = map (fun d => map split_colon_0 (split "|" d)) deps.
Proof.
  intros deps. unfold convert_deps_to_nested_list. apply map_ext.
  intros d. destruct (split "|" d) as [| x [| y rest]]; reflexivity.
Qed.

(** X1. [convert_deps_to_nested_list] returns one head list per field; the
    two branches of the source agree, so the list of a field holds the
    text before the first colon of each of its pipe-separated entries; it
    is never empty, and no head in it contains a colon or a pipe. *)
Theorem convert_deps_heads : forall deps,
    convert_deps_to_nested_list deps
    = map (fun d => map split_colon_0 (split "|" d)) deps
    /\ length (convert_deps_to_nested_list deps) = length deps
    /\ Forall (fun heads =>
                 heads <> []
                 /\ Forall (fun h => contains_char ":" h = false
                                     /\ contains_char "|" h = false)
                           heads)
              (convert_deps_to_nested_list deps).
Proof.
  intros deps. split; [apply convert_deps_map |].
  rewrite convert_deps_map. split; [apply length_map |].
  apply Forall_forall. intros heads Hin. apply in_map_iff in Hin.
  destruct Hin as [d [E _]]. subst heads. split.
  - pose proof (split_not_nil "|" d) as Hn.
    destruct (split "|" d); [contradiction | discriminate].
  - apply Forall_forall. intros h Hh. apply in_map_iff in Hh.
    destruct Hh as [entry [E Hentry]]. subst h. split.
    + pose proof (split_no_sep ":" entry) as Hall.
      rewrite Forall_forall in Hall. apply Hall, split_colon_0_in.
    + destruct (contains_char "|" (split_colon_0 entry)) eqn:Hc;
        [| reflexivity].
      pose proof (split_contains "|" ":" entry _ (split_colon_0_in entry) Hc)
        as Hentry_c.
      pose proof (split_no_sep "|" d) as Hall.
      rewrite Forall_forall in Hall. rewrite (Hall entry Hentry) in Hentry_c.
      discriminate.
Qed.

(** ** [clean_ids] and [clean_eheads] once more *)

(** Deleting the element that was read removes it and nothing else. *)
Lemma del_at_read : forall (A : Type) i (l : list A) x,
    nth_error l i = Some x ->
    del_at i l = Ok (firstn i l ++ skipn (S i) l)
    /\ l = firstn i l ++ x :: skipn (S i) l.
Proof.
  intros A i l x Hx.
  destruct (del_at_in_range A i l x Hx) as [l' Hd]. rewrite Hd.
  apply del_at_ok in Hd. destruct Hd as [_ E]. subst l'.
  split; [reflexivity |].
  rewrite <- (firstn_skipn i l) at 1. f_equal.
  clear - Hx. revert l Hx. induction i as [| i IH]; intros l Hx.
  - destruct l; simpl in *; [discriminate | congruence].
  - destruct l; simpl in *; [discriminate |]. now apply IH.
Qed.

Lemma clean_ids_loop_keeps : forall fuel i inputs ids,
    enumerate_loop
      (fun i x inputs => if contains_char "-" x then del_at i inputs
                         else Ok inputs)
      fuel i inputs = Ok ids ->
    filter (fun x => negb (contains_char "-" x)) ids
    = filter (fun x => negb (contains_char "-" x)) inputs
    /\ length ids <= length inputs.
Proof.
  induction fuel as [| fuel IH]; intros i inputs ids H; simpl in H.
  - inversion H. split; [reflexivity | lia].
  - destruct (nth_error inputs i) as [x |] eqn:Hx;
      [| inversion H; split; [reflexivity | lia]].
    destruct (contains_char "-" x) eqn:Hc.
    + destruct (del_at_read _ i inputs x Hx) as [Hd Hl].
      rewrite Hd in H. cbn [bind] in H. apply IH in H.
      destruct H as [Hf Hlen].
      set (passed := firstn i inputs) in *.
      set (rest := skipn (S i) inputs) in *.
      clearbody passed rest. subst inputs. rewrite Hf. split.
      * rewrite !filter_app. cbn [filter]. rewrite Hc. reflexivity.
      * rewrite length_app in *. simpl. lia.
    + simpl in H. now apply IH in H.
Qed.

(** X2. [clean_ids] never raises, returns no more ids than it was given,
    and keeps every id without a hyphen, in order and with its
    multiplicity: whatever it deletes is a multi-word id. *)
Theorem clean_ids_keeps_plain_ids : forall inputs,
    exists ids,
      clean_ids inputs = Ok ids
      /\ length ids <= length inputs
      /\ filter (fun x => negb (contains_char "-" x)) ids
         = filter (fun x => negb (contains_char "-" x)) inputs.
Proof.
  intros inputs. destruct (clean_ids_total inputs) as [ids Hids].
  exists ids. split; [assumption |].
  unfold clean_ids, for_enumerate in Hids.
  apply clean_ids_loop_keeps in Hids. tauto.
Qed.

(** X3. On a list of ids in which no two neighbours are both multi-word
    ids, [clean_ids] returns exactly the ids without a hyphen, in order. *)
Theorem clean_ids_separated : forall inputs,
    no_adjacent (contains_char "-") inputs = true ->
    clean_ids inputs
    = Ok (filter (fun x => negb (contains_char "-" x)) inputs).
Proof. intros inputs H. now apply clean_ids_filter. Qed.

Lemma clean_ids_separated_witness :
  no_adjacent (contains_char "-") ["1-2"; "1"; "2"; "3-4"; "3"; "4"] = true
  /\ clean_ids ["1-2"; "1"; "2"; "3-4"; "3"; "4"]
     = Ok ["1"; "2"; "3"; "4"].
Proof.
  split; [reflexivity |].
  exact (clean_ids_separated ["1-2"; "1"; "2"; "3-4"; "3"; "4"] eq_refl).
Defined.

(** X4. On head lists with at most one placeholder each and no two
    neighbouring lists that both hold a placeholder, [clean_eheads]
    returns exactly the lists without placeholder, in order. *)
Theorem clean_eheads_separated : forall inputs,
    Forall (fun x_list => placeholders x_list <= 1) inputs ->
    no_adjacent has_placeholder inputs = true ->
    clean_eheads inputs
    = Ok (filter (fun x_list => negb (has_placeholder x_list)) inputs).
Proof. intros inputs H1 H2. now apply clean_eheads_filter. Qed.

Lemma clean_eheads_separated_witness :
  Forall (fun x_list => placeholders x_list <= 1) [["_"]; ["0"]; ["1"; "4"]]
  /\ no_adjacent has_placeholder [["_"]; ["0"]; ["1"; "4"]] = true
  /\ clean_eheads [["_"]; ["0"]; ["1"; "4"]] = Ok [["0"]; ["1"; "4"]].
Proof.
  assert (H : Forall (fun x_list => placeholders x_list <= 1)
                     [["_"]; ["0"]; ["1"; "4"]]).
  { repeat constructor. }
  split; [exact H |]. split; [reflexivity |].
  exact (clean_eheads_separated [["_"]; ["0"]; ["1"; "4"]] H eq_refl).
Defined.

Lemma clean_eheads_loop_total : forall fuel i inputs,
    Forall (fun x_list => placeholders x_list <= 1) inputs ->
    exists enhanced_heads,
      enumerate_loop
        (fun i x_list inputs =>
           foldM (fun inputs x => if String.eqb x "_" then del_at i inputs
                                  else Ok inputs)
                 x_list inputs)
        fuel i inputs = Ok enhanced_heads
      /\ length enhanced_heads <= length inputs.
Proof.
  induction fuel as [| fuel IH]; intros i inputs Hone; simpl.
  - exists inputs. split; [reflexivity | lia].
  - destruct (nth_error inputs i) as [x_list |] eqn:Hx;
      [| exists inputs; split; [reflexivity | lia]].
    destruct (del_at_read _ i inputs x_list Hx) as [Hd Hl].
    assert (Hx1 : placeholders x_list <= 1).
    { rewrite Forall_forall in Hone. apply Hone.
      now apply nth_error_In with i. }
    rewrite (clean_eheads_body x_list i inputs Hx1).
    destruct (has_placeholder x_list).
    + rewrite Hd. cbn [bind].
      set (passed := firstn i inputs) in *.
      set (rest := skipn (S i) inputs) in *.
      clearbody passed rest. subst inputs.
      destruct (IH (S i) (passed ++ rest)) as [hs [E Hlen]].
      * apply Forall_app in Hone.
        destruct Hone as [H1 H2]. inversion H2; subst.
        apply Forall_app. now split.
      * exists hs. split; [assumption |].
        rewrite length_app in *. simpl. lia.
    + cbn [bind]. now apply IH.
Qed.

(** X5. When no enhanced-dependencies field holds more than one
    placeholder head, [clean_eheads] does not raise: the index error needs
    a second deletion for one and the same list. *)
Theorem clean_eheads_single_placeholders : forall inputs,
    Forall (fun x_list => placeholders x_list <= 1) inputs ->
    exists enhanced_heads,
      clean_eheads inputs = Ok enhanced_heads
      /\ length enhanced_heads <= length inputs.
Proof.
  intros inputs H. unfold clean_eheads, for_enumerate.
  now apply clean_eheads_loop_total.
Qed.

Lemma clean_eheads_single_placeholders_witness :
  Forall (fun x_list => placeholders x_list <= 1) [["_"]; ["_"]; ["0"]]
  /\ exists enhanced_heads,
      clean_eheads [["_"]; ["_"]; ["0"]] = Ok enhanced_heads
      /\ length enhanced_heads <= 3.
Proof.
  assert (H : Forall (fun x_list => placeholders x_list <= 1)
                     [["_"]; ["_"]; ["0"]]).
  { repeat constructor. }
  split; [exact H |].
  exact (clean_eheads_single_placeholders [["_"]; ["_"]; ["0"]] H).
Defined.

(** ** The HeadMap *)

Lemma dict_get_set : forall (V : Type) (d : dict V) k v k',
    dict_get (dict_set d k v) k'
    = if String.eqb k' k then Some v else dict_get d k'.
Proof.
  intros V d k v k'. induction d as [| [k0 v0] d IH]; simpl.
  - destruct (String.eqb k' k); reflexivity.
  - destruct (String.eqb k k0) eqn:Hk; simpl.
    + apply String.eqb_eq in Hk. subst k0.
      destruct (String.eqb k' k); reflexivity.
    + destruct (String.eqb k' k0) eqn:Hk'; [| apply IH].
      apply String.eqb_eq in Hk'. subst k0.
      rewrite String.eqb_sym, Hk. reflexivity.
Qed.

Lemma keys_dict_set_absent : forall (V : Type) (d : dict V) k v,
    ~ In k (keys d) -> dict_set d k v = d ++ [(k, v)].
Proof.
  intros V d k v. induction d as [| [k0 v0] d IH]; simpl; intros Hn.
  - reflexivity.
  - destruct (String.eqb k k0) eqn:Hk.
    + apply String.eqb_eq in Hk. subst. exfalso. apply Hn. now left.
    + rewrite IH; [reflexivity |]. intros H. apply Hn. now right.
Qed.

Lemma NoDup_keys_dict_set : forall (V : Type) (d : dict V) k v,
    NoDup (keys d) -> NoDup (keys (dict_set d k v)).
Proof.
  intros V d k v Hd. destruct (in_dec string_dec k (keys d)) as [Hin | Hn].
  - now rewrite keys_dict_set_present.
  - rewrite keys_dict_set_absent by assumption. unfold keys.
    rewrite map_app. simpl. apply NoDup_app.
    + assumption.
    + constructor; [intros [] | constructor].
    + intros x Hx [E | []]. subst. contradiction.
Qed.

Lemma NoDup_keys_fold_dict_set :
  forall (V : Type) (v : V) (ks : list string) (d : dict V),
    NoDup (keys d) ->
    NoDup (keys (fold_left (fun d k => dict_set d k v) ks d)).
Proof.
  intros V v ks. induction ks as [| k ks IH]; intros d Hd; simpl.
  - assumption.
  - apply IH. now apply NoDup_keys_dict_set.
Qed.

Lemma empty_heads_spec : forall ids,
    NoDup (keys (empty_heads ids))
    /\ (forall k, In k (keys (empty_heads ids)) <-> In k ids)
    /\ (forall k, In k ids -> dict_get (empty_heads ids) k = Some []).
Proof.
  intros ids. unfold empty_heads.
  assert (G : forall (d : dict (list string)),
             (forall k v, dict_get d k = Some v -> v = []) ->
             (forall k,
                 In k (keys (fold_left (fun d conllu_id =>
                                          dict_set d conllu_id []) ids d))
                 <-> In k ids \/ In k (keys d))
             /\ (forall k v,
                    dict_get (fold_left (fun d conllu_id =>
                                           dict_set d conllu_id []) ids d) k
                    = Some v -> v = [])).
  { induction ids as [| id ids IH]; intros d Hd; simpl.
    - split; [intros k; tauto | assumption].
    - destruct (IH (dict_set d id [])) as [Hk Hv].
      + intros k v. rewrite dict_get_set.
        destruct (String.eqb k id); [congruence | apply Hd].
      + split; [| assumption].
        intros k. rewrite Hk, keys_dict_set. intuition congruence. }
  destruct (G []) as [Hk Hv]; [intros k v; discriminate |].
  split; [| split].
  - apply NoDup_keys_fold_dict_set. constructor.
  - intros k. rewrite Hk. simpl. tauto.
  - intros k Hin. assert (Hin' : In k (keys (fold_left
                                    (fun (d : dict (list string)) conllu_id =>
                                       dict_set d conllu_id []) ids [])))
      by (apply Hk; now left).
    apply dict_get_keys in Hin'. destruct Hin' as [v Hvk].
    rewrite Hvk. f_equal. now apply Hv with k.
Qed.

Lemma dict_set_same : forall (V : Type) (d : dict V) k v,
    dict_get d k = Some v -> dict_set d k v = d.
Proof.
  intros V d k v. induction d as [| [k0 v0] d IH]; simpl; [discriminate |].
  destruct (String.eqb k k0) eqn:Hk.
  - intros H. congruence.
  - intros H. f_equal. now apply IH.
Qed.

Lemma dict_set_twice : forall (V : Type) (d : dict V) k v v',
    dict_set (dict_set d k v) k v' = dict_set d k v'.
Proof.
  intros V d k v v'. induction d as [| [k0 v0] d IH]; simpl.
  - now rewrite String.eqb_refl.
  - destruct (String.eqb k k0) eqn:Hk; simpl; rewrite Hk.
    + reflexivity.
    + now rewrite IH.
Qed.

Lemma foldM_dict_append : forall d id v hl,
    dict_get d id = Some v ->
    foldM (fun d head => dict_append d id head) hl d
    = Ok (dict_set d id (v ++ hl)).
Proof.
  intros d id v hl. revert d v. induction hl as [| h hl IH]; intros d v Hv.
  - simpl. rewrite app_nil_r. f_equal. symmetry. now apply dict_set_same.
  - simpl. unfold dict_append at 1. rewrite Hv. cbn [bind].
    rewrite (IH _ (v ++ [h])).
    + f_equal. rewrite <- app_assoc. simpl. apply dict_set_twice.
    + rewrite dict_get_set, String.eqb_refl. reflexivity.
Qed.

(** The heads the entries of [l] give to the key [k], in order. *)
Lemma fill_heads_spec : forall ids enhanced_heads d,
    (forall id, In id ids -> In id (keys d)) ->
    exists d',
      fill_heads ids enhanced_heads d = Ok d'
      /\ keys d' = keys d
      /\ forall k v,
          dict_get d k = Some v ->
          dict_get d' k
          = Some (v ++ concat
                         (map snd
                              (filter (fun p => String.eqb (fst p) k)
                                      (combine ids enhanced_heads)))).
Proof.
  unfold fill_heads. intros ids enhanced_heads.
  assert (G : forall (l : list (string * list string)) d,
             (forall p, In p l -> In (fst p) (keys d)) ->
             exists d',
               foldM (fun d entry =>
                        foldM (fun d head => dict_append d (fst entry) head)
                              (snd entry) d) l d = Ok d'
               /\ keys d' = keys d
               /\ forall k v,
                   dict_get d k = Some v ->
                   dict_get d' k
                   = Some (v ++ concat
                                  (map snd
                                       (filter
                                          (fun p => String.eqb (fst p) k)
                                          l)))).
  { induction l as [| [id hl] l IH]; intros d Hkeys.
    - exists d. simpl. repeat split. intros k v Hv.
      now rewrite app_nil_r.
    - simpl.
      destruct (proj1 (dict_get_keys _ d id) (Hkeys (id, hl) (or_introl eq_refl)))
        as [v0 Hv0].
      rewrite (foldM_dict_append d id v0 hl Hv0). cbn [bind].
      assert (Hk1 : keys (dict_set d id (v0 ++ hl)) = keys d).
      { apply keys_dict_set_present. apply dict_get_keys. eauto. }
      destruct (IH (dict_set d id (v0 ++ hl))) as [d' [E [K Hget]]].
      + intros p Hp. rewrite Hk1. apply Hkeys. now right.
      + exists d'. split; [assumption |]. split; [congruence |].
        intros k v Hv.
        destruct (String.eqb id k) eqn:Hidk.
        * apply String.eqb_eq in Hidk. subst k.
          rewrite (Hget id (v0 ++ hl)).
          -- simpl. assert (v = v0) by congruence. subst.
             now rewrite <- app_assoc.
          -- rewrite dict_get_set, String.eqb_refl. reflexivity.
        * rewrite (Hget k v); [reflexivity |].
          rewrite dict_get_set, String.eqb_sym, Hidk. assumption. }
  intros d Hkeys. apply G.
  intros [id hl] Hp. apply Hkeys. simpl. now apply in_combine_l in Hp.
Qed.

(** X7. The HeadMap of a sentence has each retained id as a key exactly
    once (an id that occurs on several tokens gets one entry), has no other
    key, and gives to a key the heads of all the tokens with that id, in
    sentence order. *)
Theorem head_map_contents : forall (annotated_sentence : Sentence) m,
    extract_heads annotated_sentence = Ok m ->
    exists ids enhanced_heads,
      clean_ids (map Token.id annotated_sentence) = Ok ids
      /\ clean_eheads
           (convert_deps_to_nested_list (map Token.deps annotated_sentence))
         = Ok enhanced_heads
      /\ length ids = length enhanced_heads
      /\ NoDup (keys m)
      /\ (forall k, In k (keys m) <-> In k ids)
      /\ (forall k,
             In k ids ->
             dict_get m k
             = Some (concat
                       (map snd
                            (filter (fun p => String.eqb (fst p) k)
                                    (combine ids enhanced_heads))))).
Proof.
  intros annotated_sentence m. unfold extract_heads.
  destruct (clean_ids _) as [ids |] eqn:Hids; cbn [bind]; [| discriminate].
  destruct (clean_eheads _) as [hs |] eqn:Hhs; cbn [bind]; [| discriminate].
  destruct (Nat.eqb (length ids) (length hs)) eqn:Hlen; [| discriminate].
  apply Nat.eqb_eq in Hlen. intros Hm.
  destruct (empty_heads_spec ids) as [Hnd [Hkeys Hget]].
  destruct (fill_heads_spec ids hs (empty_heads ids)) as [d' [E [K G]]].
  { intros id Hid. now apply Hkeys. }
  rewrite E in Hm. inversion Hm; subst d'.
  exists ids, hs. repeat split; try assumption; try reflexivity.
  - now rewrite K.
  - rewrite K. apply Hkeys.
  - rewrite K. apply Hkeys.
  - intros k Hk. rewrite (G k [] (Hget k Hk)). reflexivity.
Qed.

(** Two tokens share the id "1": their heads are gathered under one key. *)
Lemma head_map_contents_witness :
  exists ids enhanced_heads,
    clean_ids ["1"; "1"; "2"] = Ok ids
    /\ clean_eheads [["0"]; ["2"]; ["1"]] = Ok enhanced_heads
    /\ length ids = length enhanced_heads
    /\ NoDup (keys [("1", ["0"; "2"]); ("2", ["1"])])
    /\ (forall k, In k (keys [("1", ["0"; "2"]); ("2", ["1"])]) <-> In k ids)
    /\ (forall k,
           In k ids ->
           dict_get [("1", ["0"; "2"]); ("2", ["1"])] k
           = Some (concat
                     (map snd
                          (filter (fun p => String.eqb (fst p) k)
                                  (combine ids enhanced_heads))))).
Proof.
  exact (head_map_contents
           [tok "1" "0:root"; tok "1" "2:x"; tok "2" "1:y"]
           [("1", ["0"; "2"]); ("2", ["1"])] eq_refl).
Defined.

Lemma dict_get_app_absent : forall (V : Type) (pre post : dict V) k,
    ~ In k (keys pre) -> dict_get (pre ++ post) k = dict_get post k.
Proof.
  intros V pre post k. induction pre as [| [k0 v0] pre IH]; simpl; intros Hn.
  - reflexivity.
  - destruct (String.eqb k k0) eqn:Hk.
    + apply String.eqb_eq in Hk. subst. exfalso. apply Hn. now left.
    + apply IH. intros H. apply Hn. now right.
Qed.

Lemma dict_set_app_absent : forall (V : Type) (pre post : dict V) k v0 v,
    ~ In k (keys pre) ->
    dict_set (pre ++ (k, v0) :: post) k v = pre ++ (k, v) :: post.
Proof.
  intros V pre post k v0 v. induction pre as [| [k0 v1] pre IH]; simpl;
    intros Hn.
  - now rewrite String.eqb_refl.
  - destruct (String.eqb k k0) eqn:Hk.
    + apply String.eqb_eq in Hk. subst. exfalso. apply Hn. now left.
    + rewrite IH; [reflexivity |]. intros H. apply Hn. now right.
Qed.

Lemma empty_heads_distinct : forall ids,
    NoDup ids ->
    empty_heads ids = map (fun id => (id, @nil string)) ids.
Proof.
  intros ids. unfold empty_heads.
  assert (G : forall (d : dict (list string)),
             NoDup (keys d ++ ids) ->
             fold_left (fun d conllu_id => dict_set d conllu_id []) ids d
             = d ++ map (fun id => (id, @nil string)) ids).
  { induction ids as [| id ids IH]; intros d Hnd; simpl.
    - now rewrite app_nil_r.
    - assert (Hn : ~ In id (keys d)).
      { apply NoDup_remove_2 in Hnd. intros H. apply Hnd.
        apply in_or_app. now left. }
      rewrite (keys_dict_set_absent _ d id [] Hn), IH.
      + rewrite <- app_assoc. reflexivity.
      + unfold keys in *. rewrite map_app, <- app_assoc. assumption. }
  intros Hnd. apply (G []). assumption.
Qed.

Lemma fill_heads_distinct : forall ids enhanced_heads pre,
    length ids = length enhanced_heads ->
    NoDup (keys pre ++ ids) ->
    fill_heads ids enhanced_heads
               (pre ++ map (fun id => (id, @nil string)) ids)
    = Ok (pre ++ combine ids enhanced_heads).
Proof.
  unfold fill_heads.
  induction ids as [| id ids IH]; intros enhanced_heads pre Hlen Hnd.
  - reflexivity.
  - destruct enhanced_heads as [| hl enhanced_heads]; [discriminate |].
    simpl in Hlen. injection Hlen as Hlen.
    assert (Hn : ~ In id (keys pre)).
    { apply NoDup_remove_2 in Hnd. intros H. apply Hnd.
      apply in_or_app. now left. }
    cbn [combine map foldM fst snd].
    rewrite (foldM_dict_append _ id [] hl).
    + cbn [bind app]. rewrite dict_set_app_absent by assumption.
      replace (pre ++ (id, hl) :: map (fun id0 => (id0, [])) ids)
        with ((pre ++ [(id, hl)]) ++ map (fun id0 => (id0, @nil string)) ids)
        by (rewrite <- app_assoc; reflexivity).
      rewrite IH.
      * rewrite <- app_assoc. reflexivity.
      * assumption.
      * unfold keys in *. rewrite map_app, <- app_assoc. assumption.
    + rewrite dict_get_app_absent by assumption. simpl.
      now rewrite String.eqb_refl.
Qed.

(** X6. When the retained ids are pairwise distinct, the HeadMap is the
    list of the retained ids in sentence order, each paired with its own
    head list. *)
Theorem head_map_of_distinct_ids :
  forall (annotated_sentence : Sentence) ids enhanced_heads,
    clean_ids (map Token.id annotated_sentence) = Ok ids ->
    clean_eheads
      (convert_deps_to_nested_list (map Token.deps annotated_sentence))
    = Ok enhanced_heads ->
    length ids = length enhanced_heads ->
    NoDup ids ->
    extract_heads annotated_sentence = Ok (combine ids enhanced_heads).
Proof.
  intros annotated_sentence ids hs Hids Hhs Hlen Hnd.
  unfold extract_heads. rewrite Hids, Hhs. cbn [bind].
  apply Nat.eqb_eq in Hlen. rewrite Hlen. apply Nat.eqb_eq in Hlen.
  rewrite (empty_heads_distinct ids Hnd).
  apply (fill_heads_distinct ids hs [] Hlen). assumption.
Qed.

Lemma head_map_of_distinct_ids_witness :
  clean_ids (map Token.id ex_mixed) = Ok ["1"; "2"; "3"; "4"]
  /\ extract_heads ex_mixed
     = Ok [("1", ["2"; "4"]); ("2", ["3"]); ("3", ["2"]); ("4", ["0"])].
Proof.
  split; [reflexivity |].
  apply (head_map_of_distinct_ids ex_mixed ["1"; "2"; "3"; "4"]
           [["2"; "4"]; ["3"]; ["2"]; ["0"]]).
  - reflexivity.
  - reflexivity.
  - reflexivity.
  - repeat constructor; simpl; intuition discriminate.
Defined.

(** ** What the reachable list holds *)

Lemma reach_from_root_heads : forall ps h,
    reach ps ["0"] h ->
    h = "0" \/ reach ps (tokens_with_head "0" ps) h.
Proof.
  intros ps h. induction 1 as [y Hy | t h' Hin _ IH].
  - destruct Hy as [E | []]. now left.
  - right. destruct IH as [E | IH].
    + subst h'. apply reach_init. now apply in_tokens_with_head.
    + now apply reach_step with h'.
Qed.

Lemma reach_root_heads_from_root : forall ps x,
    reach ps (tokens_with_head "0" ps) x ->
    exists h, In (x, h) ps /\ reach ps ["0"] h.
Proof.
  intros ps x. induction 1 as [y Hy | t h Hin _ IH].
  - exists "0". split; [now apply in_tokens_with_head |].
    apply reach_init. now left.
  - exists h. split; [assumption |].
    destruct IH as [h' [Hh' Hr]]. now apply reach_step with h'.
Qed.

(** X8. When some token of the sentence is headed by ROOT, the final
    [nodes_reachable_from_root] holds exactly the tokens that have a head
    which is ROOT ["0"] or can be reached from ROOT through the
    (token, head) pairs of the HeadMap: the search is sound and complete,
    whatever value [root_index] had before. *)
Theorem reachable_list_is_closure :
  forall root_index (annotated_sentence : Sentence) a,
    analyse root_index annotated_sentence = Ok a ->
    (exists token_id, In (token_id, "0") (pairs (ids_to_heads a))) ->
    forall x,
      In x (nodes_reachable_from_root a)
      <-> exists head,
          In (x, head) (pairs (ids_to_heads a))
          /\ reach (pairs (ids_to_heads a)) ["0"] head.
Proof.
  intros root_index annotated_sentence a Ha [t Ht] x.
  pose proof (analyse_reachability _ _ _ Ha) as Hr.
  destruct (reachability_with_root (ids_to_heads a) root_index t Ht)
    as [r [E [_ H]]].
  rewrite E in Hr. injection Hr as Hri Hnodes. rewrite <- Hnodes, H.
  split.
  - apply reach_root_heads_from_root.
  - intros [h [Hin Hh]]. apply reach_from_root_heads in Hh.
    destruct Hh as [E0 | Hh].
    + subst h. apply reach_init. now apply in_tokens_with_head.
    + now apply reach_step with h.
Qed.

Lemma reachable_list_is_closure_witness :
  (exists token_id,
      In (token_id, "0")
         (pairs [("1", ["0"]); ("2", ["1"]); ("3", ["5"]); ("4", ["3"])]))
  /\ forall x,
      In x ["1"; "2"]
      <-> exists head,
          In (x, head)
             (pairs [("1", ["0"]); ("2", ["1"]); ("3", ["5"]); ("4", ["3"])])
          /\ reach
               (pairs [("1", ["0"]); ("2", ["1"]); ("3", ["5"]); ("4", ["3"])])
               ["0"] head.
Proof.
  assert (H : exists token_id,
             In (token_id, "0")
                (pairs [("1", ["0"]); ("2", ["1"]); ("3", ["5"]);
                        ("4", ["3"])])).
  { exists "1". simpl. now left. }
  split; [exact H |].
  exact (reachable_list_is_closure None ex_dangling
           (mkAnalysis [("1", ["0"]); ("2", ["1"]); ("3", ["5"]); ("4", ["3"])]
                       (Some "1") ["1"; "2"] ["1"; "2"] ["3"; "4"]
                       [("5", ["3"]); ("3", ["4"])] ["5"] [("5", ["3"])])
           eq_refl H).
Defined.

(** ** The unreachable nodes *)

Lemma find_unreachable_in : forall m nodes t,
    In t (find_unreachable m nodes)
    <-> exists h, In (t, h) (pairs m) /\ h <> "0" /\ ~ In h nodes.
Proof.
  intros m nodes t. unfold find_unreachable.
  rewrite (fold_left_pairs _
             (fun unreachable_nodes token_id head =>
                if negb (String.eqb head "0") && negb (mem head nodes)
                then unreachable_nodes ++ [token_id]
                else unreachable_nodes)).
  assert (G : forall ps acc,
             In t (fold_left
                     (fun unreachable_nodes (p : string * string) =>
                        if negb (String.eqb (snd p) "0")
                           && negb (mem (snd p) nodes)
                        then unreachable_nodes ++ [fst p]
                        else unreachable_nodes) ps acc)
             <-> In t acc
                 \/ exists h, In (t, h) ps /\ h <> "0" /\ ~ In h nodes).
  { induction ps as [| [t0 h0] ps IH]; intros acc; simpl.
    - split; [auto | intros [H | [h [[] _]]]; assumption].
    - rewrite IH. clear IH.
      destruct (String.eqb h0 "0") eqn:H0; simpl.
      + apply String.eqb_eq in H0. subst h0. split.
        * intros [H | [h [Hin Hh]]]; [now left |].
          right. exists h. split; [now right | assumption].
        * intros [H | [h [[E | Hin] [Hh1 Hh2]]]]; [now left | |].
          -- inversion E; subst. contradiction.
          -- right. exists h. auto.
      + apply String.eqb_neq in H0.
        destruct (mem h0 nodes) eqn:Hm; simpl.
        * apply mem_In in Hm. split.
          -- intros [H | [h [Hin Hh]]]; [now left |].
             right. exists h. split; [now right | assumption].
          -- intros [H | [h [[E | Hin] [Hh1 Hh2]]]]; [now left | |].
             ++ inversion E; subst. contradiction.
             ++ right. exists h. auto.
        * apply mem_false in Hm. split.
          -- intros [H | [h [Hin Hh]]].
             ++ apply in_app_or in H. destruct H as [H | [E | []]].
                ** now left.
                ** subst t0. right. exists h0. split; [now left | auto].
             ++ right. exists h. split; [now right | assumption].
          -- intros [H | [h [[E | Hin] [Hh1 Hh2]]]].
             ++ left. apply in_or_app. now left.
             ++ inversion E; subst. left. apply in_or_app. right. now left.
             ++ right. exists h. auto. }
  rewrite G. simpl. tauto.
Qed.

(** X9. A token is collected in [unreachable_nodes] exactly when one of
    its heads is neither ["0"] nor in the reachable list; in particular
    every token of the HeadMap that is missing from the reachable list is
    collected (with any of its heads), so no disconnected token goes
    unnoticed. *)
Theorem unreachable_nodes_complete :
  forall root_index (annotated_sentence : Sentence) a,
    analyse root_index annotated_sentence = Ok a ->
    (forall token_id,
        In token_id (unreachable_nodes a)
        <-> exists head,
            In (token_id, head) (pairs (ids_to_heads a))
            /\ head <> "0"
            /\ ~ In head (nodes_reachable_from_root a))
    /\ (forall token_id head,
           In (token_id, head) (pairs (ids_to_heads a)) ->
           ~ In token_id (nodes_reachable_from_root a) ->
           In token_id (unreachable_nodes a)).
Proof.
  intros root_index annotated_sentence a Ha.
  destruct (analyse_ok _ _ _ Ha) as [_ [Hr [Hn [Hu _]]]].
  split.
  - intros t. rewrite Hu. apply find_unreachable_in.
  - intros t h Hin Hnot. rewrite Hu. apply find_unreachable_in.
    exists h. split; [assumption |].
    rewrite Hn in *.
    rewrite root_and_children_spec in Hr. split.
    + intros E. subst h. apply Hnot.
      apply search_dependents_reach. apply reach_init.
      destruct (new_root (pairs (ids_to_heads a)) root_index) as [r |].
      * inversion Hr. apply in_or_app. left.
        now apply in_tokens_with_head.
      * destruct (pairs (ids_to_heads a)); [contradiction | discriminate].
    + intros Hh. apply Hnot.
      now apply search_dependents_closed with h.
Qed.

Lemma unreachable_nodes_complete_witness :
  (forall token_id,
      In token_id ["1"; "2"; "3"]
      <-> exists head,
          In (token_id, head)
             (pairs [("1", ["2"; "4"]); ("2", ["3"]); ("3", ["2"]);
                     ("4", ["0"])])
          /\ head <> "0" /\ ~ In head ["4"; "1"])
  /\ (forall token_id head,
         In (token_id, head)
            (pairs [("1", ["2"; "4"]); ("2", ["3"]); ("3", ["2"]);
                    ("4", ["0"])]) ->
         ~ In token_id ["4"; "1"] -> In token_id ["1"; "2"; "3"]).
Proof.
  exact (unreachable_nodes_complete None ex_mixed
           (mkAnalysis [("1", ["2"; "4"]); ("2", ["3"]); ("3", ["2"]);
                        ("4", ["0"])]
                       (Some "4") ["4"; "1"] ["4"; "1"] ["1"; "2"; "3"]
                       [("2", ["1"; "3"]); ("4", ["1"]); ("3", ["2"])]
                       ["4"] [("4", ["1"])])
           eq_refl).
Defined.

(** ** The fragments *)

Section Fragments.
Variable m : dict (list string).

Lemma init_fragments_from : forall unreachable d,
    (forall t, In t unreachable -> exists hs, dict_get m t = Some hs) ->
    NoDup (keys d) ->
    (forall k v, dict_get d k = Some v -> v = []) ->
    exists fragments,
      foldM
        (fun fragments unreachable_node =>
           match dict_get m unreachable_node with
           | None => Raise KeyError
           | Some unreachable_heads =>
               Ok (fold_left
                     (fun (fragments : dict (list string)) unreachable_head =>
                        dict_set fragments unreachable_head [])
                     unreachable_heads fragments)
           end)
        unreachable d = Ok fragments
      /\ NoDup (keys fragments)
      /\ (forall k,
             In k (keys fragments)
             <-> In k (keys d) \/ exists t, In t unreachable /\ child_of m k t)
      /\ (forall k v, dict_get fragments k = Some v -> v = []).
Proof.
  induction unreachable as [| t unreachable IH]; intros d Hm Hnd Hv.
  - exists d. simpl. repeat split; try assumption.
    + intros H. now left.
    + intros [H | [t [[] _]]]. assumption.
  - simpl. destruct (Hm t (or_introl eq_refl)) as [hs Hhs].
    rewrite Hhs. cbn [bind].
    assert (Inner : forall hs0 (d0 : dict (list string)),
               NoDup (keys d0) ->
               (forall k v, dict_get d0 k = Some v -> v = []) ->
               NoDup (keys (fold_left
                              (fun (f : dict (list string)) h =>
                                 dict_set f h []) hs0 d0))
               /\ (forall k,
                      In k (keys (fold_left
                                    (fun (f : dict (list string)) h =>
                                       dict_set f h []) hs0 d0))
                      <-> In k (keys d0) \/ In k hs0)
               /\ (forall k v,
                      dict_get (fold_left
                                  (fun (f : dict (list string)) h =>
                                     dict_set f h []) hs0 d0) k = Some v ->
                      v = [])).
    { induction hs0 as [| h hs0 IHh]; intros d0 Hnd0 Hv0; simpl.
      - repeat split; try assumption; tauto.
      - destruct (IHh (dict_set d0 h [])) as [A [B C]].
        + now apply NoDup_keys_dict_set.
        + intros k v. rewrite dict_get_set.
          destruct (String.eqb k h); [congruence | apply Hv0].
        + repeat split; try assumption.
          * intros H. apply B in H. rewrite keys_dict_set in H.
            intuition congruence.
          * intros H. apply B. rewrite keys_dict_set.
            destruct H as [H | [H | H]]; auto. }
    destruct (Inner hs d Hnd Hv) as [A [B C]].
    destruct (IH _ (fun t0 H0 => Hm t0 (or_intror H0)) A C)
      as [fragments [E [F [G H]]]].
    exists fragments. repeat split; try assumption.
    + intros Hk. apply G in Hk. destruct Hk as [Hk | [t0 [Ht0 Hc]]].
      * apply B in Hk. destruct Hk as [Hk | Hk]; [now left |].
        right. exists t. split; [now left |]. now exists hs.
      * right. exists t0. split; [now right | assumption].
    + intros [Hk | [t0 [[E0 | Ht0] Hc]]]; apply G.
      * left. apply B. now left.
      * subst t0. destruct Hc as [hs' [Hhs' Hin]].
        left. apply B. right. congruence.
      * right. now exists t0.
Qed.

Lemma fill_fragments_from : forall unreachable fragments,
    (forall t, In t unreachable -> exists hs, dict_get m t = Some hs) ->
    (forall k t, In t unreachable -> child_of m k t -> In k (keys fragments)) ->
    exists filled,
      fill_fragments m unreachable fragments = Ok filled
      /\ keys filled = keys fragments
      /\ forall k v0,
          dict_get fragments k = Some v0 ->
          exists v,
            dict_get filled k = Some v
            /\ forall c,
                In c v <-> In c v0 \/ (In c unreachable /\ child_of m k c).
Proof.
  unfold fill_fragments.
  induction unreachable as [| t unreachable IH]; intros fragments Hm Hkeys.
  - exists fragments. simpl. repeat split. intros k v0 Hv0.
    exists v0. split; [assumption |]. intros c. tauto.
  - cbn [foldM]. destruct (Hm t (or_introl eq_refl)) as [hs Hhs].
    rewrite Hhs.
    assert (Inner : forall hs0 (f : dict (list string)),
               (forall h, In h hs0 -> In h (keys f)) ->
               exists f',
                 foldM
                   (fun (fragments : dict (list string)) unreachable_head =>
                      match dict_get fragments unreachable_head with
                      | Some children =>
                          Ok (dict_set fragments unreachable_head
                                       (children ++ [t]))
                      | None => Raise ValueError
                      end)
                   hs0 f = Ok f'
                 /\ keys f' = keys f
                 /\ forall k v0,
                     dict_get f k = Some v0 ->
                     exists v,
                       dict_get f' k = Some v
                       /\ forall c,
                           In c v <-> In c v0 \/ (c = t /\ In k hs0)).
    { induction hs0 as [| h hs0 IHh]; intros f Hf.
      - exists f. simpl. repeat split. intros k v0 Hv0.
        exists v0. split; [assumption |]. intros c. tauto.
      - cbn [foldM].
        destruct (proj1 (dict_get_keys _ f h) (Hf h (or_introl eq_refl)))
          as [ch Hch].
        rewrite Hch. cbn [bind].
        assert (K : keys (dict_set f h (ch ++ [t])) = keys f).
        { apply keys_dict_set_present. apply dict_get_keys. eauto. }
        destruct (IHh (dict_set f h (ch ++ [t]))) as [f' [E [K' G]]].
        + intros h' Hh'. rewrite K. apply Hf. now right.
        + exists f'. split; [assumption |]. split; [congruence |].
          intros k v0 Hv0. destruct (String.eqb k h) eqn:Hkh.
          * apply String.eqb_eq in Hkh. subst k.
            assert (v0 = ch) by congruence. subst v0.
            destruct (G h (ch ++ [t])) as [v [Hv Hc]].
            { rewrite dict_get_set, String.eqb_refl. reflexivity. }
            exists v. split; [assumption |]. intros c. rewrite Hc.
            rewrite in_app_iff. simpl. intuition (subst; auto).
          * destruct (G k v0) as [v [Hv Hc]].
            { rewrite dict_get_set, Hkh. assumption. }
            exists v. split; [assumption |]. intros c. rewrite Hc.
            apply String.eqb_neq in Hkh. simpl. intuition congruence. }
    destruct (Inner hs fragments) as [f' [E [K G]]].
    { intros h Hh. apply (Hkeys h t); [now left | now exists hs]. }
    rewrite E. cbn [bind].
    destruct (IH f') as [filled [E' [K' G']]].
    + intros t0 Ht0. apply Hm. now right.
    + intros k t0 Ht0 Hc. rewrite K. apply (Hkeys k t0); [now right |].
      assumption.
    + exists filled. split; [assumption |]. split; [congruence |].
      intros k v0 Hv0. destruct (G k v0 Hv0) as [v1 [Hv1 Hc1]].
      destruct (G' k v1 Hv1) as [v [Hv Hc]].
      exists v. split; [assumption |]. intros c. rewrite Hc, Hc1.
      unfold child_of. simpl. split.
      * intros [[H | [H1 H2]] | [H1 H2]]; auto.
        right. subst c. split; [now left |]. now exists hs.
      * intros [H | [[H | H] [hs' [Hhs' Hin]]]]; auto.
        -- subst c. left. right. split; [reflexivity |]. congruence.
        -- right. split; [assumption |]. now exists hs'.
Qed.
End Fragments.

Lemma in_dict_get : forall (V : Type) (d : dict V) k v,
    NoDup (keys d) -> In (k, v) d -> dict_get d k = Some v.
Proof.
  intros V d k v. induction d as [| [k0 v0] d IH]; simpl; intros Hnd Hin;
    [contradiction |].
  inversion Hnd as [| k0' ks Hn Hnd']; subst.
  destruct Hin as [E | Hin].
  - inversion E; subst. now rewrite String.eqb_refl.
  - destruct (String.eqb k k0) eqn:Hk.
    + apply String.eqb_eq in Hk. subst k0. exfalso. apply Hn.
      apply in_map_iff. now exists (k, v).
    + now apply IH.
Qed.

Lemma dict_get_in : forall (V : Type) (d : dict V) k v,
    dict_get d k = Some v -> In (k, v) d.
Proof.
  intros V d k v. induction d as [| [k0 v0] d IH]; simpl; [discriminate |].
  destruct (String.eqb k k0) eqn:Hk.
  - apply String.eqb_eq in Hk. subst. intros H. inversion H. now left.
  - intros H. right. now apply IH.
Qed.

(** Every collected node is a key of the HeadMap. *)
Lemma find_unreachable_keys : forall m nodes t,
    In t (find_unreachable m nodes) -> exists hs, dict_get m t = Some hs.
Proof.
  intros m nodes t Ht. apply find_unreachable_in in Ht.
  destruct Ht as [h [Hin _]]. apply in_pairs in Hin.
  destruct Hin as [hs [Hin _]]. apply dict_get_keys.
  apply in_map_iff. now exists (t, hs).
Qed.

(** The two loops of step 4 on the unreachable nodes of a HeadMap. *)
Lemma fragments_built : forall m nodes,
    exists empty_fragments fragments,
      init_fragments m (find_unreachable m nodes) = Ok empty_fragments
      /\ fill_fragments m (find_unreachable m nodes) empty_fragments
         = Ok fragments
      /\ NoDup (keys fragments)
      /\ (forall k,
             In k (keys fragments)
             <-> exists c,
                 In c (find_unreachable m nodes) /\ child_of m k c)
      /\ (forall k children,
             In (k, children) fragments ->
             forall c,
               In c children
               <-> In c (find_unreachable m nodes) /\ child_of m k c).
Proof.
  intros m nodes.
  destruct (init_fragments_from m (find_unreachable m nodes) [])
    as [f0 [E0 [Hnd [Hk Hv]]]].
  - apply find_unreachable_keys.
  - constructor.
  - intros k v. discriminate.
  - destruct (fill_fragments_from m (find_unreachable m nodes) f0)
      as [f [E [K G]]].
    + apply find_unreachable_keys.
    + intros k t Ht Hc. apply Hk. right. now exists t.
    + exists f0, f. unfold init_fragments. rewrite E0.
      split; [reflexivity |]. split; [assumption |].
      split; [now rewrite K |]. split.
      * intros k. rewrite K, Hk. split.
        -- intros [[] | H]. assumption.
        -- intros H. now right.
      * intros k children Hin c.
        assert (Hget : dict_get f k = Some children)
          by (apply in_dict_get; [now rewrite K | assumption]).
        assert (Hin0 : In k (keys f0)).
        { rewrite <- K. apply in_map_iff. now exists (k, children). }
        apply dict_get_keys in Hin0. destruct Hin0 as [v0 Hv0].
        destruct (G k v0 Hv0) as [v [Hv' Hc']].
        assert (v = children) by congruence. subst v.
        rewrite Hc', (Hv k v0 Hv0). simpl. tauto.
Qed.

(** X10. The analysis of a sentence never raises [KeyError] or
    [ValueError]: every unreachable node is a key of the HeadMap, and each
    of its heads has been given a bucket by the first loop of step 4, so
    the branch "could not find head for token" is never taken.  What can
    be raised is the assertion error, an index error, or the error of the
    unassigned [root_index]. *)
Theorem analyse_exceptions : forall root_index (annotated_sentence : Sentence),
    match analyse root_index annotated_sentence with
    | Ok _ => True
    | Raise e => e = AssertionError \/ e = IndexError \/ e = NameError
    end.
Proof.
  intros root_index annotated_sentence. unfold analyse.
  destruct (extract_heads annotated_sentence) as [m | e] eqn:Hm; cbn [bind].
  - rewrite root_and_children_spec.
    destruct (new_root (pairs m) root_index) as [r |]; cbn [bind fst snd].
    + destruct (fragments_built m
                  (search_dependents m
                     (tokens_with_head "0" (pairs m)
                      ++ tokens_with_head r (pairs m))))
        as [f0 [f [E0 [E _]]]].
      rewrite E0. cbn [bind]. rewrite E. cbn [bind].
      destruct (collapse f (keys f)) as [survivors | e] eqn:Hc; cbn [bind];
        [exact I |].
      right. left. unfold collapse, for_enumerate in Hc.
      apply (enumerate_loop_raise _ _ (fun e => e = IndexError)) in Hc;
        [assumption |].
      intros i x l e'. unfold collapse_body.
      apply (foldM_raise _ _ _ (fun e => e = IndexError)).
      intros st fr e''. destruct (mem x (snd fr)); [| discriminate].
      apply del_at_raise.
    + destruct (pairs m) eqn:Hps; cbn [bind fst snd].
      * destruct (fragments_built m (search_dependents m []))
          as [f0 [f [E0 [E _]]]].
        rewrite E0. cbn [bind]. rewrite E. cbn [bind].
        destruct (collapse f (keys f)) as [survivors | e] eqn:Hc;
          cbn [bind]; [exact I |].
        right. left. unfold collapse, for_enumerate in Hc.
        apply (enumerate_loop_raise _ _ (fun e => e = IndexError)) in Hc;
          [assumption |].
        intros i x l0 e'. unfold collapse_body.
        apply (foldM_raise _ _ _ (fun e => e = IndexError)).
        intros st fr e''. destruct (mem x (snd fr)); [| discriminate].
        apply del_at_raise.
      * right. right. reflexivity.
  - unfold extract_heads in Hm.
    destruct (clean_ids_total (map Token.id annotated_sentence))
      as [ids Hids].
    rewrite Hids in Hm. cbn [bind] in Hm.
    destruct (clean_eheads _) as [hs | e'] eqn:Hhs; cbn [bind] in Hm.
    + destruct (Nat.eqb (length ids) (length hs)).
      * destruct (fill_heads_total ids hs (empty_heads ids)
                    (keys_empty_heads ids)) as [m [Hfill _]].
        rewrite Hfill in Hm. discriminate.
      * inversion Hm. now left.
    + inversion Hm; subst. right. left. now apply clean_eheads_raise in Hhs.
Qed.

(** X11. The fragments of a sentence have each head of an unreachable node
    as a key exactly once and no other key, and the children of a key are
    exactly the unreachable nodes that have the key among their heads:
    also heads that are ["0"] or reachable become keys when the node has
    another head that is not. *)
Theorem fragments_contents :
  forall root_index (annotated_sentence : Sentence) a,
    analyse root_index annotated_sentence = Ok a ->
    NoDup (keys (unreachable_head_fragments a))
    /\ (forall k,
           In k (keys (unreachable_head_fragments a))
           <-> exists c,
               In c (unreachable_nodes a)
               /\ child_of (ids_to_heads a) k c)
    /\ (forall k children,
           In (k, children) (unreachable_head_fragments a) ->
           forall c,
             In c children
             <-> In c (unreachable_nodes a)
                 /\ child_of (ids_to_heads a) k c).
Proof.
  intros root_index annotated_sentence a Ha.
  destruct (analyse_ok _ _ _ Ha) as [_ [_ [_ [Hu [[ef [Hef Hf]] _]]]]].
  destruct (fragments_built (ids_to_heads a) (nodes_reachable_from_root a))
    as [f0 [f [E0 [E H]]]].
  rewrite <- Hu in *. rewrite E0 in Hef. injection Hef as Hef. subst ef.
  rewrite E in Hf. injection Hf as Hf. subst f. exact H.
Qed.

Lemma fragments_contents_witness :
  NoDup (keys [("2", ["1"; "3"]); ("4", ["1"]); ("3", ["2"])])
  /\ (forall k,
         In k (keys [("2", ["1"; "3"]); ("4", ["1"]); ("3", ["2"])])
         <-> exists c,
             In c ["1"; "2"; "3"]
             /\ child_of [("1", ["2"; "4"]); ("2", ["3"]); ("3", ["2"]);
                          ("4", ["0"])] k c)
  /\ (forall k children,
         In (k, children) [("2", ["1"; "3"]); ("4", ["1"]); ("3", ["2"])] ->
         forall c,
           In c children
           <-> In c ["1"; "2"; "3"]
               /\ child_of [("1", ["2"; "4"]); ("2", ["3"]); ("3", ["2"]);
                            ("4", ["0"])] k c).
Proof.
  exact (fragments_contents None ex_mixed
           (mkAnalysis [("1", ["2"; "4"]); ("2", ["3"]); ("3", ["2"]);
                        ("4", ["0"])]
                       (Some "4") ["4"; "1"] ["4"; "1"] ["1"; "2"; "3"]
                       [("2", ["1"; "3"]); ("4", ["1"]); ("3", ["2"])]
                       ["4"] [("4", ["1"])])
           eq_refl).
Defined.

(** ** Survivors and the pruned tree *)

Lemma skipn_keeps : forall (A : Type) c (passed rest : list A),
    (forall x, In x (passed ++ skipn c rest) -> In x (passed ++ rest))
    /\ (NoDup (passed ++ rest) -> NoDup (passed ++ skipn c rest)).
Proof.
  intros A c. induction c as [| c IH]; intros passed rest.
  - simpl. auto.
  - destruct rest as [| y rest]; [simpl; auto |].
    simpl skipn. destruct (IH passed rest) as [Hin Hnd]. split.
    + intros x Hx. apply Hin in Hx. apply in_app_or in Hx.
      apply in_or_app. destruct Hx as [Hx | Hx]; [now left |].
      right. now right.
    + intros H. apply Hnd. now apply NoDup_remove_1 in H.
Qed.

(** The collapse only deletes. *)
Lemma collapse_loop_keeps : forall fragments fuel i l res,
    enumerate_loop (collapse_body fragments) fuel i l = Ok res ->
    (forall k, In k res -> In k l) /\ (NoDup l -> NoDup res).
Proof.
  intros fragments. induction fuel as [| fuel IH]; intros i l res H;
    simpl in H.
  - inversion H. auto.
  - destruct (nth_error l i) as [k |] eqn:Hk; [| inversion H; auto].
    destruct (collapse_body fragments i k l) as [l' |] eqn:Hb;
      cbn [bind] in H; [| discriminate].
    assert (Hi : length (firstn i l) = i).
    { apply firstn_length_le.
      assert (i < length l) by (apply nth_error_Some; congruence). lia. }
    apply (collapse_body_ok fragments) in Hb; [| assumption].
    destruct (IH _ _ _ H) as [Hin Hnd].
    destruct (skipn_keeps _ (hits fragments k) (firstn i l) (skipn i l))
      as [Hin' Hnd'].
    rewrite firstn_skipn in Hin', Hnd'. rewrite <- Hb in Hin', Hnd'.
    split.
    + intros x Hx. apply Hin', Hin, Hx.
    + intros Hl. apply Hnd, Hnd', Hl.
Qed.

Lemma populate_inner_absent :
  forall (fragments pruned : dict (list string)) k,
    ~ In k (keys fragments) ->
    fold_left
      (fun (pruned_tree : dict (list string)) fragment =>
         if String.eqb k (fst fragment)
         then dict_set pruned_tree k (snd fragment)
         else pruned_tree)
      fragments pruned = pruned.
Proof.
  induction fragments as [| [p c] fragments IH]; intros pruned k Hn; simpl.
  - reflexivity.
  - destruct (String.eqb k p) eqn:Hk.
    + apply String.eqb_eq in Hk. subst. exfalso. apply Hn. now left.
    + apply IH. intros H. apply Hn. now right.
Qed.

Lemma populate_inner_present :
  forall (fragments pruned : dict (list string)) k children,
    NoDup (keys fragments) ->
    dict_get fragments k = Some children ->
    fold_left
      (fun (pruned_tree : dict (list string)) fragment =>
         if String.eqb k (fst fragment)
         then dict_set pruned_tree k (snd fragment)
         else pruned_tree)
      fragments pruned = dict_set pruned k children.
Proof.
  induction fragments as [| [p c] fragments IH];
    intros pruned k children Hnd Hget; simpl in *; [discriminate |].
  inversion Hnd as [| p' ps Hn Hnd']; subst.
  destruct (String.eqb k p) eqn:Hk.
  - apply String.eqb_eq in Hk. subst p. inversion Hget; subst.
    now apply populate_inner_absent.
  - now apply IH.
Qed.

(** The children the fragments give to [k]. *)
Lemma populate_pruned_spec : forall fragments survivors,
    NoDup (keys fragments) ->
    NoDup survivors ->
    (forall k, In k survivors -> In k (keys fragments)) ->
    keys (populate_pruned fragments survivors) = survivors
    /\ forall k,
        In k survivors ->
        exists children,
          dict_get fragments k = Some children
          /\ dict_get (populate_pruned fragments survivors) k
             = Some children.
Proof.
  intros fragments survivors Hf. unfold populate_pruned.
  assert (G : forall surv (pruned : dict (list string)),
             NoDup (keys pruned ++ surv) ->
             (forall k, In k surv -> In k (keys fragments)) ->
             let result :=
               fold_left
                 (fun pruned_tree head_of_fragment =>
                    fold_left
                      (fun (pruned_tree : dict (list string)) fragment =>
                         if String.eqb head_of_fragment (fst fragment)
                         then dict_set pruned_tree head_of_fragment
                                       (snd fragment)
                         else pruned_tree)
                      fragments pruned_tree)
                 surv pruned in
             keys result = keys pruned ++ surv
             /\ (forall k v, dict_get pruned k = Some v ->
                             dict_get result k = Some v)
             /\ forall k,
                 In k surv ->
                 exists children,
                   dict_get fragments k = Some children
                   /\ dict_get result k = Some children).
  { induction surv as [| k surv IH]; intros pruned Hnd Hin; simpl.
    - rewrite app_nil_r. repeat split; auto. intros k [].
    - destruct (proj1 (dict_get_keys _ fragments k) (Hin k (or_introl eq_refl)))
        as [ch Hch].
      rewrite (populate_inner_present fragments pruned k ch Hf Hch).
      assert (Hn : ~ In k (keys pruned)).
      { apply NoDup_remove_2 in Hnd. intros H. apply Hnd.
        apply in_or_app. now left. }
      assert (Hset : dict_set pruned k ch = pruned ++ [(k, ch)])
        by now apply keys_dict_set_absent.
      assert (Hkeys : keys (dict_set pruned k ch) = keys pruned ++ [k]).
      { rewrite Hset. unfold keys. now rewrite map_app. }
      destruct (IH (dict_set pruned k ch)) as [A [B C]].
      + rewrite Hkeys, <- app_assoc. assumption.
      + intros k' Hk'. apply Hin. now right.
      + split; [| split].
        * rewrite A, Hkeys, <- app_assoc. reflexivity.
        * intros k' v Hv. apply B. rewrite dict_get_set.
          destruct (String.eqb k' k) eqn:Hk'; [| assumption].
          apply String.eqb_eq in Hk'. subst k'. exfalso. apply Hn.
          apply dict_get_keys. eauto.
        * intros k' [E | Hk'].
          -- subst k'. exists ch. split; [assumption |].
             apply B. rewrite dict_get_set, String.eqb_refl. reflexivity.
          -- now apply C. }
  intros Hs Hin. destruct (G survivors [] Hs Hin) as [A [_ C]].
  split; assumption.
Qed.

(** X12. The survivors of the collapse are keys of the fragments, without
    repetition, and the pruned tree has exactly the survivors as keys, in
    their order, each with the children list the fragments give it. *)
Theorem pruned_tree_contents :
  forall root_index (annotated_sentence : Sentence) a,
    analyse root_index annotated_sentence = Ok a ->
    keys (pruned_tree a) = heads_of_fragments a
    /\ NoDup (heads_of_fragments a)
    /\ (forall k, In k (heads_of_fragments a) ->
                  In k (keys (unreachable_head_fragments a)))
    /\ (forall k,
           In k (heads_of_fragments a) ->
           exists children,
             dict_get (unreachable_head_fragments a) k = Some children
             /\ dict_get (pruned_tree a) k = Some children).
Proof.
  intros root_index annotated_sentence a Ha.
  destruct (analyse_ok _ _ _ Ha) as [_ [_ [_ [Hu [[ef [Hef Hf]] [Hc Hp]]]]]].
  destruct (fragments_built (ids_to_heads a) (nodes_reachable_from_root a))
    as [f0 [f [E0 [E [Hnd _]]]]].
  rewrite <- Hu in *. rewrite E0 in Hef. injection Hef as Hef. subst ef.
  rewrite E in Hf. injection Hf as Hf. subst f.
  unfold collapse, for_enumerate in Hc.
  apply collapse_loop_keeps in Hc. destruct Hc as [Hin Hnd'].
  specialize (Hnd' Hnd).
  destruct (populate_pruned_spec (unreachable_head_fragments a)
              (heads_of_fragments a) Hnd Hnd' Hin) as [A B].
  rewrite Hp. repeat split; assumption.
Qed.

Lemma pruned_tree_contents_witness :
  keys [("4", ["1"])] = ["4"]
  /\ NoDup ["4"]
  /\ (forall k, In k ["4"] ->
                In k (keys [("2", ["1"; "3"]); ("4", ["1"]); ("3", ["2"])]))
  /\ (forall k,
         In k ["4"] ->
         exists children,
           dict_get [("2", ["1"; "3"]); ("4", ["1"]); ("3", ["2"])] k
           = Some children
           /\ dict_get [("4", ["1"])] k = Some children).
Proof.
  exact (pruned_tree_contents None ex_mixed
           (mkAnalysis [("1", ["2"; "4"]); ("2", ["3"]); ("3", ["2"]);
                        ("4", ["0"])]
                       (Some "4") ["4"; "1"] ["4"; "1"] ["1"; "2"; "3"]
                       [("2", ["1"; "3"]); ("4", ["1"]); ("3", ["2"])]
                       ["4"] [("4", ["1"])])
           eq_refl).
Defined.

Lemma foldM_del_at_once :
  forall (A B : Type) (cond : B -> bool) i (xs : list B) (l : list A),
    length (filter cond xs) <= 1 ->
    foldM (fun l x => if cond x then del_at i l else Ok l) xs l
    = if Nat.eqb (length (filter cond xs)) 0 then Ok l else del_at i l.
Proof.
  intros A B cond i xs. induction xs as [| x xs IH]; intros l Hle;
    cbn [foldM filter] in *.
  - reflexivity.
  - destruct (cond x) eqn:Hx; cbn [length] in *.
    + assert (Hz : length (filter cond xs) = 0) by lia.
      cbn [Nat.eqb].
      destruct (del_at i l) as [l' |]; cbn [bind]; [| reflexivity].
      rewrite IH by lia. now rewrite Hz.
    + cbn [bind]. now apply IH.
Qed.

(** X13. When every fragment key is a child in at most one fragment and no
    two neighbouring keys are both children, the collapse pass raises
    nothing and returns exactly the keys that are a child in no fragment,
    in order. *)
Theorem collapse_separated : forall fragments heads_of_fragments,
    Forall (fun k => hits fragments k <= 1) heads_of_fragments ->
    no_adjacent (fun k => negb (Nat.eqb (hits fragments k) 0))
                heads_of_fragments = true ->
    collapse fragments heads_of_fragments
    = Ok (filter (fun k => Nat.eqb (hits fragments k) 0) heads_of_fragments).
Proof.
  intros fragments heads Hone Hadj. unfold collapse, for_enumerate.
  transitivity
    (Ok ([] ++ filter
                 (fun k => negb (negb (Nat.eqb (hits fragments k) 0)))
                 heads)).
  2: { simpl. f_equal. apply filter_ext. intros k. apply negb_involutive. }
  apply (enumerate_loop_filter _ (collapse_body fragments)
           (fun k => negb (Nat.eqb (hits fragments k) 0))
           (length heads) heads []); [lia | | assumption].
  - apply Forall_forall. intros k Hk i l.
    rewrite Forall_forall in Hone. specialize (Hone k Hk).
    unfold collapse_body, hits in *.
    rewrite (foldM_del_at_once _ _ (fun fr => mem k (snd fr)) i fragments l
               Hone).
    destruct (Nat.eqb _ 0); reflexivity.
Qed.

Lemma collapse_separated_witness :
  Forall (fun k => hits [("5", ["3"]); ("3", ["4"]); ("8", ["9"])] k <= 1)
         ["5"; "3"; "8"]
  /\ collapse [("5", ["3"]); ("3", ["4"]); ("8", ["9"])] ["5"; "3"; "8"]
     = Ok ["5"; "8"].
Proof.
  assert (H : Forall (fun k => hits [("5", ["3"]); ("3", ["4"]); ("8", ["9"])]
                                    k <= 1) ["5"; "3"; "8"]).
  { repeat constructor. }
  split; [exact H |].
  exact (collapse_separated [("5", ["3"]); ("3", ["4"]); ("8", ["9"])]
           ["5"; "3"; "8"] H eq_refl).
Defined.

(** ** Sentences that need no repair *)

(** X14. A sentence in which every head of every token of the HeadMap is
    ["0"] or in the final reachable list is returned exactly as it came
    in: no field of any token is changed. *)
Theorem repair_of_connected_sentence :
  forall root_index (annotated_sentence : Sentence) a,
    analyse root_index annotated_sentence = Ok a ->
    (forall token_id head,
        In (token_id, head) (pairs (ids_to_heads a)) ->
        head = "0" \/ In head (nodes_reachable_from_root a)) ->
    repair_sentence root_index annotated_sentence
    = Ok (new_root_index a, annotated_sentence).
Proof.
  intros root_index annotated_sentence a Ha Hall.
  apply repair_without_unreachable; [assumption |].
  destruct (analyse_ok _ _ _ Ha) as [_ [_ [_ [Hu _]]]].
  destruct (unreachable_nodes a) as [| t u] eqn:Hnodes; [reflexivity |].
  exfalso.
  assert (Ht : In t (find_unreachable (ids_to_heads a)
                                      (nodes_reachable_from_root a)))
    by (rewrite <- Hu; now left).
  apply find_unreachable_in in Ht. destruct Ht as [h [Hin [H0 Hn]]].
  destruct (Hall t h Hin); contradiction.
Qed.

Lemma repair_of_connected_sentence_witness :
  (forall token_id head,
      In (token_id, head) (pairs [("1", ["0"]); ("2", ["1"]); ("3", ["2"])]) ->
      head = "0" \/ In head ["1"; "2"; "3"])
  /\ repair_sentence None ex_chain = Ok (Some "1", ex_chain).
Proof.
  assert (H : forall token_id head,
             In (token_id, head)
                (pairs [("1", ["0"]); ("2", ["1"]); ("3", ["2"])]) ->
             head = "0" \/ In head ["1"; "2"; "3"]).
  { simpl. intros token_id head [E | [E | [E | []]]]; inversion E; subst;
      simpl; auto. }
  split; [exact H |].
  exact (repair_of_connected_sentence None ex_chain
           (mkAnalysis [("1", ["0"]); ("2", ["1"]); ("3", ["2"])] (Some "1")
                       ["1"; "2"] ["1"; "2"; "3"] [] [] [] [])
           eq_refl H).
Defined.

(** ** Whole files *)

Lemma add_root_edges_frame : forall pruned (annotated_sentence : Sentence),
    Forall2
      (fun t t' =>
         same_but_deps t t'
         /\ (Token.deps t' = Token.deps t
             \/ Token.deps t' = (Token.deps t ++ "|0:root")%string))
      annotated_sentence (add_root_edges pruned annotated_sentence).
Proof.
  intros pruned annotated_sentence. unfold add_root_edges.
  induction annotated_sentence as [| t rest IH]; simpl; constructor;
    [| assumption].
  destruct (mem (Token.id t) (keys pruned)).
  - split; [destruct t; unfold same_but_deps; simpl; tauto |].
    right. destruct t; reflexivity.
  - split; [unfold same_but_deps; tauto | now left].
Qed.

Lemma read_from_frame : forall sentences root_index out,
    read_from root_index sentences = Ok out ->
    Forall2
      (Forall2
         (fun t t' =>
            same_but_deps t t'
            /\ (Token.deps t' = Token.deps t
                \/ Token.deps t' = (Token.deps t ++ "|0:root")%string)))
      sentences out.
Proof.
  induction sentences as [| s rest IH]; intros root_index out H; simpl in H.
  - inversion H. constructor.
  - unfold repair_sentence in H.
    destruct (analyse root_index s) as [a |]; cbn [bind fst snd] in H;
      [| discriminate].
    destruct (read_from (new_root_index a) rest) as [out' |] eqn:Hrest;
      cbn [bind] in H; [| discriminate].
    inversion H; subst. constructor.
    + apply add_root_edges_frame.
    + now apply IH with (new_root_index a).
Qed.

(** X15. When [_read] returns, it returns as many sentences as it was
    given, in the same order, each with as many tokens in the same order;
    a token differs from the one read at most in its enhanced-dependencies
    field, which is either unchanged or extended by ["|0:root"]. *)
Theorem read_keeps_shape : forall sentences out,
    _read sentences = Ok out ->
    Forall2
      (Forall2
         (fun t t' =>
            same_but_deps t t'
            /\ (Token.deps t' = Token.deps t
                \/ Token.deps t' = (Token.deps t ++ "|0:root")%string)))
      sentences out.
Proof. intros sentences out. apply read_from_frame. Qed.

Lemma read_keeps_shape_witness :
  _read [ex_chain; ex_mixed] = Ok [ex_chain; ex_mixed_once]
  /\ Forall2
       (Forall2
          (fun t t' =>
             same_but_deps t t'
             /\ (Token.deps t' = Token.deps t
                 \/ Token.deps t' = (Token.deps t ++ "|0:root")%string)))
       [ex_chain; ex_mixed] [ex_chain; ex_mixed_once].
Proof.
  split; [reflexivity |].
  exact (read_keeps_shape [ex_chain; ex_mixed] [ex_chain; ex_mixed_once]
           eq_refl).
Defined.

Lemma read_from_aborts : forall before root_index after e,
    read_from root_index before = Raise e ->
    read_from root_index (before ++ after) = Raise e.
Proof.
  induction before as [| s before IH]; intros root_index after e H;
    simpl in *.
  - discriminate.
  - destruct (repair_sentence root_index s) as [r |]; cbn [bind] in *;
      [| assumption].
    destruct (read_from (fst r) before) as [out |] eqn:Hb;
      cbn [bind] in H; [discriminate |].
    rewrite (IH (fst r) after e0 Hb). cbn [bind]. assumption.
Qed.

(** X16. An exception raised while a sentence is processed ends [_read]
    for the whole file: whatever sentences follow, the result is that
    exception, and the sentences repaired before it are not returned. *)
Theorem read_aborts_on_first_exception : forall before after e,
    _read before = Raise e -> _read (before ++ after) = Raise e.
Proof. intros before after e. apply read_from_aborts. Qed.

Lemma read_aborts_on_first_exception_witness :
  _read [ex_chain; [tok "1" "_|_"]] = Raise IndexError
  /\ _read ([ex_chain; [tok "1" "_|_"]] ++ [ex_cycle]) = Raise IndexError.
Proof.
  split; [reflexivity |].
  exact (read_aborts_on_first_exception [ex_chain; [tok "1" "_|_"]]
           [ex_cycle] IndexError eq_refl).
Defined.

Lemma new_root_of_rooted : forall ps token_id root_index root_index',
    In (token_id, "0") ps -> new_root ps root_index = new_root ps root_index'.
Proof.
  unfold new_root.
  induction ps as [| [t h] ps IH]; intros token_id root_index root_index' Hin;
    simpl; [contradiction |].
  destruct (String.eqb h "0") eqn:Hh; [reflexivity |].
  destruct Hin as [E | Hin].
  - inversion E; subst. discriminate.
  - now apply IH with token_id.
Qed.

(** A sentence with a token headed by ROOT is repaired in the same way
    whatever [root_index] holds. *)
Lemma repair_of_rooted : forall (annotated_sentence : Sentence) m token_id,
    extract_heads annotated_sentence = Ok m ->
    In (token_id, "0") (pairs m) ->
    forall root_index,
      repair_sentence root_index annotated_sentence
      = repair_sentence None annotated_sentence.
Proof.
  intros annotated_sentence m token_id Hm Hin root_index.
  unfold repair_sentence, analyse. rewrite Hm. cbn [bind].
  rewrite !root_and_children_spec.
  now rewrite (new_root_of_rooted (pairs m) token_id root_index None Hin).
Qed.

(** X17. In a file in which every sentence has a token headed by ["0"],
    the sentences are repaired independently of each other: [_read]
    returns, sentence by sentence, what the repair gives for that sentence
    alone, and fails with the exception of the first sentence that
    fails. *)
Theorem rooted_sentences_are_independent : forall sentences,
    Forall (fun annotated_sentence =>
              exists m token_id,
                extract_heads annotated_sentence = Ok m
                /\ In (token_id, "0") (pairs m))
           sentences ->
    _read sentences
    = mapM (fun annotated_sentence =>
              r <- repair_sentence None annotated_sentence ;; Ok (snd r))
           sentences.
Proof.
  intros sentences Hall. unfold _read.
  assert (G : forall ri,
             read_from ri sentences
             = mapM (fun annotated_sentence =>
                       r <- repair_sentence None annotated_sentence ;;
                       Ok (snd r))
                    sentences).
  { induction Hall as [| s rest [m [t [Hm Ht]]] _ IH]; intros ri; simpl.
    - reflexivity.
    - rewrite (repair_of_rooted s m t Hm Ht ri).
      destruct (repair_sentence None s) as [r |]; cbn [bind];
        [| reflexivity].
      rewrite IH. reflexivity. }
  apply G.
Qed.

Lemma rooted_sentences_are_independent_witness :
  Forall (fun annotated_sentence =>
            exists m token_id,
              extract_heads annotated_sentence = Ok m
              /\ In (token_id, "0") (pairs m))
         [ex_mixed; ex_cycle]
  /\ _read [ex_mixed; ex_cycle]
     = mapM (fun annotated_sentence =>
               r <- repair_sentence None annotated_sentence ;; Ok (snd r))
            [ex_mixed; ex_cycle].
Proof.
  assert (H : Forall (fun annotated_sentence =>
                        exists m token_id,
                          extract_heads annotated_sentence = Ok m
                          /\ In (token_id, "0") (pairs m))
                     [ex_mixed; ex_cycle]).
  { constructor; [| constructor; [| constructor]].
    - eexists. exists "4". split; [reflexivity |]. simpl. auto 10.
    - eexists. exists "1". split; [reflexivity |]. simpl. auto. }
  split; [exact H |].
  exact (rooted_sentences_are_independent [ex_mixed; ex_cycle] H).
Defined.

(** ** What the sweeps append *)

Lemma sweep_pairs_fresh : forall qs nodes,
    exists added,
      sweep_pairs qs nodes = nodes ++ added
      /\ NoDup added
      /\ (forall x, In x added -> ~ In x nodes)
      /\ (forall x, In x added -> exists h, In (x, h) qs).
Proof.
  induction qs as [| [t h] qs IH]; intros nodes.
  - exists []. simpl. rewrite app_nil_r.
    split; [reflexivity |]. split; [constructor |].
    split; intros x [].
  - unfold sweep_pairs in *. simpl.
    destruct (visit_cases nodes t h) as [[E _] | [E [_ Hnot]]]; rewrite E.
    + destruct (IH nodes) as [added [Ha [Hnd [Hfresh Hfrom]]]].
      exists added. repeat split; try assumption.
      intros x Hx. destruct (Hfrom x Hx) as [h' Hh']. exists h'. now right.
    + destruct (IH (nodes ++ [t])) as [added [Ha [Hnd [Hfresh Hfrom]]]].
      exists (t :: added). rewrite Ha, <- app_assoc. repeat split.
      * constructor; [| assumption].
        intros Hin. apply (Hfresh t Hin). apply in_or_app. right. now left.
      * intros x [Ex | Hx].
        -- now subst x.
        -- intros Hn. apply (Hfresh x Hx). apply in_or_app. now left.
      * intros x [Ex | Hx].
        -- subst x. exists h. now left.
        -- destruct (Hfrom x Hx) as [h' Hh']. exists h'. now right.
Qed.

Lemma search_loop_fresh : forall fuel m nodes final sweeps,
    search_loop fuel m nodes = Some (final, sweeps) ->
    exists added,
      final = nodes ++ added
      /\ NoDup added
      /\ (forall x, In x added -> ~ In x nodes)
      /\ (forall x, In x added -> exists h, In (x, h) (pairs m)).
Proof.
  induction fuel as [| fuel IH]; intros m nodes final sweeps H;
    [discriminate |].
  rewrite search_loop_unfold in H. cbv zeta in H.
  destruct (sweep_pairs_fresh (pairs m) nodes)
    as [added1 [E1 [Hnd1 [Hf1 Hp1]]]].
  destruct (Nat.eqb _ _).
  - inversion H; subst. exists added1. now repeat split.
  - destruct (search_loop fuel m _) as [[final' k] |] eqn:E;
      [| discriminate].
    inversion H; subst.
    destruct (IH _ _ _ _ E) as [added2 [E2 [Hnd2 [Hf2 Hp2]]]].
    exists (added1 ++ added2). rewrite E2, E1, <- app_assoc.
    repeat split.
    + apply NoDup_app; try assumption.
      intros x Hx1 Hx2. apply (Hf2 x Hx2). rewrite E1.
      apply in_or_app. now right.
    + intros x Hx Hn. apply in_app_or in Hx. destruct Hx as [Hx | Hx].
      * now apply (Hf1 x).
      * apply (Hf2 x Hx). rewrite E1. apply in_or_app. now left.
    + intros x Hx. apply in_app_or in Hx. destruct Hx as [Hx | Hx]; auto.
Qed.

(** X18. The final reachable list is the list built by the two
    initialisation passes followed by the tokens the sweeps appended; the
    sweeps append every token at most once and never one that was already
    a member, and every member of the final list is a key of the HeadMap,
    that is, the id of a retained token. *)
Theorem reachable_list_members :
  forall root_index (annotated_sentence : Sentence) a,
    analyse root_index annotated_sentence = Ok a ->
    (exists added,
        nodes_reachable_from_root a = initial_nodes a ++ added
        /\ NoDup added
        /\ forall x, In x added -> ~ In x (initial_nodes a))
    /\ forall x,
        In x (nodes_reachable_from_root a) -> In x (keys (ids_to_heads a)).
Proof.
  intros root_index annotated_sentence a Ha.
  destruct (analyse_ok _ _ _ Ha) as [_ [Hr [Hn _]]].
  destruct (search_loop_terminates (ids_to_heads a) (initial_nodes a))
    as [k [E _]].
  destruct (search_loop_fresh _ _ _ _ _ E) as [added [Ea [Hnd [Hf Hp]]]].
  rewrite Hn. split.
  - exists added. now repeat split.
  - intros x Hx. rewrite Ea in Hx. apply in_app_or in Hx.
    destruct Hx as [Hx | Hx].
    + destruct (root_and_children_keys _ _ _ x Hr Hx) as [hs Hin].
      apply in_map_iff. now exists (x, hs).
    + destruct (Hp x Hx) as [h Hh]. apply in_pairs in Hh.
      destruct Hh as [hs [Hin _]]. apply in_map_iff. now exists (x, hs).
Qed.

Lemma reachable_list_members_witness :
  (exists added,
      ["1"; "2"; "3"] = ["1"; "2"] ++ added
      /\ NoDup added
      /\ forall x, In x added -> ~ In x ["1"; "2"])
  /\ forall x,
      In x ["1"; "2"; "3"] ->
      In x (keys [("1", ["0"]); ("2", ["1"]); ("3", ["2"])]).
Proof.
  exact (reachable_list_members None ex_chain
           (mkAnalysis [("1", ["0"]); ("2", ["1"]); ("3", ["2"])] (Some "1")
                       ["1"; "2"] ["1"; "2"; "3"] [] [] [] [])
           eq_refl).
Defined.

(** ** Parsed rows *)

Lemma dict_of_pairs_distinct : forall kvs : list (string * string),
    NoDup (map fst kvs) -> dict_of_pairs kvs = kvs.
Proof.
  intros kvs. unfold dict_of_pairs.
  assert (G : forall (l d : dict string),
             NoDup (keys d ++ map fst l) ->
             fold_left (fun d kv => dict_set d (fst kv) (snd kv)) l d
             = d ++ l).
  { induction l as [| [k v] l IH]; intros d Hnd; simpl.
    - now rewrite app_nil_r.
    - assert (Hn : ~ In k (keys d)).
      { simpl in Hnd. apply NoDup_remove_2 in Hnd. intros H. apply Hnd.
        apply in_or_app. now left. }
      rewrite (keys_dict_set_absent _ d k v Hn), IH.
      + rewrite <- app_assoc. reflexivity.
      + unfold keys in *. rewrite map_app, <- app_assoc. assumption. }
  intros Hnd. apply (G kvs []). assumption.
Qed.

Lemma keys_combine : forall (ks vs : list string),
    map fst (combine ks vs) = firstn (length vs) ks.
Proof.
  induction ks as [| k ks IH]; intros vs; simpl.
  - now rewrite firstn_nil.
  - destruct vs as [| v vs]; simpl; [reflexivity |]. now rewrite IH.
Qed.

Lemma NoDup_firstn : forall (A : Type) n (l : list A),
    NoDup l -> NoDup (firstn n l).
Proof.
  intros A n. induction n as [| n IH]; intros l Hl; simpl; [constructor |].
  destruct l as [| x l]; [constructor |].
  inversion Hl; subst. constructor; [| now apply IH].
  intros Hin. apply H1. clear - Hin. revert l Hin.
  induction n as [| n IHn]; intros l Hin; simpl in Hin; [contradiction |].
  destruct l as [| y l]; [contradiction |].
  destruct Hin as [E | Hin]; [now left | right; now apply IHn].
Qed.

Lemma NoDup_FIELDS : NoDup FIELDS.
Proof.
  unfold FIELDS. repeat constructor; simpl; intuition discriminate.
Qed.

(** The dict of a line is the list of its fields under their names. *)
Lemma parse_row : forall fields,
    dict_of_pairs (combine FIELDS fields) = combine FIELDS fields.
Proof.
  intros fields. apply dict_of_pairs_distinct. rewrite keys_combine.
  apply NoDup_firstn, NoDup_FIELDS.
Qed.

Lemma parse_sentence_rows : forall sentence_blob,
    parse_sentence sentence_blob
    = map (fun line => combine FIELDS (split tab line))
          (filter is_token_line (split newline sentence_blob)).
Proof.
  intros sentence_blob. unfold parse_sentence. rewrite map_map.
  apply map_ext. intros line. apply parse_row.
Qed.

(** The value a row has for the [i]-th field name. *)
Lemma dict_get_row : forall (fields : list string) i k,
    nth_error FIELDS i = Some k ->
    dict_get (combine FIELDS fields) k = nth_error fields i.
Proof.
  intros fields i k Hk.
  do 10 (destruct i as [| i];
         [inversion Hk; subst;
          do 10 (destruct fields as [| ? fields]; [reflexivity |]);
          reflexivity |]).
  simpl in Hk. destruct i; discriminate.
Qed.

(** X20. Every row [parse_sentence] builds comes from a line with at least
    one field; its keys are the first field names, as many as the line has
    fields and at most ten (further fields of the line are dropped), each
    with the field at its position, and ["id"] is always among them. *)
Theorem parse_sentence_row_shape : forall sentence_blob,
    Forall (fun row =>
              exists fields,
                fields <> []
                /\ row = combine FIELDS fields
                /\ keys row = firstn (length fields) FIELDS
                /\ length row = Nat.min 10 (length fields)
                /\ (exists v, dict_get row "id" = Some v)
                /\ row = combine FIELDS (firstn 10 fields))
           (parse_sentence sentence_blob).
Proof.
  intros sentence_blob. rewrite parse_sentence_rows.
  apply Forall_forall. intros row Hrow. apply in_map_iff in Hrow.
  destruct Hrow as [line [E _]]. subst row.
  exists (split tab line). split; [apply split_not_nil |].
  split; [reflexivity |]. split; [apply keys_combine |].
  split; [apply length_combine |]. split.
  - rewrite (dict_get_row (split tab line) 0 "id" eq_refl).
    pose proof (split_not_nil tab line) as Hn.
    destruct (split tab line) as [| v rest]; [contradiction |]. now exists v.
  - generalize (split tab line) as fields. intros fields.
    do 10 (destruct fields as [| ? fields]; [reflexivity |]).
    simpl. destruct fields; reflexivity.
Qed.

(** ** Lines *)

Lemma rstrip_first : forall c rest,
    isspace c = false ->
    exists kept, rstrip (String c rest) = String c kept.
Proof.
  intros c rest Hc. simpl. destruct (rstrip rest) as [| a kept].
  - rewrite Hc. now exists EmptyString.
  - now exists (String a kept).
Qed.

Lemma lstrip_first : forall s,
    lstrip s = EmptyString
    \/ exists c rest, lstrip s = String c rest /\ isspace c = false.
Proof.
  induction s as [| a s IH]; simpl; [now left |].
  destruct (isspace a) eqn:Ha; [assumption |].
  right. now exists a, s.
Qed.

(** Only leading blanks matter for the comment test. *)
Lemma is_token_line_lstrip : forall line,
    is_token_line line
    = negb (String.eqb line "") && negb (startswith "#" (lstrip line)).
Proof.
  intros line. unfold is_token_line, strip. f_equal. f_equal.
  destruct (lstrip_first line) as [E | [c [rest [E Hc]]]]; rewrite E.
  - reflexivity.
  - destruct (rstrip_first c rest Hc) as [kept Hk]. rewrite Hk.
    unfold startswith. cbn [String.prefix].
    destruct kept; destruct rest; reflexivity.
Qed.

Lemma filter_idempotent : forall (A : Type) (p : A -> bool) (l : list A),
    filter p (filter p l) = filter p l.
Proof.
  intros A p l. induction l as [| x l IH]; simpl; [reflexivity |].
  destruct (p x) eqn:Hx; simpl; [| assumption]. now rewrite Hx, IH.
Qed.

Lemma filter_no_newline : forall (p : string -> bool) lines,
    Forall (fun line => contains_char newline line = false) lines ->
    Forall (fun line => contains_char newline line = false) (filter p lines).
Proof.
  intros p lines H. apply Forall_forall. intros line Hin.
  apply filter_In in Hin. rewrite Forall_forall in H. now apply H.
Qed.

Lemma split_newline_join : forall lines,
    Forall (fun line => contains_char newline line = false) lines ->
    filter is_token_line (split newline (join (String newline "") lines))
    = filter is_token_line lines.
Proof.
  intros lines H. destruct lines as [| line lines]; [reflexivity |].
  rewrite split_join; [reflexivity | discriminate | assumption].
Qed.

(** X19. For a block made of lines (none holding a newline),
    [parse_sentence] returns one row for each token line, in order, made
    of the tab-separated fields of the line; a line is not a token line
    exactly when it is empty or its first character after leading blanks
    is ["#"]; so comment lines and empty lines anywhere in the block do not
    change the parse, and a block without token lines parses to the empty
    sentence. *)
Theorem parse_sentence_of_lines : forall lines,
    Forall (fun line => contains_char newline line = false) lines ->
    parse_sentence (join (String newline "") lines)
    = map (fun line => combine FIELDS (split tab line))
          (filter is_token_line lines)
    /\ parse_sentence (join (String newline "") lines)
       = parse_sentence
           (join (String newline "") (filter is_token_line lines))
    /\ forall line,
        is_token_line line = false
        <-> line = "" \/ startswith "#" (lstrip line) = true.
Proof.
  intros lines H. split; [| split].
  - rewrite parse_sentence_rows. now rewrite split_newline_join.
  - rewrite !parse_sentence_rows.
    rewrite split_newline_join by assumption.
    rewrite split_newline_join by now apply filter_no_newline.
    now rewrite filter_idempotent.
  - intros line. rewrite is_token_line_lstrip.
    rewrite andb_false_iff, !negb_false_iff. split.
    + intros [E | E]; [left; now apply String.eqb_eq | now right].
    + intros [E | E]; [left; subst; reflexivity | now right].
Qed.

Lemma parse_sentence_of_lines_witness :
  Forall (fun line => contains_char newline line = false)
         ["# sent_id = 1"; ("1" ++ String tab "a")%string; ""; "  # note";
          ("2" ++ String tab "b")%string]
  /\ parse_sentence
       (join (String newline "")
             ["# sent_id = 1"; ("1" ++ String tab "a")%string; ""; "  # note";
              ("2" ++ String tab "b")%string])
     = [[("id", "1"); ("form", "a")]; [("id", "2"); ("form", "b")]].
Proof.
  assert (H : Forall (fun line => contains_char newline line = false)
                     ["# sent_id = 1"; ("1" ++ String tab "a")%string; "";
                      "  # note"; ("2" ++ String tab "b")%string]).
  { repeat constructor. }
  split; [exact H |].
  exact (proj1 (parse_sentence_of_lines _ H)).
Defined.

(** ** Rows and records *)

Lemma mapM_map : forall (A B C : Type) (f : B -> Result C) (g : A -> B)
                        (h : A -> C) (xs : list A),
    (forall x, f (g x) = Ok (h x)) ->
    mapM f (map g xs) = Ok (map h xs).
Proof.
  intros A B C f g h xs H. induction xs as [| x xs IH]; simpl.
  - reflexivity.
  - rewrite H. cbn [bind]. rewrite IH. reflexivity.
Qed.

Lemma analyse_as_heads : forall root_index (annotated_sentence : Sentence),
    analyse root_index annotated_sentence
    = m <- extract_heads annotated_sentence ;; analyse_heads root_index m.
Proof. reflexivity. Qed.

Lemma extract_heads_rows_of_tokens : forall annotated_sentence : Sentence,
    extract_heads_rows (map token_dict annotated_sentence)
    = extract_heads annotated_sentence.
Proof.
  intros annotated_sentence. unfold extract_heads_rows, extract_heads.
  rewrite (mapM_map _ _ _ (fun x => lookup x "id") token_dict Token.id)
    by reflexivity.
  cbn [bind].
  destruct (clean_ids (map Token.id annotated_sentence)) as [ids |];
    cbn [bind]; [| reflexivity].
  rewrite (mapM_map _ _ _ (fun x => lookup x "head") token_dict Token.head)
    by reflexivity.
  rewrite (mapM_map _ _ _ (fun x => lookup x "deprel") token_dict
             Token.deprel) by reflexivity.
  rewrite (mapM_map _ _ _ (fun x => lookup x "deps") token_dict Token.deps)
    by reflexivity.
  reflexivity.
Qed.

Lemma add_root_edges_rows_of_tokens :
  forall pruned (annotated_sentence : Sentence),
    add_root_edges_rows pruned (map token_dict annotated_sentence)
    = Ok (map token_dict (add_root_edges pruned annotated_sentence)).
Proof.
  intros pruned annotated_sentence. unfold add_root_edges_rows, add_root_edges.
  rewrite map_map. apply mapM_map. intros t.
  change (lookup (token_dict t) "id") with (Ok (Token.id t)). cbn [bind].
  destruct (mem (Token.id t) (keys pruned)); reflexivity.
Qed.

Lemma repair_rows_of_tokens :
  forall root_index (annotated_sentence : Sentence),
    repair_rows root_index (map token_dict annotated_sentence)
    = r <- repair_sentence root_index annotated_sentence ;;
      Ok (fst r, map token_dict (snd r)).
Proof.
  intros root_index annotated_sentence. unfold repair_rows, repair_sentence.
  rewrite extract_heads_rows_of_tokens, analyse_as_heads.
  destruct (extract_heads annotated_sentence) as [m |]; cbn [bind];
    [| reflexivity].
  destruct (analyse_heads root_index m) as [a |]; cbn [bind];
    [| reflexivity].
  rewrite add_root_edges_rows_of_tokens. reflexivity.
Qed.

Lemma read_rows_from_of_tokens : forall (sentences : list Sentence) root_index,
    read_rows_from root_index (map (map token_dict) sentences)
    = out <- read_from root_index sentences ;;
      Ok (map (map token_dict) out).
Proof.
  induction sentences as [| s rest IH]; intros root_index; simpl.
  - reflexivity.
  - rewrite repair_rows_of_tokens.
    destruct (repair_sentence root_index s) as [r |]; cbn [bind fst snd];
      [| reflexivity].
    rewrite IH.
    destruct (read_from (fst r) rest) as [out |]; reflexivity.
Qed.

(** X22. On rows that have all ten fields, [_read] on the parsed dicts does
    what the record model of [_read] does: the same exception, or the
    same sentences with the same tokens, field by field.  (The record
    model thus loses nothing for files whose token lines have at least
    ten fields.) *)
Theorem read_rows_refines : forall sentences : list Sentence,
    read_rows_from None (map (map token_dict) sentences)
    = out <- _read sentences ;; Ok (map (map token_dict) out).
Proof. intros sentences. apply read_rows_from_of_tokens. Qed.

(** ** Lines with missing fields *)

Lemma analyse_heads_raise : forall root_index m e,
    analyse_heads root_index m = Raise e -> e = IndexError \/ e = NameError.
Proof.
  intros root_index m e. unfold analyse_heads.
  rewrite root_and_children_spec.
  assert (C : forall f (e0 : PyError),
             collapse f (keys f) = Raise e0 -> e0 = IndexError).
  { intros f e0 Hc. unfold collapse, for_enumerate in Hc.
    apply (enumerate_loop_raise _ _ (fun e => e = IndexError)) in Hc;
      [assumption |].
    intros i x l e'. unfold collapse_body.
    apply (foldM_raise _ _ _ (fun e => e = IndexError)).
    intros st fr e''. destruct (mem x (snd fr)); [| discriminate].
    apply del_at_raise. }
  destruct (new_root (pairs m) root_index) as [r |]; cbn [bind fst snd].
  - destruct (fragments_built m
                (search_dependents m
                   (tokens_with_head "0" (pairs m)
                    ++ tokens_with_head r (pairs m))))
      as [f0 [f [E0 [E _]]]].
    rewrite E0. cbn [bind]. rewrite E. cbn [bind].
    destruct (collapse f (keys f)) as [survivors | e0] eqn:Hc; cbn [bind];
      [discriminate |].
    intros H. inversion H; subst. left. now apply C with f.
  - destruct (pairs m) eqn:Hps; cbn [bind fst snd].
    + destruct (fragments_built m (search_dependents m []))
        as [f0 [f [E0 [E _]]]].
      rewrite E0. cbn [bind]. rewrite E. cbn [bind].
      destruct (collapse f (keys f)) as [survivors | e0] eqn:Hc;
        cbn [bind]; [discriminate |].
      intros H. inversion H; subst. left. now apply C with f.
    + intros H. inversion H. now right.
Qed.

Lemma lookup_cases : forall row k,
    (exists v, dict_get row k = Some v /\ lookup row k = Ok v)
    \/ (dict_get row k = None /\ lookup row k = Raise KeyError).
Proof.
  intros row k. unfold lookup. destruct (dict_get row k) as [v |].
  - left. now exists v.
  - now right.
Qed.

Lemma mapM_lookup : forall k (rows : list (dict string)),
    (Forall (fun row => dict_get row k <> None) rows
     /\ exists vs, mapM (fun x => lookup x k) rows = Ok vs)
    \/ (Exists (fun row => dict_get row k = None) rows
        /\ mapM (fun x => lookup x k) rows = Raise KeyError).
Proof.
  intros k rows. induction rows as [| row rows IH]; simpl.
  - left. split; [constructor | now exists []].
  - destruct (lookup_cases row k) as [[v [Hg Hl]] | [Hg Hl]]; rewrite Hl;
      cbn [bind].
    + destruct IH as [[Hall [vs Hvs]] | [Hex Hr]].
      * left. split; [constructor; [congruence | assumption] |].
        rewrite Hvs. now exists (v :: vs).
      * right. split; [now apply Exists_cons_tl |]. now rewrite Hr.
    + right. split; [now apply Exists_cons_hd | reflexivity].
Qed.

Lemma add_root_edges_rows_total : forall pruned (rows : list (dict string)),
    Forall (fun row => dict_get row "id" <> None
                       /\ dict_get row "deps" <> None) rows ->
    exists repaired, add_root_edges_rows pruned rows = Ok repaired.
Proof.
  intros pruned rows H. unfold add_root_edges_rows.
  induction H as [| row rows [Hid Hdeps] _ IH]; cbn [mapM].
  - now exists [].
  - destruct IH as [rest Hrest]. rewrite Hrest.
    assert (Hrow : exists row',
               (conllu_id <- lookup row "id" ;;
                if mem conllu_id (keys pruned)
                then deps_object <- lookup row "deps" ;;
                     Ok (dict_set row "deps"
                                  (deps_object ++ "|" ++ root_edge)%string)
                else Ok row) = Ok row').
    { unfold lookup. destruct (dict_get row "id") as [i |];
        [| contradiction].
      destruct (dict_get row "deps") as [d |]; [| contradiction].
      cbn [bind]. destruct (mem i (keys pruned)); eauto. }
    destruct Hrow as [row' Hrow]. rewrite Hrow. cbn [bind]. eauto.
Qed.

(** Which fields a row of [n] fields has. *)
Lemma row_has_field : forall (fields : list string) i k,
    nth_error FIELDS i = Some k ->
    (dict_get (combine FIELDS fields) k <> None
     <-> i < length (combine FIELDS fields)).
Proof.
  intros fields i k Hk. rewrite (dict_get_row fields i k Hk).
  rewrite nth_error_Some, length_combine.
  assert (Hi : i < length FIELDS).
  { apply nth_error_Some. rewrite Hk. discriminate. }
  change (length FIELDS) with 10 in *. lia.
Qed.

Lemma repair_rows_key_error : forall root_index (rows : list (dict string)),
    Forall (fun row => exists fields,
                fields <> [] /\ row = combine FIELDS fields) rows ->
    (Forall (fun row => 9 <= length row) rows ->
     repair_rows root_index rows <> Raise KeyError)
    /\ (Exists (fun row => length row < 9) rows ->
        repair_rows root_index rows = Raise KeyError).
Proof.
  intros root_index rows Hshape.
  assert (Hfield : forall i k,
             nth_error FIELDS i = Some k ->
             forall row, In row rows ->
                         (dict_get row k <> None <-> i < length row)).
  { intros i k Hk row Hin. rewrite Forall_forall in Hshape.
    destruct (Hshape row Hin) as [fields [_ E]]. subst row.
    now apply row_has_field. }
  assert (Hid : forall row, In row rows -> dict_get row "id" <> None).
  { intros row Hin. apply (Hfield 0 "id" eq_refl row Hin).
    rewrite Forall_forall in Hshape.
    destruct (Hshape row Hin) as [fields [Hne E]]. subst row.
    rewrite length_combine. change (length FIELDS) with 10.
    destruct fields; [contradiction | simpl; lia]. }
  unfold repair_rows, extract_heads_rows.
  destruct (mapM_lookup "id" rows) as [[_ [full_ids Hids]] | [Hex _]].
  2: { exfalso. apply Exists_exists in Hex.
       destruct Hex as [row [Hin Hnone]]. now apply (Hid row Hin). }
  rewrite Hids. cbn [bind].
  destruct (clean_ids_total full_ids) as [ids Hclean]. rewrite Hclean.
  cbn [bind]. split.
  - intros Hlong.
    assert (Hhas : forall i k,
               nth_error FIELDS i = Some k -> i < 9 ->
               exists vs, mapM (fun x => lookup x k) rows = Ok vs).
    { intros i k Hk Hi.
      destruct (mapM_lookup k rows) as [[_ Hvs] | [Hex _]]; [assumption |].
      exfalso. apply Exists_exists in Hex.
      destruct Hex as [row [Hin Hnone]].
      apply (Hfield i k Hk row Hin); [| assumption].
      rewrite Forall_forall in Hlong. specialize (Hlong row Hin). lia. }
    destruct (Hhas 6 "head" eq_refl) as [heads Hheads]; [lia |].
    destruct (Hhas 7 "deprel" eq_refl) as [deprels Hdeprels]; [lia |].
    destruct (Hhas 8 "deps" eq_refl) as [deps Hdeps]; [lia |].
    rewrite Hheads, Hdeprels, Hdeps. cbn [bind].
    destruct (clean_eheads _) as [hs | e] eqn:Hhs; cbn [bind].
    + destruct (Nat.eqb (length ids) (length hs)); cbn [bind].
      * destruct (fill_heads_total ids hs (empty_heads ids)
                    (keys_empty_heads ids)) as [m [Hfill _]].
        rewrite Hfill. cbn [bind].
        destruct (analyse_heads root_index m) as [a | e] eqn:Ha; cbn [bind].
        -- destruct (add_root_edges_rows_total (pruned_tree a) rows)
             as [repaired Hrep].
           { apply Forall_forall. intros row Hin. split.
             - now apply Hid.
             - apply (Hfield 8 "deps" eq_refl row Hin).
               rewrite Forall_forall in Hlong. specialize (Hlong row Hin).
               lia. }
           rewrite Hrep. discriminate.
        -- apply analyse_heads_raise in Ha.
           destruct Ha as [E | E]; subst; discriminate.
      * discriminate.
    + apply clean_eheads_raise in Hhs. subst. discriminate.
  - intros Hshort. apply Exists_exists in Hshort.
    destruct Hshort as [short [Hin Hlen]].
    destruct (mapM_lookup "head" rows) as [[_ [heads Hheads]] | [_ Hr]];
      [| now rewrite Hr].
    rewrite Hheads. cbn [bind].
    destruct (mapM_lookup "deprel" rows) as [[_ [deprels Hdep]] | [_ Hr]];
      [| now rewrite Hr].
    rewrite Hdep. cbn [bind].
    destruct (mapM_lookup "deps" rows) as [[Hall _] | [_ Hr]];
      [| now rewrite Hr].
    exfalso. rewrite Forall_forall in Hall.
    apply (Hfield 8 "deps" eq_refl short Hin) in Hall; [lia | assumption].
Qed.

(** X21. On the rows [parse_sentence] builds, repairing a sentence raises
    [KeyError] exactly when one of its lines has fewer than nine fields, so
    that ["head"], ["deprel"] or ["deps"] is missing; with nine fields or
    more on every line no [KeyError] is raised while the sentence is
    repaired. *)
Theorem short_line_key_error : forall root_index sentence_blob,
    repair_rows root_index (parse_sentence sentence_blob) = Raise KeyError
    <-> Exists (fun row => length row < 9) (parse_sentence sentence_blob).
Proof.
  intros root_index sentence_blob.
  assert (Hshape : Forall (fun row => exists fields,
                               fields <> [] /\ row = combine FIELDS fields)
                          (parse_sentence sentence_blob)).
  { rewrite parse_sentence_rows. apply Forall_forall. intros row Hin.
    apply in_map_iff in Hin. destruct Hin as [line [E _]].
    exists (split tab line). split; [apply split_not_nil | now symmetry]. }
  destruct (repair_rows_key_error root_index _ Hshape) as [Hlong Hshort].
  split; [| assumption].
  intros Hraise.
  destruct (Forall_Exists_dec (fun row : dict string => 9 <= length row)
              (fun row => le_dec 9 (length row))
              (parse_sentence sentence_blob)) as [Hall | Hex].
  - exfalso. now apply Hlong.
  - apply Exists_exists in Hex. destruct Hex as [row [Hin Hlt]].
    apply Exists_exists. exists row. split; [assumption | lia].
Qed.

(** ** Decoding *)

Lemma mapM_all_or_raise :
  forall (A B : Type) (f : A -> Result B) (e0 : PyError) (xs : list A),
    (forall x, In x xs -> (exists y, f x = Ok y) \/ f x = Raise e0) ->
    (Forall (fun x => exists y, f x = Ok y) xs
     /\ exists ys, mapM f xs = Ok ys /\ length ys = length xs)
    \/ (Exists (fun x => f x = Raise e0) xs /\ mapM f xs = Raise e0).
Proof.
  intros A B f e0 xs. induction xs as [| x xs IH]; intros H; simpl.
  - left. split; [constructor | now exists []].
  - destruct (H x (or_introl eq_refl)) as [[y Hy] | Hx].
    + rewrite Hy. cbn [bind].
      destruct IH as [[Hall [ys [Hys Hlen]]] | [Hex Hr]].
      * intros x' Hx'. apply H. now right.
      * left. split; [constructor; eauto |].
        rewrite Hys. exists (y :: ys). split; [reflexivity | simpl; lia].
      * right. split; [now apply Exists_cons_tl |]. now rewrite Hr.
    + right. rewrite Hx. split; [now apply Exists_cons_hd | reflexivity].
Qed.

(** Decoding a row succeeds exactly when it has every field. *)
Lemma decode_row_cases : forall conllu_row : dict string,
    ((forall k, In k FIELDS -> In k (keys conllu_row))
     /\ exists line,
         (lines <- mapM (lookup conllu_row) FIELDS ;;
          Ok (join (String tab "") lines)) = Ok line)
    \/ ((exists k, In k FIELDS /\ ~ In k (keys conllu_row))
        /\ (lines <- mapM (lookup conllu_row) FIELDS ;;
            Ok (join (String tab "") lines)) = Raise KeyError).
Proof.
  intros row.
  destruct (mapM_all_or_raise _ _ (lookup row) KeyError FIELDS)
    as [[Hall [ys [Hys _]]] | [Hex Hr]].
  - intros k _. destruct (lookup_cases row k) as [[v [_ Hl]] | [_ Hl]];
      [left; eauto | now right].
  - left. split.
    + intros k Hk. rewrite Forall_forall in Hall.
      destruct (Hall k Hk) as [v Hv]. apply dict_get_keys.
      unfold lookup in Hv. destruct (dict_get row k) as [v' |];
        [eauto | discriminate].
    + rewrite Hys. cbn [bind]. eauto.
  - right. split.
    + apply Exists_exists in Hex. destruct Hex as [k [Hk Hraise]].
      exists k. split; [assumption |]. intros Hin.
      apply dict_get_keys in Hin. destruct Hin as [v Hv].
      unfold lookup in Hraise. rewrite Hv in Hraise. discriminate.
    + now rewrite Hr.
Qed.

Lemma decode_cases : forall conllu_annotations : list (list (dict string)),
    (Forall (Forall (fun row => forall k, In k FIELDS -> In k (keys row)))
            conllu_annotations
     /\ exists decoded,
         decode_conllu_output conllu_annotations = Ok decoded
         /\ Forall2 (fun rows lines => length lines = length rows)
                    conllu_annotations decoded)
    \/ (Exists (Exists (fun row => exists k,
                            In k FIELDS /\ ~ In k (keys row)))
               conllu_annotations
        /\ decode_conllu_output conllu_annotations = Raise KeyError).
Proof.
  assert (Sent : forall rows : list (dict string),
             (Forall (fun row => forall k, In k FIELDS -> In k (keys row))
                     rows
              /\ exists lines,
                  mapM (fun conllu_row =>
                          lines <- mapM (lookup conllu_row) FIELDS ;;
                          Ok (join (String tab "") lines)) rows = Ok lines
                  /\ length lines = length rows)
             \/ (Exists (fun row => exists k,
                             In k FIELDS /\ ~ In k (keys row)) rows
                 /\ mapM (fun conllu_row =>
                            lines <- mapM (lookup conllu_row) FIELDS ;;
                            Ok (join (String tab "") lines)) rows
                    = Raise KeyError)).
  { induction rows as [| row rows IH]; cbn [mapM].
    - left. split; [constructor | now exists []].
    - destruct (decode_row_cases row) as [[Hc [line Hl]] | [Hm Hr]].
      + rewrite Hl. cbn [bind].
        destruct IH as [[Hall [lines [Hls Hlen]]] | [Hex Hr]].
        * left. split; [now constructor |]. rewrite Hls.
          exists (line :: lines). split; [reflexivity | simpl; lia].
        * right. split; [now apply Exists_cons_tl |]. now rewrite Hr.
      + right. rewrite Hr. split; [now apply Exists_cons_hd | reflexivity]. }
  unfold decode_conllu_output.
  induction conllu_annotations as [| rows rest IH]; cbn [mapM].
  - left. split; [constructor |]. exists []. split; [reflexivity | constructor].
  - destruct (Sent rows) as [[Hc [lines [Hl Hlen]]] | [Hm Hr]].
    + rewrite Hl. cbn [bind].
      destruct IH as [[Hall [decoded [Hd Hshape]]] | [Hex Hr]].
      * left. split; [now constructor |]. rewrite Hd.
        exists (lines :: decoded). split; [reflexivity | now constructor].
      * right. split; [now apply Exists_cons_tl |]. now rewrite Hr.
    + right. rewrite Hr. split; [now apply Exists_cons_hd | reflexivity].
Qed.

(** Repairing keeps the keys of every row. *)
Lemma add_root_edges_rows_keys : forall pruned rows repaired,
    add_root_edges_rows pruned rows = Ok repaired ->
    Forall2 (fun row row' => keys row' = keys row) rows repaired.
Proof.
  intros pruned. unfold add_root_edges_rows.
  induction rows as [| row rows IH]; intros repaired H; cbn [mapM] in H.
  - inversion H. constructor.
  - destruct (lookup row "id") as [i |] eqn:Hi; cbn [bind] in H;
      [| discriminate].
    destruct (mapM _ rows) as [rest |] eqn:Hrest.
    + destruct (mem i (keys pruned)).
      * destruct (lookup row "deps") as [d |] eqn:Hd; cbn [bind] in H;
          [| discriminate].
        inversion H; subst. constructor; [| now apply IH].
        apply keys_dict_set_present. apply dict_get_keys.
        unfold lookup in Hd. destruct (dict_get row "deps"); [eauto |].
        discriminate.
      * cbn [bind] in H. inversion H; subst.
        constructor; [reflexivity | now apply IH].
    + destruct (mem i (keys pruned)).
      * destruct (lookup row "deps"); cbn [bind] in H; discriminate.
      * cbn [bind] in H. discriminate.
Qed.

Lemma read_rows_from_keys : forall sentences root_index out,
    read_rows_from root_index sentences = Ok out ->
    Forall2 (Forall2 (fun row row' => keys row' = keys row)) sentences out
    /\ Forall (fun rows => exists r, repair_rows root_index rows = Ok r
                                     \/ exists ri, repair_rows ri rows = Ok r)
              sentences.
Proof.
  induction sentences as [| rows rest IH]; intros root_index out H;
    cbn [read_rows_from] in H.
  - inversion H. split; constructor.
  - destruct (repair_rows root_index rows) as [r |] eqn:Hr; cbn [bind] in H;
      [| discriminate].
    destruct (read_rows_from (fst r) rest) as [out' |] eqn:Hrest;
      cbn [bind] in H; [| discriminate].
    inversion H; subst. destruct (IH _ _ Hrest) as [Hkeys Hall]. split.
    + constructor; [| assumption].
      unfold repair_rows in Hr.
      destruct (extract_heads_rows rows) as [m |]; cbn [bind] in Hr;
        [| discriminate].
      destruct (analyse_heads root_index m) as [a |]; cbn [bind] in Hr;
        [| discriminate].
      destruct (add_root_edges_rows (pruned_tree a) rows) as [rep |] eqn:Ha;
        cbn [bind] in Hr; [| discriminate].
      inversion Hr; subst. simpl. now apply add_root_edges_rows_keys in Ha.
    + constructor.
      * exists r. now left.
      * apply Forall_forall. intros rows' Hin. rewrite Forall_forall in Hall.
        destruct (Hall rows' Hin) as [r' [Hr' | [ri Hr']]];
          exists r'; right; eauto.
Qed.

Lemma Forall2_Forall_back :
  forall (A B : Type) (R : A -> B -> Prop) (P : A -> Prop) (Q : B -> Prop)
         (l : list A) (l' : list B),
    (forall x y, R x y -> Q y -> P x) ->
    Forall2 R l l' -> Forall Q l' -> Forall P l.
Proof.
  intros A B R P Q l l' H HR. induction HR as [| x y l l' Hxy _ IH];
    intros HQ; [constructor |].
  inversion HQ; subst. constructor; [now apply H with y | now apply IH].
Qed.

Lemma Forall2_Exists_back :
  forall (A B : Type) (R : A -> B -> Prop) (P : A -> Prop) (Q : B -> Prop)
         (l : list A) (l' : list B),
    (forall x y, R x y -> Q y -> P x) ->
    Forall2 R l l' -> Exists Q l' -> Exists P l.
Proof.
  intros A B R P Q l l' H HR. induction HR as [| x y l l' Hxy _ IH];
    intros HQ; inversion HQ; subst.
  - apply Exists_cons_hd. now apply H with y.
  - apply Exists_cons_tl. now apply IH.
Qed.

(** A parsed row has every field exactly when it has ten entries. *)
Lemma parsed_row_complete : forall fields : list string,
    (forall k, In k FIELDS -> In k (keys (combine FIELDS fields)))
    <-> length (combine FIELDS fields) = 10.
Proof.
  intros fields.
  assert (Hle : length (combine FIELDS fields) <= 10).
  { rewrite length_combine. change (length FIELDS) with 10. lia. }
  split.
  - intros H.
    assert (Hm : In "misc" (keys (combine FIELDS fields))).
    { apply H. unfold FIELDS. simpl. auto 15. }
    apply dict_get_keys in Hm. destruct Hm as [v Hv].
    assert (Hlt : 9 < length (combine FIELDS fields)).
    { apply (row_has_field fields 9 "misc" eq_refl). congruence. }
    lia.
  - intros Hlen k Hk. apply In_nth_error in Hk. destruct Hk as [i Hi].
    assert (Hlt : i < length FIELDS).
    { apply nth_error_Some. congruence. }
    change (length FIELDS) with 10 in Hlt.
    assert (Hg : dict_get (combine FIELDS fields) k <> None).
    { apply (row_has_field fields i k Hi). lia. }
    apply dict_get_keys.
    destruct (dict_get (combine FIELDS fields) k) as [v |];
      [eauto | contradiction].
Qed.

Lemma lazy_parse_shape : forall text,
    Forall (Forall (fun row => exists fields,
                        fields <> [] /\ row = combine FIELDS fields))
           (lazy_parse text).
Proof.
  intros text. unfold lazy_parse. apply Forall_forall.
  intros rows Hin. apply in_map_iff in Hin. destruct Hin as [blob [E _]].
  subst rows. rewrite parse_sentence_rows. apply Forall_forall.
  intros row Hin. apply in_map_iff in Hin. destruct Hin as [line [E _]].
  exists (split tab line). split; [apply split_not_nil | now symmetry].
Qed.

(** X23. For a file that [_read] accepts, [decode_conllu_output] succeeds
    exactly when every token line has at least ten fields, and gives one
    line per token; otherwise it raises [KeyError], and then some token
    line has exactly nine fields (a line without the last field passes
    [_read] and fails only here). *)
Theorem nine_field_line_fails_decode : forall text conllu_annotations,
    read_text text = Ok conllu_annotations ->
    match decode_conllu_output conllu_annotations with
    | Ok decoded =>
        Forall (Forall (fun row => length row = 10)) (lazy_parse text)
        /\ Forall2 (fun rows lines => length lines = length rows)
                   (lazy_parse text) decoded
    | Raise e =>
        e = KeyError
        /\ Exists (Exists (fun row => length row = 9)) (lazy_parse text)
    end.
Proof.
  intros text anns Hread. unfold read_text in Hread.
  destruct (read_rows_from_keys _ _ _ Hread) as [Hkeys Hrep].
  pose proof (lazy_parse_shape text) as Hshape.
  assert (Hnine : Forall (Forall (fun row : dict string => 9 <= length row))
                         (lazy_parse text)).
  { apply Forall_forall. intros rows Hin.
    rewrite Forall_forall in Hrep, Hshape.
    specialize (Hshape rows Hin).
    destruct (Forall_Exists_dec (fun row : dict string => 9 <= length row)
                (fun row => le_dec 9 (length row)) rows) as [Hall | Hex];
      [assumption |].
    exfalso.
    assert (Hshort : Exists (fun row : dict string => length row < 9) rows).
    { apply Exists_exists in Hex. destruct Hex as [row [Hr Hlt]].
      apply Exists_exists. exists row. split; [assumption | lia]. }
    destruct (Hrep rows Hin) as [r [Hr | [ri Hr]]].
    - destruct (repair_rows_key_error None rows Hshape) as [_ Hk].
      rewrite (Hk Hshort) in Hr. discriminate.
    - destruct (repair_rows_key_error ri rows Hshape) as [_ Hk].
      rewrite (Hk Hshort) in Hr. discriminate. }
  destruct (decode_cases anns) as [[Hall [decoded [Hd Hlen]]] | [Hex Hr]].
  - rewrite Hd. split.
    + apply Forall_forall. intros rows Hin. apply Forall_forall.
      intros row Hrow.
      assert (Hc : Forall (Forall (fun row : dict string =>
                                     forall k, In k FIELDS ->
                                               In k (keys row)))
                          (lazy_parse text)).
      { apply (Forall2_Forall_back _ _ _ _ _ _ _ (fun rows rows' Hrr Hq =>
                 Forall2_Forall_back _ _ _ _ _ _ _
                   (fun row row' (Hk : keys row' = keys row)
                        (Hq' : forall k, In k FIELDS -> In k (keys row')) =>
                      fun k Hk' => eq_ind _ (fun ks => In k ks)
                                          (Hq' k Hk') _ Hk)
                   Hrr Hq) Hkeys Hall). }
      rewrite Forall_forall in Hc. specialize (Hc rows Hin).
      rewrite Forall_forall in Hc. specialize (Hc row Hrow).
      rewrite Forall_forall in Hshape. specialize (Hshape rows Hin).
      rewrite Forall_forall in Hshape.
      destruct (Hshape row Hrow) as [fields [_ E]]. subst row.
      now apply parsed_row_complete.
    + clear - Hkeys Hlen. revert decoded Hlen.
      induction Hkeys as [| rows rows' l l' Hrr _ IH]; intros decoded Hlen;
        inversion Hlen; subst; constructor.
      * apply Forall2_length in Hrr. congruence.
      * now apply IH.
  - rewrite Hr. split; [reflexivity |].
    assert (Hmiss : Exists (Exists (fun row : dict string =>
                                      exists k, In k FIELDS
                                                /\ ~ In k (keys row)))
                           (lazy_parse text)).
    { apply (Forall2_Exists_back _ _ _ _ _ _ _ (fun rows rows' Hrr Hq =>
               Forall2_Exists_back _ _ _ _ _ _ _
                 (fun row row' (Hk : keys row' = keys row)
                      (Hq' : exists k, In k FIELDS /\ ~ In k (keys row')) =>
                    eq_ind _ (fun ks => exists k, In k FIELDS /\ ~ In k ks)
                           Hq' _ Hk)
                 Hrr Hq) Hkeys Hex). }
    apply Exists_exists in Hmiss. destruct Hmiss as [rows [Hin Hrows]].
    apply Exists_exists. exists rows. split; [assumption |].
    apply Exists_exists in Hrows. destruct Hrows as [row [Hrow [k [Hk Hn]]]].
    apply Exists_exists. exists row. split; [assumption |].
    rewrite Forall_forall in Hshape, Hnine.
    specialize (Hshape rows Hin). specialize (Hnine rows Hin).
    rewrite Forall_forall in Hshape, Hnine.
    destruct (Hshape row Hrow) as [fields [_ E]]. specialize (Hnine row Hrow).
    subst row.
    assert (Hle : length (combine FIELDS fields) <= 10).
    { rewrite length_combine. change (length FIELDS) with 10. lia. }
    assert (Hne : length (combine FIELDS fields) <> 10).
    { intros H10. apply Hn. now apply parsed_row_complete. }
    lia.
Qed.

Lemma nine_field_line_fails_decode_witness :
  match read_text ex_nine_fields with
  | Ok conllu_annotations =>
      decode_conllu_output conllu_annotations = Raise KeyError
      /\ match decode_conllu_output conllu_annotations with
         | Ok decoded =>
             Forall (Forall (fun row => length row = 10))
                    (lazy_parse ex_nine_fields)
             /\ Forall2 (fun rows lines => length lines = length rows)
                        (lazy_parse ex_nine_fields) decoded
         | Raise e =>
             e = KeyError
             /\ Exists (Exists (fun row => length row = 9))
                       (lazy_parse ex_nine_fields)
         end
  | Raise _ => False
  end.
Proof.
  generalize (nine_field_line_fails_decode ex_nine_fields).
  destruct (read_text ex_nine_fields) as [anns | e] eqn:E.
  - intros H. split; [| apply H; reflexivity].
    vm_compute in E. injection E as E. subst anns. reflexivity.
  - vm_compute in E. discriminate.
Defined.

(** ** Writing and reading back *)

Lemma append_nil_r : forall s : string, (s ++ "")%string = s.
Proof. induction s as [| a s IH]; simpl; [reflexivity | now rewrite IH]. Qed.

Lemma append_assoc : forall s t u : string,
    ((s ++ t) ++ u)%string = (s ++ (t ++ u))%string.
Proof.
  induction s as [| a s IH]; intros t u; simpl; [reflexivity |].
  now rewrite IH.
Qed.

Lemma concat_cons : forall x xs,
    String.concat "" (x :: xs) = (x ++ String.concat "" xs)%string.
Proof.
  intros x xs. destruct xs as [| y ys]; simpl.
  - now rewrite append_nil_r.
  - reflexivity.
Qed.

Lemma contains_char_append : forall c s t,
    contains_char c (s ++ t) = contains_char c s || contains_char c t.
Proof.
  intros c s t. induction s as [| a s IH]; simpl; [reflexivity |].
  rewrite IH. now rewrite orb_assoc.
Qed.

Lemma contains_char_join : forall c sep l,
    Ascii.eqb sep c = false ->
    Forall (fun w => contains_char c w = false) l ->
    contains_char c (join (String sep "") l) = false.
Proof.
  intros c sep l Hsep Hl. induction Hl as [| x rest Hx _ IH].
  - reflexivity.
  - destruct rest as [| y rest]; [assumption |].
    rewrite join_cons, contains_char_append, Hx. simpl.
    rewrite Hsep. assumption.
Qed.

Lemma split_blank_not_nil : forall text, split_blank text <> [].
Proof.
  intros text. destruct text as [| a rest]; simpl; [discriminate |].
  destruct rest as [| b rest'].
  - simpl. discriminate.
  - destruct (Ascii.eqb a newline && Ascii.eqb b newline); [discriminate |].
    destruct (split_blank (String b rest')); discriminate.
Qed.

Lemma split_blank_plain : forall a rest,
    Ascii.eqb a newline = false ->
    split_blank (String a rest) = prepend (String a "") (split_blank rest).
Proof.
  intros a rest Ha. cbn [split_blank]. rewrite Ha. cbn [andb].
  destruct rest; reflexivity.
Qed.

Lemma split_blank_word : forall w text,
    contains_char newline w = false ->
    split_blank (w ++ text) = prepend w (split_blank text).
Proof.
  induction w as [| a w IH]; intros text Hw.
  - simpl. pose proof (split_blank_not_nil text) as Hn.
    destruct (split_blank text); [contradiction | reflexivity].
  - simpl in Hw. apply orb_false_iff in Hw. destruct Hw as [Ha Hw].
    change (String a w ++ text)%string with (String a (w ++ text)).
    rewrite split_blank_plain by assumption. rewrite (IH text Hw).
    pose proof (split_blank_not_nil text) as Hn.
    destruct (split_blank text); [contradiction | reflexivity].
Qed.

Lemma split_blank_single_newline : forall c text,
    Ascii.eqb c newline = false ->
    split_blank (String newline (String c text))
    = prepend (String newline "") (split_blank (String c text)).
Proof.
  intros c text Hc. cbn [split_blank]. rewrite Hc, andb_false_r.
  reflexivity.
Qed.

Lemma split_blank_separator : forall text,
    split_blank (String newline (String newline text))
    = "" :: split_blank text.
Proof. intros text. cbn [split_blank]. reflexivity. Qed.

Lemma written_lines_cons : forall line lines text,
    (String.concat ""
       (map (fun line => (line ++ String newline "")%string) (line :: lines))
     ++ text)%string
    = (line
       ++ String newline
            (String.concat ""
               (map (fun line => (line ++ String newline "")%string) lines)
             ++ text))%string.
Proof.
  intros line lines text. cbn [map]. rewrite concat_cons.
  rewrite !append_assoc. reflexivity.
Qed.

(** The lines of a sentence as they are written, up to the blank line that
    ends the sentence. *)
Lemma split_blank_block : forall lines text,
    lines <> [] ->
    Forall (fun line => line <> "" /\ contains_char newline line = false)
           lines ->
    split_blank
      (String.concat "" (map (fun line => (line ++ String newline "")%string)
                             lines)
       ++ String newline text)
    = join (String newline "") lines :: split_blank text.
Proof.
  intros lines text Hne Hlines.
  induction Hlines as [| l rest [Hl Hnl] Hrest IH]; [contradiction |].
  rewrite written_lines_cons, (split_blank_word l _ Hnl).
  destruct rest as [| l2 rest].
  - cbn [map String.concat append]. rewrite split_blank_separator.
    cbn [prepend join]. now rewrite append_nil_r.
  - inversion Hrest as [| l2' rest' [Hl2 Hnl2] _]; subst.
    destruct l2 as [| c l2]; [contradiction |].
    assert (Hc : Ascii.eqb c newline = false).
    { simpl in Hnl2. now apply orb_false_iff in Hnl2. }
    specialize (IH ltac:(discriminate)).
    rewrite written_lines_cons in *. cbn [append] in *.
    rewrite (split_blank_single_newline c _ Hc), IH.
    cbn [prepend]. rewrite (join_cons newline l). reflexivity.
Qed.

Lemma written_cons : forall lines rest,
    written (lines :: rest)
    = (String.concat ""
         (map (fun line => (line ++ String newline "")%string) lines)
       ++ String newline (written rest))%string.
Proof.
  intros lines rest. unfold written. cbn [map]. rewrite concat_cons.
  rewrite append_assoc. reflexivity.
Qed.

(** What is written splits into the sentences, and a last empty block. *)
Lemma split_blank_written : forall decoded,
    Forall (fun lines =>
              lines <> []
              /\ Forall (fun line => line <> ""
                                     /\ contains_char newline line = false)
                        lines)
           decoded ->
    split_blank (written decoded)
    = map (join (String newline "")) decoded ++ [""].
Proof.
  intros decoded H. induction H as [| lines rest [Hne Hlines] _ IH].
  - reflexivity.
  - rewrite written_cons, split_blank_block by assumption.
    rewrite IH. reflexivity.
Qed.

Lemma join_not_empty : forall sep line lines,
    line <> "" -> join sep (line :: lines) <> "".
Proof.
  intros sep line lines Hl. destruct line as [| a line]; [contradiction |].
  destruct lines; simpl; discriminate.
Qed.

Lemma filter_all : forall (A : Type) (p : A -> bool) (l : list A),
    Forall (fun x => p x = true) l -> filter p l = l.
Proof.
  intros A p l H. induction H as [| x l Hx _ IH]; simpl; [reflexivity |].
  now rewrite Hx, IH.
Qed.

(** Reading back what was written for sentences of non-empty token
    lines. *)
Lemma lazy_parse_written : forall decoded,
    Forall (fun lines =>
              lines <> []
              /\ Forall (fun line => is_token_line line = true
                                     /\ contains_char newline line = false)
                        lines)
           decoded ->
    lazy_parse (written decoded)
    = map (map (fun line => combine FIELDS (split tab line))) decoded.
Proof.
  intros decoded H.
  assert (Hne : forall line, is_token_line line = true -> line <> "").
  { intros line Hl E. subst. discriminate. }
  unfold lazy_parse. rewrite split_blank_written.
  - rewrite filter_app. cbn [filter String.eqb negb]. rewrite app_nil_r.
    rewrite filter_all.
    + rewrite map_map. apply map_ext_in. intros lines Hin.
      rewrite Forall_forall in H. destruct (H lines Hin) as [_ Hlines].
      rewrite parse_sentence_rows, split_newline_join.
      * f_equal. apply filter_all.
        apply Forall_forall. intros line Hl. rewrite Forall_forall in Hlines.
        apply (Hlines line Hl).
      * apply Forall_forall. intros line Hl. rewrite Forall_forall in Hlines.
        apply (Hlines line Hl).
    + apply Forall_forall. intros blob Hin. apply in_map_iff in Hin.
      destruct Hin as [lines [E Hl]]. subst blob.
      rewrite Forall_forall in H. destruct (H lines Hl) as [Hn Hlines].
      destruct lines as [| line lines]; [contradiction |].
      inversion Hlines as [| l ls [Htl _] _]; subst.
      apply negb_true_iff, String.eqb_neq. apply join_not_empty. now apply Hne.
  - apply Forall_forall. intros lines Hin. rewrite Forall_forall in H.
    destruct (H lines Hin) as [Hn Hlines]. split; [assumption |].
    apply Forall_forall. intros line Hl. rewrite Forall_forall in Hlines.
    destruct (Hlines line Hl) as [Ht Hnl]. split; [now apply Hne |].
    assumption.
Qed.

Lemma plain_token_line : forall t,
    plain_token t ->
    is_token_line (token_line t) = true
    /\ contains_char newline (token_line t) = false
    /\ combine FIELDS (split tab (token_line t)) = token_dict t.
Proof.
  intros t [Hfields Hline]. split; [assumption |]. split.
  - unfold token_line. apply contains_char_join; [reflexivity |].
    apply Forall_forall. intros f Hf. rewrite Forall_forall in Hfields.
    apply (Hfields f Hf).
  - unfold token_line. rewrite split_join.
    + destruct t; reflexivity.
    + destruct t; discriminate.
    + apply Forall_forall. intros f Hf. rewrite Forall_forall in Hfields.
      apply (Hfields f Hf).
Qed.

Lemma lazy_parse_written_tokens : forall sentences : list Sentence,
    Forall (fun annotated_sentence =>
              annotated_sentence <> []
              /\ Forall plain_token annotated_sentence)
           sentences ->
    lazy_parse (written (map (map token_line) sentences))
    = map (map token_dict) sentences.
Proof.
  intros sentences H. rewrite lazy_parse_written.
  - rewrite map_map. apply map_ext_in. intros s Hin. rewrite map_map.
    apply map_ext_in. intros t Ht. rewrite Forall_forall in H.
    destruct (H s Hin) as [_ Hs]. rewrite Forall_forall in Hs.
    apply (plain_token_line t (Hs t Ht)).
  - apply Forall_forall. intros lines Hin. apply in_map_iff in Hin.
    destruct Hin as [s [E Hs]]. subst lines. rewrite Forall_forall in H.
    destruct (H s Hs) as [Hne Hplain]. split.
    + destruct s; [contradiction | discriminate].
    + apply Forall_forall. intros line Hl. apply in_map_iff in Hl.
      destruct Hl as [t [E Ht]]. subst line. rewrite Forall_forall in Hplain.
      destruct (plain_token_line t (Hplain t Ht)) as [A [B _]]. now split.
Qed.

(** X24. Writing and reading back is the identity on sentences: for
    non-empty sentences whose fields hold no tab and no newline and whose
    lines are token lines, [lazy_parse] applied to what
    [decode_conllu_output] and [write_conllu_output] produce returns the
    same sentences, token by token and field by field. *)
Theorem write_then_parse : forall sentences : list Sentence,
    Forall (fun annotated_sentence =>
              annotated_sentence <> []
              /\ Forall plain_token annotated_sentence)
           sentences ->
    exists decoded,
      decode_conllu_output (map (map token_dict) sentences) = Ok decoded
      /\ lazy_parse (written decoded) = map (map token_dict) sentences.
Proof.
  intros sentences H. exists (map (map token_line) sentences). split.
  - unfold decode_conllu_output.
    apply (mapM_map _ _ _ _ (map token_dict) (map token_line)).
    intros s. apply mapM_map. intros t. reflexivity.
  - now apply lazy_parse_written_tokens.
Qed.

Lemma write_then_parse_witness :
  Forall (fun annotated_sentence =>
            annotated_sentence <> []
            /\ Forall plain_token annotated_sentence)
         [ex_mixed; ex_rootless]
  /\ exists decoded,
      decode_conllu_output (map (map token_dict) [ex_mixed; ex_rootless])
      = Ok decoded
      /\ lazy_parse (written decoded)
         = map (map token_dict) [ex_mixed; ex_rootless].
Proof.
  assert (H : Forall (fun annotated_sentence =>
                        annotated_sentence <> []
                        /\ Forall plain_token annotated_sentence)
                     [ex_mixed; ex_rootless]).
  { repeat first [discriminate | reflexivity | split | constructor]. }
  split; [exact H | apply (write_then_parse _ H)].
Defined.

Lemma universal_newlines_plain : forall content,
    contains_char carriage_return content = false ->
    universal_newlines content = content.
Proof.
  induction content as [| a rest IH]; intros H; [reflexivity |].
  cbn [contains_char] in H. apply orb_false_iff in H. destruct H as [Ha H].
  cbn [universal_newlines]. rewrite Ha, (IH H). reflexivity.
Qed.

Lemma contains_char_written : forall c decoded,
    Ascii.eqb newline c = false ->
    Forall (Forall (fun line => contains_char c line = false)) decoded ->
    contains_char c (written decoded) = false.
Proof.
  intros c decoded Hc H. induction H as [| lines rest Hlines _ IH].
  - reflexivity.
  - rewrite written_cons, contains_char_append. cbn [contains_char].
    rewrite Hc, IH, orb_false_r. cbn [orb].
    induction Hlines as [| line lines Hline _ IHl]; [reflexivity |].
    cbn [map]. rewrite concat_cons, !contains_char_append, Hline, IHl.
    cbn [contains_char]. rewrite Hc. reflexivity.
Qed.

(** X25. The whole script on a well-formed file: for non-empty sentences
    of plain tokens whose fields hold no carriage return, running the
    script on a file with their written form as content raises what the
    record model of [_read] raises on the sentences, and otherwise writes
    exactly the written form of the sentences [_read] returns. *)
Theorem main_on_written_sentences : forall sentences : list Sentence,
    Forall (fun annotated_sentence =>
              annotated_sentence <> []
              /\ Forall plain_token annotated_sentence)
           sentences ->
    Forall (Forall (fun t =>
                      Forall (fun field =>
                                contains_char carriage_return field = false)
                             (token_fields t)))
           sentences ->
    main (written (map (map token_line) sentences))
    = out <- _read sentences ;; Ok (written (map (map token_line) out)).
Proof.
  intros sentences H Hcr. unfold main, read_text.
  rewrite universal_newlines_plain.
  2: { apply contains_char_written; [reflexivity |].
       apply Forall_forall. intros lines Hin.
       apply in_map_iff in Hin. destruct Hin as [s [E Hs]]. subst lines.
       apply Forall_forall. intros line Hin.
       apply in_map_iff in Hin. destruct Hin as [t [E Ht]]. subst line.
       rewrite Forall_forall in Hcr. specialize (Hcr s Hs).
       rewrite Forall_forall in Hcr. specialize (Hcr t Ht).
       unfold token_line. apply contains_char_join; [reflexivity | exact Hcr]. }
  rewrite (lazy_parse_written_tokens sentences H).
  rewrite read_rows_from_of_tokens. unfold _read.
  destruct (read_from None sentences) as [out |]; cbn [bind];
    [| reflexivity].
  unfold decode_conllu_output.
  rewrite (mapM_map _ _ _ _ (map token_dict) (map token_line)).
  - reflexivity.
  - intros s. apply mapM_map. intros t. reflexivity.
Qed.

Lemma main_on_written_sentences_witness :
  Forall (fun annotated_sentence =>
            annotated_sentence <> []
            /\ Forall plain_token annotated_sentence)
         [ex_mixed; ex_cycle]
  /\ Forall (Forall (fun t =>
                       Forall (fun field =>
                                 contains_char carriage_return field = false)
                              (token_fields t)))
            [ex_mixed; ex_cycle]
  /\ main (written (map (map token_line) [ex_mixed; ex_cycle]))
     = out <- _read [ex_mixed; ex_cycle] ;;
       Ok (written (map (map token_line) out)).
Proof.
  assert (H : Forall (fun annotated_sentence =>
                        annotated_sentence <> []
                        /\ Forall plain_token annotated_sentence)
                     [ex_mixed; ex_cycle]).
  { repeat first [discriminate | reflexivity | split | constructor]. }
  assert (Hcr : Forall (Forall (fun t =>
                                  Forall (fun field =>
                                            contains_char carriage_return field
                                            = false)
                                         (token_fields t)))
                       [ex_mixed; ex_cycle]).
  { repeat first [reflexivity | constructor]. }
  split; [exact H |]. split; [exact Hcr |].
  apply (main_on_written_sentences _ H Hcr).
Defined.

(** A carriage return inside a field is read as a line end: the token
    line falls into two lines, the first of which has no ["head"]. *)
Example carriage_return_in_field :
  main (written [[token_line (Token.mk "1"
                                (String "a" (String carriage_return "b"))
                                "w" "X" "_" "_" "0" "dep" "0:root" "_")]])
  = Raise KeyError.
Proof. vm_compute. reflexivity. Qed.

(** ** The name of the output file *)

Lemma split_join_pieces : forall sep pieces,
    pieces <> [] ->
    Forall (fun w => contains_char sep w = false) pieces ->
    hd "" (split sep (join (String sep "") pieces)) = hd "" pieces
    /\ last (split sep (join (String sep "") pieces)) ""
       = last pieces "".
Proof.
  intros sep pieces Hne H. now rewrite split_join.
Qed.

(** X26. For an input base name made of pieces joined by hyphens (no
    piece holding a hyphen or a dot), followed or not by a dot and an
    extension, the output file is named after the first and the last
    piece: [first-ud-last.conllu]; the pieces between them and the
    extension are dropped.  A base name of the form [tbid-ud-split.conllu]
    is therefore kept. *)
Theorem out_file_string_of_pieces : forall pieces ext,
    pieces <> [] ->
    Forall (fun w => contains_char "-" w = false
                     /\ contains_char "." w = false) pieces ->
    out_file_string (join "-" pieces ++ "." ++ ext)
    = (hd "" pieces ++ "-ud-" ++ last pieces "" ++ ".conllu")%string
    /\ out_file_string (join "-" pieces)
       = (hd "" pieces ++ "-ud-" ++ last pieces "" ++ ".conllu")%string.
Proof.
  intros pieces ext Hne H.
  assert (Hdash : Forall (fun w => contains_char "-" w = false) pieces).
  { apply Forall_forall. intros w Hw. rewrite Forall_forall in H.
    apply (H w Hw). }
  assert (Hdot : contains_char "." (join "-" pieces) = false).
  { apply contains_char_join; [reflexivity |].
    apply Forall_forall. intros w Hw. rewrite Forall_forall in H.
    apply (H w Hw). }
  destruct (split_join_pieces "-" pieces Hne Hdash) as [Hhd Hlast].
  unfold out_file_string. split.
  - change ("." ++ ext)%string with (String "." ext).
    rewrite (split_app_sep "." _ ext Hdot). cbn [hd].
    now rewrite Hhd, Hlast.
  - rewrite (split_without_sep "." _ Hdot). cbn [hd].
    now rewrite Hhd, Hlast.
Qed.

Lemma out_file_string_of_pieces_witness :
  out_file_string "en_ewt-ud-dev.conllu" = "en_ewt-ud-dev.conllu"
  /\ out_file_string "en_ewt-ud-dev" = "en_ewt-ud-dev.conllu".
Proof.
  apply (out_file_string_of_pieces ["en_ewt"; "ud"; "dev"] "conllu").
  - discriminate.
  - repeat constructor.
Defined.

(** ** One sweep, and the two passes before the sweeps *)

Lemma sweep_pairs_step : forall qs nodes,
    exists added,
      sweep_pairs qs nodes = nodes ++ added
      /\ NoDup added
      /\ (forall x, In x added -> ~ In x nodes)
      /\ (forall x, In x added ->
                    exists h, In (x, h) qs /\ In h (nodes ++ added)).
Proof.
  induction qs as [| [t h] qs IH]; intros nodes.
  - exists []. cbn [sweep_pairs fold_left]. rewrite app_nil_r.
    split; [reflexivity |]. split; [constructor |].
    split; intros x [].
  - change (sweep_pairs ((t, h) :: qs) nodes)
      with (sweep_pairs qs (visit nodes t h)).
    destruct (visit_cases nodes t h) as [[E _] | [E [Hh Ht]]]; rewrite E.
    + destruct (IH nodes) as [added [Hs [Hnd [Hfresh Hsound]]]].
      exists added. split; [assumption |]. split; [assumption |].
      split; [assumption |].
      intros x Hx. destruct (Hsound x Hx) as [h' [Hin Hh']].
      exists h'. split; [now right | assumption].
    + destruct (IH (nodes ++ [t])) as [added [Hs [Hnd [Hfresh Hsound]]]].
      exists (t :: added).
      split; [rewrite Hs, <- app_assoc; reflexivity |].
      split.
      { constructor; [| assumption].
        intros Hin. apply (Hfresh t Hin). apply in_or_app. right. now left. }
      split.
      { intros x [Hx | Hx].
        - now subst x.
        - intros Hin. apply (Hfresh x Hx). apply in_or_app. now left. }
      intros x [Hx | Hx].
      * subst x. exists h. split; [now left |].
        apply in_or_app. now left.
      * destruct (Hsound x Hx) as [h' [Hin Hh']].
        exists h'. split; [now right |].
        rewrite <- app_assoc in Hh'. exact Hh'.
Qed.

(** X27. One call of [traverse_root_children] returns the list it was
    given followed by the tokens it appended: each of them once, none of
    them a member before, each with a head that is in the returned list.
    The flag it returns is [False] when nothing was appended and the flag
    it was given otherwise; and when nothing was appended the list is
    closed: every token with a head in the list is in the list. *)
Theorem traverse_root_children_step :
  forall ids_to_heads nodes_reachable_from_root keep_searching_for_dependents,
    exists added,
      fst (traverse_root_children ids_to_heads nodes_reachable_from_root
                                  keep_searching_for_dependents)
      = nodes_reachable_from_root ++ added
      /\ NoDup added
      /\ (forall x,
             In x added ->
             ~ In x nodes_reachable_from_root
             /\ exists head,
                 In (x, head) (pairs ids_to_heads)
                 /\ In head (nodes_reachable_from_root ++ added))
      /\ snd (traverse_root_children ids_to_heads nodes_reachable_from_root
                                     keep_searching_for_dependents)
         = match added with
           | [] => false
           | _ :: _ => keep_searching_for_dependents
           end
      /\ (added = [] ->
          forall token_id head,
            In (token_id, head) (pairs ids_to_heads) ->
            In head nodes_reachable_from_root ->
            In token_id nodes_reachable_from_root).
Proof.
  intros m nodes keep.
  destruct (sweep_pairs_step (pairs m) nodes)
    as [added [Hs [Hnd [Hfresh Hsound]]]].
  exists added.
  assert (Hflag : snd (traverse_root_children m nodes keep)
                  = if Nat.eqb (length nodes)
                               (length (fst (traverse_root_children m nodes
                                                                    keep)))
                    then false else keep) by reflexivity.
  rewrite traverse_root_children_pairs in *.
  split; [assumption |]. split; [assumption |].
  split; [intros x Hx; split; [now apply Hfresh | now apply Hsound] |].
  split.
  - rewrite Hflag, Hs, length_app. destruct added as [| x added]; simpl.
    + now rewrite Nat.add_0_r, Nat.eqb_refl.
    + destruct (Nat.eqb (length nodes) (length nodes + S (length added)))
        eqn:E; [| reflexivity].
      apply Nat.eqb_eq in E. lia.
  - intros Hadded. subst added. rewrite app_nil_r in Hs.
    apply (sweep_pairs_stable (pairs m) nodes). now rewrite Hs.
Qed.

Lemma new_root_last : forall ps token_id,
    In (token_id, "0") ps ->
    exists r before after,
      ps = before ++ (r, "0") :: after
      /\ (forall t, ~ In (t, "0") after)
      /\ forall root_index, new_root ps root_index = Some r.
Proof.
  induction ps as [| [t h] ps IH] using rev_ind; intros token_id Hin;
    [contradiction |].
  destruct (String.eqb h "0") eqn:Hh.
  - apply String.eqb_eq in Hh. subst h.
    exists t, ps, []. split; [reflexivity |]. split; [intros t' [] |].
    intros root_index. unfold new_root. rewrite fold_left_app. reflexivity.
  - apply in_app_or in Hin. destruct Hin as [Hin | [E | []]].
    + destruct (IH token_id Hin) as [r [before [after [E [Hno Hr]]]]].
      exists r, before, (after ++ [(t, h)]).
      split; [rewrite E, <- app_assoc; reflexivity |].
      split.
      * intros t' Ht'. apply in_app_or in Ht'.
        destruct Ht' as [Ht' | [Ht' | []]]; [now apply (Hno t') |].
        inversion Ht'; subst. discriminate.
      * intros root_index. unfold new_root. rewrite fold_left_app.
        cbn [fold_left snd fst]. rewrite Hh. apply Hr.
    + inversion E; subst. discriminate.
Qed.

(** X28. When several tokens of a sentence are headed by ["0"], the last
    of them in HeadMap order is the one [root_index] keeps, whatever value
    it had before; the list the sweeps start from is every token headed by
    ["0"] (once for each such head) followed by the tokens with a head
    equal to that last root only, appended without a membership test. *)
Theorem last_root_wins :
  forall root_index (annotated_sentence : Sentence) a token_id,
    analyse root_index annotated_sentence = Ok a ->
    In (token_id, "0") (pairs (ids_to_heads a)) ->
    exists r before after,
      pairs (ids_to_heads a) = before ++ (r, "0") :: after
      /\ (forall t, ~ In (t, "0") after)
      /\ new_root_index a = Some r
      /\ initial_nodes a
         = tokens_with_head "0" (pairs (ids_to_heads a))
           ++ tokens_with_head r (pairs (ids_to_heads a)).
Proof.
  intros root_index annotated_sentence a token_id Ha Hin.
  destruct (analyse_ok _ _ _ Ha) as [_ [Hr _]].
  destruct (new_root_last _ _ Hin) as [r [before [after [E [Hno Hnew]]]]].
  exists r, before, after.
  split; [assumption |]. split; [assumption |].
  rewrite root_and_children_spec, (Hnew root_index) in Hr.
  injection Hr as Hri Hnodes. now split.
Qed.

Lemma last_root_wins_witness :
  match analyse (Some "9") ex_two_roots with
  | Ok a =>
      new_root_index a = Some "3"
      /\ initial_nodes a = ["1"; "3"; "4"]
      /\ nodes_reachable_from_root a = ["1"; "3"; "4"; "2"]
      /\ exists r before after,
          pairs (ids_to_heads a) = before ++ (r, "0") :: after
          /\ (forall t, ~ In (t, "0") after)
          /\ new_root_index a = Some r
          /\ initial_nodes a
             = tokens_with_head "0" (pairs (ids_to_heads a))
               ++ tokens_with_head r (pairs (ids_to_heads a))
  | Raise _ => False
  end.
Proof.
  generalize (last_root_wins (Some "9") ex_two_roots).
  destruct (analyse (Some "9") ex_two_roots) as [a | e] eqn:E.
  - intros H.
    assert (Hin : In ("1", "0") (pairs (ids_to_heads a))).
    { vm_compute in E. injection E as E. subst a. now left. }
    split; [| split; [| split]];
      [vm_compute in E; injection E as E; subst a; reflexivity ..
      | apply (H a "1" eq_refl Hin)].
  - vm_compute in E. discriminate.
Defined.

(** * Fragment minimality *)

Section EnumerateSkip.
Variable A : Type.
Variable body : nat -> A -> list A -> Result (list A).
Variable p : A -> bool.

(** If the body deletes the element it stands on exactly when [p] holds of
    it, the loop removes such an element and moves past the one behind
    it. *)
Lemma enumerate_loop_skip : forall fuel rest passed,
    length rest <= fuel ->
    Forall (fun x => forall i l,
                body i x l = if p x then del_at i l else Ok l) rest ->
    enumerate_loop body fuel (length passed) (passed ++ rest)
    = Ok (passed ++ keep_after_deleted p rest).
Proof.
  induction fuel as [| fuel IH]; intros rest passed Hfuel Hbody.
  - destruct rest; [reflexivity | simpl in Hfuel; lia].
  - destruct rest as [| x rest].
    + simpl. rewrite app_nil_r.
      assert (E : nth_error passed (length passed) = None)
        by (apply nth_error_None; lia).
      now rewrite E.
    + cbn [enumerate_loop].
      rewrite nth_error_app2, Nat.sub_diag by lia. cbn [nth_error].
      inversion Hbody as [| x' rest' Hx Hrest]; subst.
      rewrite Hx. simpl in Hfuel. cbn [keep_after_deleted].
      destruct (p x) eqn:Hpx.
      * rewrite del_at_middle. cbn [bind].
        destruct rest as [| y rest].
        -- rewrite app_nil_r. apply enumerate_loop_past_end. lia.
        -- inversion Hrest as [| y' rest' Hy Hrest']; subst.
           replace (passed ++ y :: rest) with ((passed ++ [y]) ++ rest)
             by (rewrite <- app_assoc; reflexivity).
           replace (passed ++ y :: keep_after_deleted p rest)
             with ((passed ++ [y]) ++ keep_after_deleted p rest)
             by (rewrite <- app_assoc; reflexivity).
           replace (S (length passed)) with (length (passed ++ [y]))
             by (rewrite length_app; simpl; lia).
           apply IH; [simpl in Hfuel; lia | assumption].
      * cbn [bind].
        replace (passed ++ x :: rest) with ((passed ++ [x]) ++ rest)
          by (rewrite <- app_assoc; reflexivity).
        replace (passed ++ x :: keep_after_deleted p rest)
          with ((passed ++ [x]) ++ keep_after_deleted p rest)
          by (rewrite <- app_assoc; reflexivity).
        replace (S (length passed)) with (length (passed ++ [x]))
          by (rewrite length_app; simpl; lia).
        apply IH; [lia | assumption].
Qed.

Lemma keep_after_deleted_filter : forall n l,
    length l <= n ->
    no_adjacent p l = true ->
    keep_after_deleted p l = filter (fun x => negb (p x)) l.
Proof.
  induction n as [| n IH]; intros l Hn Hadj.
  - destruct l; [reflexivity | simpl in Hn; lia].
  - destruct l as [| x rest]; [reflexivity |].
    cbn [keep_after_deleted filter]. simpl in Hn.
    destruct (p x) eqn:Hpx; cbn [negb].
    + destruct rest as [| y rest]; [reflexivity |].
      pose proof (no_adjacent_head _ _ _ _ _ Hadj Hpx) as Hpy.
      cbn [filter]. rewrite Hpy. cbn [negb]. f_equal.
      apply IH; [simpl in Hn; lia |].
      now apply no_adjacent_tail in Hadj; apply no_adjacent_tail in Hadj.
    + f_equal. apply IH; [lia |]. now apply no_adjacent_tail in Hadj.
Qed.

Lemma keep_after_deleted_in : forall n l,
    length l <= n ->
    forall x, In x (keep_after_deleted p l) -> In x l.
Proof.
  induction n as [| n IH]; intros l Hn x Hx.
  - destruct l; [assumption | simpl in Hn; lia].
  - destruct l as [| x0 rest]; [assumption |].
    cbn [keep_after_deleted] in Hx. simpl in Hn.
    destruct (p x0).
    + destruct rest as [| y rest]; [contradiction |].
      destruct Hx as [Hx | Hx]; [right; now left |].
      right. right. apply IH; [simpl in Hn; lia | assumption].
    + destruct Hx as [Hx | Hx]; [now left |].
      right. apply IH; [lia | assumption].
Qed.
End EnumerateSkip.

Lemma is_child_hits : forall fragments k,
    is_child fragments k = negb (Nat.eqb (hits fragments k) 0).
Proof.
  intros fragments k. unfold is_child, hits.
  induction fragments as [| f fs IH]; [reflexivity |].
  cbn [existsb filter]. destruct (mem k (snd f)); [reflexivity |].
  exact IH.
Qed.

Lemma is_child_true : forall fragments k,
    is_child fragments k = true
    <-> exists parent children,
        In (parent, children) fragments /\ In k children.
Proof.
  intros fragments k. unfold is_child. rewrite existsb_exists. split.
  - intros [[parent children] [Hin Hm]]. exists parent, children.
    split; [assumption |]. now apply mem_In.
  - intros [parent [children [Hin Hk]]]. exists (parent, children).
    split; [assumption |]. now apply mem_In.
Qed.

(** When every key is a child in at most one fragment, the collapse
    deletes at most once for a key, so it cannot delete past the end. *)
Lemma collapse_of_single_children : forall fragments heads_of_fragments,
    Forall (fun k => hits fragments k <= 1) heads_of_fragments ->
    collapse fragments heads_of_fragments
    = Ok (keep_after_deleted (is_child fragments) heads_of_fragments).
Proof.
  intros fragments heads Hone. unfold collapse, for_enumerate.
  apply (enumerate_loop_skip _ (collapse_body fragments) (is_child fragments)
           (length heads) heads []); [lia |].
  apply Forall_forall. intros k Hk i l.
  rewrite Forall_forall in Hone. specialize (Hone k Hk).
  rewrite is_child_hits. unfold collapse_body, hits in *.
  rewrite (foldM_del_at_once _ _ (fun fr => mem k (snd fr)) i fragments l
             Hone).
  destruct (Nat.eqb _ 0); reflexivity.
Qed.

Lemma keys_of_pruned_tree : forall root_index (annotated_sentence : Sentence) a,
    analyse root_index annotated_sentence = Ok a ->
    collapse (unreachable_head_fragments a)
             (keys (unreachable_head_fragments a))
    = Ok (keys (pruned_tree a)).
Proof.
  intros root_index annotated_sentence a Ha.
  destruct (analyse_ok _ _ _ Ha) as [_ [_ [_ [Hu [[ef [Hef Hf]] [Hc Hp]]]]]].
  destruct (fragments_built (ids_to_heads a) (nodes_reachable_from_root a))
    as [f0 [f [E0 [E [Hnd _]]]]].
  rewrite <- Hu in *. rewrite E0 in Hef. injection Hef as Hef. subst ef.
  rewrite E in Hf. injection Hf as Hf. subst f.
  pose proof Hc as Hc'. unfold collapse, for_enumerate in Hc'.
  apply collapse_loop_keeps in Hc'. destruct Hc' as [Hin Hnd'].
  specialize (Hnd' Hnd).
  destruct (populate_pruned_spec (unreachable_head_fragments a)
              (heads_of_fragments a) Hnd Hnd' Hin) as [K _].
  rewrite Hp, K. exact Hc.
Qed.

(** C2, amended.  Let every fragment key occur in the children lists of at
    most one fragment.  If no two keys that are neighbours in the key order
    of the fragments are both children, the keys of the pruned tree are
    exactly the fragment keys that are a child in no fragment, in order, so
    no surviving key occurs in any children list.  If every key is a child
    and there are at least two keys (a cycle), the pass still leaves a key,
    as the NOTE in the source intends, and that key is a child. *)
Theorem fragment_minimality_when_separated :
  forall root_index (annotated_sentence : Sentence) a,
    analyse root_index annotated_sentence = Ok a ->
    Forall (fun k => hits (unreachable_head_fragments a) k <= 1)
           (keys (unreachable_head_fragments a)) ->
    (no_adjacent (is_child (unreachable_head_fragments a))
                 (keys (unreachable_head_fragments a)) = true ->
     keys (pruned_tree a)
     = filter (fun k => negb (is_child (unreachable_head_fragments a) k))
              (keys (unreachable_head_fragments a))
     /\ forall k,
         In k (keys (pruned_tree a)) ->
         forall parent children,
           In (parent, children) (unreachable_head_fragments a) ->
           ~ In k children)
    /\ (Forall (fun k => is_child (unreachable_head_fragments a) k = true)
               (keys (unreachable_head_fragments a)) ->
        2 <= length (keys (unreachable_head_fragments a)) ->
        exists k parent children,
          In k (keys (pruned_tree a))
          /\ In (parent, children) (unreachable_head_fragments a)
          /\ In k children).
Proof.
  intros root_index annotated_sentence a Ha Hone.
  pose proof (keys_of_pruned_tree _ _ _ Ha) as Hc.
  rewrite (collapse_of_single_children _ _ Hone) in Hc.
  injection Hc as Hc. rewrite <- Hc. split.
  - intros Hadj.
    rewrite (keep_after_deleted_filter _ _ _ _ (Nat.le_refl _) Hadj).
    split; [reflexivity |].
    intros k Hk parent children Hin Hchild.
    apply filter_In in Hk. destruct Hk as [_ Hk].
    assert (Hyes : is_child (unreachable_head_fragments a) k = true)
      by (apply is_child_true; exists parent, children; now split).
    rewrite Hyes in Hk. discriminate.
  - intros Hall Hlen.
    destruct (keys (unreachable_head_fragments a)) as [| k1 [| k2 rest]]
      eqn:Hkeys; [simpl in Hlen; lia | simpl in Hlen; lia |].
    inversion Hall as [| ? ? H1 Hall']; subst.
    inversion Hall' as [| ? ? H2 _]; subst.
    apply is_child_true in H2. destruct H2 as [parent [children [Hin Hk]]].
    exists k2, parent, children.
    split; [| now split].
    cbn [keep_after_deleted]. rewrite H1. now left.
Qed.

Lemma fragment_minimality_when_separated_witness :
  match analyse None ex_dangling with
  | Ok a =>
      unreachable_head_fragments a = [("5", ["3"]); ("3", ["4"])]
      /\ keys (pruned_tree a) = ["5"]
      /\ forall k,
          In k (keys (pruned_tree a)) ->
          forall parent children,
            In (parent, children) (unreachable_head_fragments a) ->
            ~ In k children
  | Raise _ => False
  end
  /\ match analyse None ex_cycle with
     | Ok a =>
         unreachable_head_fragments a = [("3", ["2"]); ("2", ["3"])]
         /\ exists k parent children,
             In k (keys (pruned_tree a))
             /\ In (parent, children) (unreachable_head_fragments a)
             /\ In k children
     | Raise _ => False
     end.
Proof.
  split.
  - generalize (fragment_minimality_when_separated None ex_dangling).
    destruct (analyse None ex_dangling) as [a | e] eqn:E;
      [| vm_compute in E; discriminate].
    vm_compute in E. injection E as E. subst a. intros H.
    destruct (H _ eq_refl) as [[Hkeys Hmin] _].
    + repeat constructor.
    + reflexivity.
    + split; [reflexivity |]. split; [exact Hkeys | exact Hmin].
  - generalize (fragment_minimality_when_separated None ex_cycle).
    destruct (analyse None ex_cycle) as [a | e] eqn:E;
      [| vm_compute in E; discriminate].
    vm_compute in E. injection E as E. subst a. intros H.
    destruct (H _ eq_refl) as [_ Hleft].
    + repeat constructor.
    + split; [reflexivity |]. apply Hleft.
      * repeat constructor.
      * simpl. lia.
Defined.

(** Both conditions are needed.  Here token "3" has two heads, so the key
    "3" is a child in two fragments: the pass deletes "3" and the key "9"
    behind it, and "2", a child, is all that is left, although no two
    neighbouring keys are both children. *)
Example two_parents_break_minimality :
  exists a,
    analyse None [tok "1" "0:root"; tok "2" "3:x"; tok "3" "9:x|2:y"] = Ok a
    /\ unreachable_head_fragments a
       = [("3", ["2"]); ("9", ["3"; "3"]); ("2", ["3"; "3"])]
    /\ no_adjacent (is_child (unreachable_head_fragments a))
                   (keys (unreachable_head_fragments a)) = true
    /\ hits (unreachable_head_fragments a) "3" = 2
    /\ keys (pruned_tree a) = ["2"].
Proof. eexists. split; [reflexivity |]. repeat split. Qed.
